(** * k-means clustering of per-base signal matrices

    A shallow embedding of [src/lib/cluster.c]: the undefined-row filter
    ([clear_na_rows]), the construction of the clustering state
    ([init_cbm_from_pbm]), the k-means loop ([k_means]), the final
    relabelling and reordering ([do_kmeans]) and the destructor
    ([free_cbm], over a heap of blocks).

    - A C [double] is a primitive binary64 float, a C [int] is a [Z].
    - The row buffers are a read-only store [mem]; a row pointer is an
      index into it, so that [matrix[i]] and [array[i]->data] can be
      compared as pointers.
    - An access outside an object is undefined behaviour in C: the model
      stops with [Fault].  An allocation that cannot be met ends the
      program: [Abort].  The do-while loop of [k_means] has no iteration
      cap: the model takes fuel and stops with [Timeout] when it runs out.
    - [qsort] is the C library's: the functions take it as a parameter. *)

From Stdlib Require Import ZArith Lia Floats.
From stdpp Require Import base list sorting gmap.

Local Open Scope Z_scope.

(** ** Outcomes of a run *)

Inductive result (A : Type) : Type :=
| Ok (a : A)
| Fault
| Abort
| Timeout.

Arguments Ok {A} a.
Arguments Fault {A}.
Arguments Abort {A}.
Arguments Timeout {A}.

Definition bind {A B : Type} (c : result A) (f : A -> result B) : result B :=
  match c with
  | Ok a => f a
  | Fault => Fault
  | Abort => Abort
  | Timeout => Timeout
  end.

Notation "'let!' x ':=' c 'in' k" := (bind c (fun x => k))
  (at level 10, x name, c at level 100, k at level 200).
Notation "'let!' ' pat ':=' c 'in' k" :=
  (bind c (fun x => match x with pat => k end))
  (at level 10, pat pattern, c at level 100, k at level 200).

(** [for (i in idx) s = body(i, s)], stopping at the first failure. *)
Fixpoint for_each {S : Type} (idx : list nat) (body : nat -> S -> result S) (s : S)
  : result S :=
  match idx with
  | [] => Ok s
  | i :: idx' => let! s' := body i s in for_each idx' body s'
  end.

(** The counters [lo, lo+1, ..., hi-1] of [for (i = lo; i < hi; i++)]. *)
Definition upto (lo hi : Z) : list nat :=
  seq (Z.to_nat lo) (Z.to_nat (hi - lo)).

(** The counters [m-1, ..., 0] of [for (j = m-1; j >= 0; j--)]. *)
Definition downfrom (m : Z) : list nat := rev (seq 0 (Z.to_nat m)).

(** ** Arrays *)

Definition get {A : Type} (l : list A) (i : nat) : result A :=
  match l !! i with
  | Some a => Ok a
  | None => Fault
  end.

Definition put {A : Type} (l : list A) (i : nat) (a : A) : result (list A) :=
  if bool_decide (i < length l)%nat then Ok (<[i := a]> l) else Fault.

(** An index held in an [int] variable. *)
Definition zget {A : Type} (l : list A) (i : Z) : result A :=
  if i <? 0 then Fault else get l (Z.to_nat i).

Definition zput {A : Type} (l : list A) (i : Z) (a : A) : result (list A) :=
  if i <? 0 then Fault else put l (Z.to_nat i) a.

(** Modelled from the spec: [AllocArray] is the allocation macro of
    [common.h], which is not among the sources.  The spec has the arrays
    allocated at the start of the labelling run and an allocation failure
    abort the whole operation; as in the library the macro comes from, the
    memory is handed out zero-filled.  A count below zero cannot be met. *)
Definition AllocArray {A : Type} (zero : A) (count : Z) : result (list A) :=
  if count <? 0 then Abort else Ok (replicate (Z.to_nat count) zero).

(** ** Numbers *)

Definition INT_MAX : Z := 2147483647.
Definition INT_MIN : Z := -2147483648.

(** The value an [int] takes when a result leaves its range. *)
Definition int_wrap (z : Z) : Z := (z - INT_MIN) mod 4294967296 + INT_MIN.

Definition DBL_MAX : float := 0x1.fffffffffffffp+1023%float.

Definition isnan (x : float) : bool := PrimFloat.is_nan x.

Definition fabs (x : float) : float := PrimFloat.abs x.

(** [pow(x, 2)]: the square of a double, rounded once. *)
Definition pow2 (x : float) : float := (x * x)%float.

(** The conversion of an [int] to [double] (exact: 32 bits fit in 53). *)
Definition double_of_int (z : Z) : float :=
  if z <? 0 then PrimFloat.opp (PrimFloat.of_uint63 (Uint63.of_Z (- z)))
  else PrimFloat.of_uint63 (Uint63.of_Z z).

(** ** Data model (declared in [bigs.h] and [cluster.h]) *)

(** The address of a row buffer: an index into the row store. *)
Definition ptr : Type := nat.

(** The row store: the buffers the row pointers point into. *)
Definition rowstore : Type := list (list float).

(** A row descriptor; only the fields the engine touches. *)
Record perBaseWig : Type := mkPerBaseWig {
  label : Z;
  data : ptr
}.

Record perBaseMatrix : Type := mkPerBaseMatrix {
  nrow : Z;
  ncol : Z;
  array : list perBaseWig;
  matrix : list ptr
}.

Record cluster_bed_matrix : Type := mkCbm {
  pbm : perBaseMatrix;
  m : Z;
  n : Z;
  k : Z;
  num_na : Z;
  centroids : list (list float);
  cluster_sizes : list Z
}.

Definition set_label (l : Z) (w : perBaseWig) : perBaseWig :=
  mkPerBaseWig l (data w).

(** [matrix[i][j]] *)
Definition cell (mem : rowstore) (mat : list ptr) (i j : nat) : result float :=
  let! p := get mat i in
  let! r := get mem p in
  get r j.

(** [array[i]->label = l] *)
Definition store_label (arr : list perBaseWig) (i : nat) (l : Z)
  : result (list perBaseWig) :=
  let! w := get arr i in
  put arr i (set_label l w).

(** ** Comparators *)

Definition perBaseWigJustLabelCmp (a b : perBaseWig) : Z :=
  int_wrap (label a - label b).

(** Modelled from the spec: [perBaseWigLabelCmp], the comparator
    [do_kmeans] hands to [qsort], is declared in [bigs.h] and defined
    outside the sources.  The spec has the final sort keyed solely on the
    label, ascending. *)
Definition perBaseWigLabelCmp (a b : perBaseWig) : Z :=
  int_wrap (label a - label b).

(** ** The engine *)

Section Engine.

(** The C library's [qsort], on an array of descriptor pointers. *)
Variable qsort :
  (perBaseWig -> perBaseWig -> Z) -> list perBaseWig -> list perBaseWig.

Variable mem : rowstore.

(** [qsort(array, nrow, sizeof(array[0]), cmp)]: the first [nrow] entries
    are sorted in place. *)
Definition qsort_array (cmp : perBaseWig -> perBaseWig -> Z) (nr : Z)
    (arr : list perBaseWig) : result (list perBaseWig) :=
  if bool_decide (Z.to_nat nr <= length arr)%nat
  then Ok (qsort cmp (take (Z.to_nat nr) arr) ++ drop (Z.to_nat nr) arr)
  else Fault.

(** [for (i = 0; i < nrow; i++) matrix[i] = array[i]->data;] *)
Definition sync_step (arr : list perBaseWig) (i : nat) (mat : list ptr)
  : result (list ptr) :=
  let! w := get arr i in
  put mat i (data w).

Definition sync_matrix (nr : Z) (arr : list perBaseWig) (mat : list ptr)
  : result (list ptr) :=
  for_each (upto 0 nr) (sync_step arr) mat.

(** The inner loop of [clear_na_rows]: does row [i] hold a NaN?  The scan
    stops ([break]) at the first one. *)
Fixpoint row_has_nan (mat : list ptr) (i : nat) (js : list nat) : result bool :=
  match js with
  | [] => Ok false
  | j :: js' =>
      let! x := cell mem mat i j in
      if isnan x then Ok true else row_has_nan mat i js'
  end.

Definition mark_na (p : perBaseMatrix) (i : nat) (st : list perBaseWig * Z)
  : result (list perBaseWig * Z) :=
  let! b := row_has_nan (matrix p) i (upto 0 (ncol p)) in
  if b then
    let! arr' := store_label (fst st) i (-1) in
    Ok (arr', snd st + 1)
  else Ok st.

Definition clear_na_rows (p : perBaseMatrix) : result (perBaseMatrix * Z) :=
  let! '(arr, na) := for_each (upto 0 (nrow p)) (mark_na p) (array p, 0) in
  let! arr' := qsort_array perBaseWigJustLabelCmp (nrow p) arr in
  let! mat' := sync_matrix (nrow p) arr' (matrix p) in
  Ok (mkPerBaseMatrix (nrow p) (ncol p) arr' mat', na).

Definition init_cbm_from_pbm (p : perBaseMatrix) (kk : Z)
  : result cluster_bed_matrix :=
  let! '(p', na) := clear_na_rows p in
  Ok (mkCbm p' (ncol p) (nrow p) kk na [] []).

(** *** [k_means] *)

(** The working state of [k_means]: [labels], [cbm->cluster_sizes],
    [cbm->centroids], the temporary centroids [c1] and [error]. *)
Record kstate : Type := mkKstate {
  ks_labels : list Z;
  ks_sizes : list Z;
  ks_centroids : list (list float);
  ks_c1 : list (list float);
  ks_error : float
}.

(** [AllocArray(x, k); for (i = 0; i < k; i++) AllocArray(x[i], m);] *)
Definition alloc_row (mm : Z) (i : nat) (a : list (list float))
  : result (list (list float)) :=
  let! r := AllocArray 0%float mm in
  put a i r.

Definition alloc_rows (kk mm : Z) : result (list (list float)) :=
  let! outer := AllocArray ([] : list float) kk in
  for_each (upto 0 kk) (alloc_row mm) outer.

(** [centroids[i][j] = matrix[h][j]] for [j] from [m-1] down to [0]. *)
Definition copy_cell (mat : list ptr) (h : Z) (i j : nat)
    (c : list (list float)) : result (list (list float)) :=
  if h <? 0 then Fault else
  let! x := cell mem mat (Z.to_nat h) j in
  let! ci := get c i in
  let! ci' := put ci j x in
  put c i ci'.

(** One round of the seeding loop; the state is [(h, centroids)]. *)
Definition seed_step (c : cluster_bed_matrix) (i : nat)
    (st : Z * list (list float)) : result (Z * list (list float)) :=
  let! cs := for_each (downfrom (m c)) (copy_cell (matrix (pbm c)) (fst st) i) (snd st) in
  Ok (fst st + Z.quot (n c - num_na c) (k c), cs).

Definition seed (c : cluster_bed_matrix) (cs : list (list float))
  : result (list (list float)) :=
  let! '(_, cs') := for_each (upto 0 (k c)) (seed_step c) (num_na c, cs) in
  Ok cs'.

(** [distance += pow(matrix[h][j] - centroids[i][j], 2)] *)
Definition dist_step (mat : list ptr) (cs : list (list float)) (h i j : nat)
    (d : float) : result float :=
  let! x := cell mem mat h j in
  let! ci := get cs i in
  let! y := get ci j in
  Ok (d + pow2 (x - y))%float.

Definition distance (c : cluster_bed_matrix) (cs : list (list float)) (h i : nat)
  : result float :=
  for_each (downfrom (m c)) (dist_step (matrix (pbm c)) cs h i) 0%float.

(** The scan of the centroids for row [h]; the state is
    [(labels, min_distance)]. *)
Definition closest_step (c : cluster_bed_matrix) (cs : list (list float))
    (h i : nat) (st : list Z * float) : result (list Z * float) :=
  let! d := distance c cs h i in
  if (d <? snd st)%float then
    let! ls := put (fst st) h (Z.of_nat i) in
    Ok (ls, d)
  else Ok st.

Definition closest (c : cluster_bed_matrix) (cs : list (list float)) (h : nat)
    (ls : list Z) : result (list Z * float) :=
  for_each (upto 0 (k c)) (closest_step c cs h) (ls, DBL_MAX).

(** [c1[l][j] += matrix[h][j]] *)
Definition accum_cell (mat : list ptr) (h : nat) (l : Z) (j : nat)
    (c1 : list (list float)) : result (list (list float)) :=
  let! x := cell mem mat h j in
  let! r := zget c1 l in
  let! y := get r j in
  let! r' := put r j (y + x)%float in
  zput c1 l r'.

(** The body of the loop over the active rows. *)
Definition assign_row (c : cluster_bed_matrix) (h : nat) (s : kstate)
  : result kstate :=
  let! '(ls, min_distance) := closest c (ks_centroids s) h (ks_labels s) in
  let! l := get ls h in
  let! c1 := for_each (downfrom (m c)) (accum_cell (matrix (pbm c)) h l) (ks_c1 s) in
  let! sz := zget (ks_sizes s) l in
  let! sizes := zput (ks_sizes s) l (sz + 1) in
  Ok (mkKstate ls sizes (ks_centroids s) c1 (ks_error s + min_distance)%float).

(** [cluster_sizes[i] = 0; for (j < m) c1[i][j] = 0;] *)
Definition clear_cell (i j : nat) (c1 : list (list float))
  : result (list (list float)) :=
  let! r := get c1 i in
  let! r' := put r j 0%float in
  put c1 i r'.

Definition clear_step (c : cluster_bed_matrix) (i : nat)
    (st : list Z * list (list float)) : result (list Z * list (list float)) :=
  let! sizes := put (fst st) i 0 in
  let! c1 := for_each (upto 0 (m c)) (clear_cell i) (snd st) in
  Ok (sizes, c1).

(** [centroids[i][j] = cluster_sizes[i] ? c1[i][j] / cluster_sizes[i] : c1[i][j]] *)
Definition update_cell (sizes : list Z) (c1 : list (list float)) (i j : nat)
    (cs : list (list float)) : result (list (list float)) :=
  let! sz := get sizes i in
  let! r := get c1 i in
  let! x := get r j in
  let! ci := get cs i in
  let! ci' := put ci j (if sz =? 0 then x else (x / double_of_int sz)%float) in
  put cs i ci'.

Definition update_step (c : cluster_bed_matrix) (sizes : list Z)
    (c1 : list (list float)) (i : nat) (cs : list (list float))
  : result (list (list float)) :=
  for_each (upto 0 (m c)) (update_cell sizes c1 i) cs.

(** The body of the do-while loop, after [old_error = error; error = 0]. *)
Definition iteration (c : cluster_bed_matrix) (s : kstate) : result kstate :=
  let! '(sizes, c1) := for_each (upto 0 (k c)) (clear_step c) (ks_sizes s, ks_c1 s) in
  let! s1 := for_each (upto (num_na c) (n c)) (assign_row c)
          (mkKstate (ks_labels s) sizes (ks_centroids s) c1 0%float) in
  let! cs := for_each (upto 0 (k c)) (update_step c (ks_sizes s1) (ks_c1 s1))
          (ks_centroids s1) in
  Ok (mkKstate (ks_labels s1) (ks_sizes s1) cs (ks_c1 s1) (ks_error s1)).

(** The do-while loop.  [trace] collects the errors of the iterations run
    so far, the latest first. *)
Fixpoint main_loop (fuel : nat) (c : cluster_bed_matrix) (t : float)
    (s : kstate) (trace : list float) : result (kstate * list float) :=
  match fuel with
  | O => Timeout
  | S fuel' =>
      let old_error := ks_error s in
      let! s' := iteration c s in
      if (t <? fabs (ks_error s' - old_error))%float
      then main_loop fuel' c t s' (ks_error s' :: trace)
      else Ok (s', ks_error s' :: trace)
  end.

(** The state at the head of the do-while loop: arrays allocated,
    centroids seeded, [error = DBL_MAX]. *)
Definition k_means_init (c : cluster_bed_matrix) : result kstate :=
  let! labels := AllocArray 0 (n c) in
  let! sizes := AllocArray 0 (k c) in
  let! cs0 := alloc_rows (k c) (m c) in
  let! c1 := alloc_rows (k c) (m c) in
  let! cs := seed c cs0 in
  Ok (mkKstate labels sizes cs c1 DBL_MAX).

(** [k_means]: the updated state, the labels and the errors of the
    iterations (latest first). *)
Definition k_means (fuel : nat) (c : cluster_bed_matrix) (t : float)
  : result (cluster_bed_matrix * list Z * list float) :=
  let! s0 := k_means_init c in
  let! '(s, trace) := main_loop fuel c t s0 [] in
  Ok (mkCbm (pbm c) (m c) (n c) (k c) (num_na c) (ks_centroids s) (ks_sizes s),
      ks_labels s, trace).

(** [for (i = num_na; i < nrow; i++) array[i]->label = labels[i];] *)
Definition relabel_step (labels : list Z) (i : nat) (arr : list perBaseWig)
  : result (list perBaseWig) :=
  let! l := get labels i in
  store_label arr i l.

Definition do_kmeans (fuel : nat) (c : cluster_bed_matrix) (t : float)
  : result cluster_bed_matrix :=
  let! '(c1, labels, _) := k_means fuel c t in
  let! arr := for_each (upto (num_na c1) (nrow (pbm c1))) (relabel_step labels)
           (array (pbm c1)) in
  let! arr' := qsort_array perBaseWigLabelCmp (nrow (pbm c1)) arr in
  let! mat' := sync_matrix (nrow (pbm c1)) arr' (matrix (pbm c1)) in
  Ok (mkCbm (mkPerBaseMatrix (nrow (pbm c1)) (ncol (pbm c1)) arr' mat')
        (m c1) (n c1) (k c1) (num_na c1) (centroids c1) (cluster_sizes c1)).

End Engine.

(** ** Destruction

    [free_cbm] is about allocation, which the engine above leaves out: here
    the heap is a finite map from addresses to blocks, and only the
    pointer fields of the clustering state are kept. *)

Definition addr : Type := nat.

Definition NULL : addr := 0%nat.

Inductive block : Type :=
| Cbm_block (f_pbm f_cluster_sizes f_centroids : addr)
| Pbm_block
| Array_block.

Definition heap : Type := gmap addr block.

(** What a pointer refers to; nothing lives at [NULL]. *)
Definition deref (h : heap) (p : addr) : option block :=
  if decide (p = NULL) then None else h !! p.

(** [free(p)] for a live [p]; anything else is undefined. *)
Definition free (h : heap) (p : addr) : result heap :=
  match deref h p with
  | Some _ => Ok (delete p h)
  | None => Fault
  end.

(** Modelled from the spec: [freeMem] is declared in [common.h], outside
    the sources; it releases a block and, as in the library it comes
    from, ignores the null pointer. *)
Definition freeMem (h : heap) (p : addr) : result heap :=
  if decide (p = NULL) then Ok h else free h p.

(** Modelled from the spec: [free_perBaseMatrix] is declared in [bigs.h],
    outside the sources.  It is handed the address of the field [pbm] of
    the state at [cbm], releases the matrix found there, with its buffer
    and descriptors, and clears the field. *)
Definition free_perBaseMatrix (h : heap) (cbm : addr) : result heap :=
  match deref h cbm with
  | Some (Cbm_block p sizes cents) =>
      let! h' := freeMem h p in
      Ok (<[cbm := Cbm_block NULL sizes cents]> h')
  | _ => Fault
  end.

(** [cbm->cluster_sizes] and [cbm->centroids] *)
Definition load_cluster_sizes (h : heap) (cbm : addr) : result addr :=
  match deref h cbm with
  | Some (Cbm_block _ sizes _) => Ok sizes
  | _ => Fault
  end.

Definition load_centroids (h : heap) (cbm : addr) : result addr :=
  match deref h cbm with
  | Some (Cbm_block _ _ cents) => Ok cents
  | _ => Fault
  end.

(** [free_cbm(pCbm)], where [*pCbm] is [handle]: the heap it leaves and
    the value left in [*pCbm].  The last statement, [freez(&cbm)], frees
    the state and clears the local copy [cbm] of the handle. *)
Definition free_cbm (h : heap) (handle : addr) : result (heap * addr) :=
  let cbm := handle in
  let! h1 := free_perBaseMatrix h cbm in
  let! sizes := load_cluster_sizes h1 cbm in
  let! h2 := freeMem h1 sizes in
  let! cents := load_centroids h2 cbm in
  let! h3 := freeMem h2 cents in
  let! h4 := freeMem h3 cbm in
  Ok (h4, handle).

(** ** annoAssembly

    [annoAssemblyClose] of [src/unnamed/part_000], over a heap that keeps
    the two pointer fields of an [annoAssembly]. *)

Inductive anno_block : Type :=
| Anno_block (f_name f_tbf : addr)
| Other_block.

Definition anno_heap : Type := gmap addr anno_block.

Section Anno.

(** [twoBitClose] is declared in [twoBit.h], outside the sources.  It is
    handed the address of the field [tbf] of the assembly at [aa]; what it
    does to the heap is left open. *)
Variable twoBitClose : anno_heap -> addr -> result anno_heap.

(** Modelled from the spec: [freeMem] of [common.h], as above, on this
    heap. *)
Definition anno_freeMem (h : anno_heap) (p : addr) : result anno_heap :=
  if decide (p = NULL) then Ok h
  else match h !! p with
       | Some _ => Ok (delete p h)
       | None => Fault
       end.

(** [aa->name] *)
Definition load_name (h : anno_heap) (aa : addr) : result addr :=
  if decide (aa = NULL) then Fault
  else match h !! aa with
       | Some (Anno_block nm _) => Ok nm
       | _ => Fault
       end.

(** [annoAssemblyClose(pAa)], where [*pAa] is [handle]: the heap it
    leaves and the value left in [*pAa].  The last statement,
    [freez(pAa)], frees the assembly and stores the null pointer in the
    caller's handle. *)
Definition annoAssemblyClose (h : anno_heap) (handle : addr)
  : result (anno_heap * addr) :=
  if decide (handle = NULL) then Ok (h, handle)
  else
    let aa := handle in
    let! nm := load_name h aa in
    let! h1 := anno_freeMem h nm in
    let! h2 := twoBitClose h1 aa in
    let! h3 := anno_freeMem h2 handle in
    Ok (h3, NULL).

End Anno.

(** ** Inputs and library contracts *)

(** The row a pointer refers to (empty when it dangles). *)
Definition row_of (mem : rowstore) (p : ptr) : list float :=
  default [] (mem !! p).

(** A row is excluded when one of its [nc] values is not a number. *)
Definition nan_row (mem : rowstore) (nc : Z) (p : ptr) : bool :=
  existsb isnan (take (Z.to_nat nc) (row_of mem p)).

(** What [clear_na_rows] does to one descriptor. *)
Definition mark (mem : rowstore) (nc : Z) (w : perBaseWig) : perBaseWig :=
  if nan_row mem nc (data w) then set_label (-1) w else w.

(** A matrix as the loader hands it over: [nrow] descriptors and as many
    row pointers, in step with each other; every descriptor points at a
    buffer of [ncol] values; the labels are still unset (the descriptors
    come zero-filled from the allocator; any value from [0] up to, and not
    including, [INT_MAX] will do). *)
Record wf_pbm (mem : rowstore) (p : perBaseMatrix) : Prop := mkWfPbm {
  wf_nrow : nrow p = Z.of_nat (length (array p));
  wf_nrow_int : nrow p <= INT_MAX;
  wf_ncol : 0 <= ncol p;
  wf_sync : matrix p = map data (array p);
  wf_rows : forall w, w ∈ array p ->
            exists r, mem !! data w = Some r /\ Z.of_nat (length r) = ncol p;
  wf_fresh : forall w, w ∈ array p -> 0 <= label w < INT_MAX
}.

(** A decision procedure for [wf_pbm]. *)
Definition check_pbm (mem : rowstore) (p : perBaseMatrix) : bool :=
  (nrow p =? Z.of_nat (length (array p))) &&
  (nrow p <=? INT_MAX) &&
  (0 <=? ncol p) &&
  bool_decide (matrix p = map data (array p)) &&
  forallb (fun w => match mem !! data w with
                    | Some r => Z.of_nat (length r) =? ncol p
                    | None => false
                    end) (array p) &&
  forallb (fun w => (0 <=? label w) && (label w <? INT_MAX)) (array p).

(** The clustering state between construction and the run: the excluded
    rows, labelled [-1], hold the first [num_na] places. *)
Record wf_cbm (mem : rowstore) (c : cluster_bed_matrix) : Prop := mkWfCbm {
  wc_n : n c = nrow (pbm c);
  wc_m : m c = ncol (pbm c);
  wc_len : n c = Z.of_nat (length (array (pbm c)));
  wc_int : n c <= INT_MAX;
  wc_m_pos : 0 <= m c;
  wc_na : 0 <= num_na c <= n c;
  wc_sync : matrix (pbm c) = map data (array (pbm c));
  wc_rows : forall w, w ∈ array (pbm c) ->
            exists r, mem !! data w = Some r /\ Z.of_nat (length r) = m c;
  wc_excluded : forall (i : nat) w, array (pbm c) !! i = Some w ->
            Z.of_nat i < num_na c ->
            label w = -1 /\ nan_row mem (m c) (data w) = true;
  wc_active : forall (i : nat) w, array (pbm c) !! i = Some w ->
            num_na c <= Z.of_nat i ->
            0 <= label w < INT_MAX /\ nan_row mem (m c) (data w) = false
}.

(** A comparator that orders the elements of [l] as an integer key does. *)
Definition cmp_by_key (cmp : perBaseWig -> perBaseWig -> Z)
    (key : perBaseWig -> Z) (l : list perBaseWig) : Prop :=
  forall a b, a ∈ l -> b ∈ l -> Z.sgn (cmp a b) = Z.sgn (key a - key b).

(** The contract of the C library's [qsort]: the array is rearranged, and
    comes out in ascending order when the comparator is consistent.  The
    order of elements that compare equal is left open. *)
Definition qsort_spec
    (qs : (perBaseWig -> perBaseWig -> Z) -> list perBaseWig -> list perBaseWig)
  : Prop :=
  forall cmp l,
    qs cmp l ≡ₚ l /\
    forall key, cmp_by_key cmp key l ->
                StronglySorted (fun a b => key a <= key b) (qs cmp l).

(** Two sorts that meet the contract: insertion sorts that put the new
    element before ([sort_early]) or after ([sort_late]) the elements it
    compares equal to.  Elements are inserted from the right end of the
    array, so [sort_early] keeps equal elements in their order and
    [sort_late] reverses it. *)
Fixpoint insert_by (before : Z -> bool) (cmp : perBaseWig -> perBaseWig -> Z)
    (x : perBaseWig) (l : list perBaseWig) : list perBaseWig :=
  match l with
  | [] => [x]
  | y :: l' => if before (cmp x y) then x :: l else y :: insert_by before cmp x l'
  end.

Definition sort_by (before : Z -> bool) (cmp : perBaseWig -> perBaseWig -> Z)
    (l : list perBaseWig) : list perBaseWig :=
  foldr (insert_by before cmp) [] l.

Definition sort_early := sort_by (fun c => c <=? 0).
Definition sort_late := sort_by (fun c => c <? 0).

(** Rows that end with equal labels stand in [after] as they stood in
    [before]; a row is known by its buffer. *)
Definition keeps_order (before after : list perBaseWig) : Prop :=
  forall (i j i' j' : nat) a b a' b',
    (i < j)%nat -> before !! i = Some a -> before !! j = Some b ->
    after !! i' = Some a' -> after !! j' = Some b' ->
    data a' = data a -> data b' = data b -> label a' = label b' ->
    (i' < j')%nat.

(** ** The working state of [k_means] *)

(** [kk] rows of [mm] values each. *)
Definition rect (kk mm : nat) (a : list (list float)) : Prop :=
  length a = kk /\ Forall (fun r => length r = mm) a.

Record kshape (c : cluster_bed_matrix) (s : kstate) : Prop := mkKshape {
  sh_labels : length (ks_labels s) = Z.to_nat (n c);
  sh_sizes : length (ks_sizes s) = Z.to_nat (k c);
  sh_centroids : rect (Z.to_nat (k c)) (Z.to_nat (m c)) (ks_centroids s);
  sh_c1 : rect (Z.to_nat (k c)) (Z.to_nat (m c)) (ks_c1 s)
}.

Definition sum_sizes (l : list Z) : Z := foldr Z.add 0 l.

(** The states reached from the initial one by whole iterations; every
    state at the head of the do-while loop of [k_means] is one. *)
Inductive loop_head (mem : rowstore) (c : cluster_bed_matrix) : kstate -> Prop :=
| loop_head_init s : k_means_init mem c = Ok s -> loop_head mem c s
| loop_head_next s s' :
    loop_head mem c s -> iteration mem c s = Ok s' -> loop_head mem c s'.

(** [errs] are the errors of the iterations of one run, the first
    iteration first, and [prev] the error before them: the loop test
    [fabs(error - old_error) > t] held after every iteration but the last,
    and failed after the last. *)
Fixpoint run_trace (t prev : float) (errs : list float) : Prop :=
  match errs with
  | [] => False
  | e :: rest =>
      match rest with
      | [] => (t <? fabs (e - prev))%float = false
      | _ :: _ => (t <? fabs (e - prev))%float = true /\ run_trace t e rest
      end
  end.

(** ** Distances and the closest centroid *)

(** [ds] are the squared distances of row [h] to the centroids [cs]. *)
Definition distances (mem : rowstore) (c : cluster_bed_matrix)
    (cs : list (list float)) (h : nat) (ds : list float) : Prop :=
  Forall2 (fun i d => distance mem c cs h i = Ok d) (upto 0 (k c)) ds.

(** The running minimum the scan of the centroids ends with. *)
Definition capped_min (ds : list float) : float :=
  fold_left (fun md d => if (d <? md)%float then d else md) ds DBL_MAX.

(** [md] is what row [h] adds to the error: the least of [DBL_MAX] and its
    distances to the centroids [cs]. *)
Definition row_min (mem : rowstore) (c : cluster_bed_matrix)
    (cs : list (list float)) (h : nat) (md : float) : Prop :=
  exists ds, distances mem c cs h ds /\ md = capped_min ds.

(** Centroid [i] is the first one at the least distance, and that distance
    is below [DBL_MAX]: no distance is smaller, and none before [i] is as
    small. *)
Definition nearest (ds : list float) (i : nat) : Prop :=
  exists d, ds !! i = Some d /\ (d <? DBL_MAX)%float = true /\
    (forall (j : nat) d', ds !! j = Some d' -> (d' <? d)%float = false) /\
    (forall (j : nat) d', (j < i)%nat -> ds !! j = Some d' -> (d' <=? d)%float = false).

(** No distance is below [DBL_MAX]: each one is [DBL_MAX], infinite or not
    a number. *)
Definition out_of_reach (ds : list float) : Prop :=
  forall d, d ∈ ds -> (d <? DBL_MAX)%float = false.

(** Centroid [i] is the lowest-numbered one at the least distance, with
    no regard to [DBL_MAX]: no distance is smaller, and every distance
    before [i] is larger. *)
Definition first_closest (ds : list float) (i : nat) : Prop :=
  exists d, ds !! i = Some d /\
    (forall (j : nat) d', ds !! j = Some d' -> (d' <? d)%float = false) /\
    (forall (j : nat) d', (j < i)%nat -> ds !! j = Some d' -> (d <? d')%float = true).

(** The label the scan leaves for row [h], which had label [old]. *)
Definition assigned (mem : rowstore) (c : cluster_bed_matrix)
    (cs : list (list float)) (h : nat) (old : option Z) (l : Z) : Prop :=
  exists ds, distances mem c cs h ds /\
    ((exists i, nearest ds i /\ l = Z.of_nat i) \/
     (out_of_reach ds /\ old = Some l)).

(** ** Seeding, as the spec words it *)

(** The index of the row that seeds cluster [i]: strides of
    [floor((n - num_na) / k)] from the first active row. *)
Definition seed_index (c : cluster_bed_matrix) (i : nat) : Z :=
  num_na c + Z.of_nat i * ((n c - num_na c) / k c).

(** The values of that row. *)
Definition seed_row (mem : rowstore) (c : cluster_bed_matrix) (i : nat)
  : list float :=
  match matrix (pbm c) !! Z.to_nat (seed_index c i) with
  | Some p => row_of mem p
  | None => []
  end.

(** ** The order of the doubles

    Every double that is a number has a rank in [Z * Z * Z], ordered
    lexicographically: the class (infinities, signed finite numbers, zero),
    then the exponent, then the mantissa. *)

Definition sf_rank (f : spec_float) : option (Z * Z * Z) :=
  match f with
  | S754_nan => None
  | S754_infinity s => Some (if s then -2 else 2, 0, 0)
  | S754_zero _ => Some (0, 0, 0)
  | S754_finite s mant e =>
      Some (if s then (-1, - e, Z.neg mant) else (1, e, Z.pos mant))
  end.

Definition rank_cmp (a b : Z * Z * Z) : comparison :=
  match a, b with
  | (a1, a2, a3), (b1, b2, b3) =>
      match a1 ?= b1 with
      | Eq => match a2 ?= b2 with
              | Eq => a3 ?= b3
              | o => o
              end
      | o => o
      end
  end.

Definition rank_of (x : float) : option (Z * Z * Z) := sf_rank (Prim2SF x).

(** ** Sample inputs *)

Definition unwrap {A : Type} (d : A) (r : result A) : A :=
  match r with
  | Ok a => a
  | _ => d
  end.

Definition no_cbm : cluster_bed_matrix :=
  mkCbm (mkPerBaseMatrix 0 0 [] []) 0 0 0 0 [] [].

Definition no_kstate : kstate := mkKstate [] [] [] [] 0%float.

(** Descriptors as the loader leaves them: label unset, row [i] at
    buffer [i]. *)
Definition fresh_pbm (nr nc : nat) : perBaseMatrix :=
  mkPerBaseMatrix (Z.of_nat nr) (Z.of_nat nc)
    (map (mkPerBaseWig 0) (seq 0 nr)) (seq 0 nr).

(** Two groups of three rows and, in between, a row with an undefined
    value. *)
Definition ex_mem : rowstore :=
  [[0; 0]; [0; 1]; [1; 0]; [PrimFloat.nan; 5]; [10; 10]; [10; 11]; [11; 10]]%float.

Definition ex_pbm : perBaseMatrix := fresh_pbm 7 2.

Definition ex_t : float := 0x1p-20%float.

Definition ex_cbm : cluster_bed_matrix :=
  Eval vm_compute in unwrap no_cbm (init_cbm_from_pbm sort_early ex_mem ex_pbm 2).

Definition ex_final : cluster_bed_matrix :=
  Eval vm_compute in unwrap no_cbm (do_kmeans sort_early ex_mem 10 ex_cbm ex_t).

(** The whole run of [k_means] on the sample matrix. *)
Definition ex_km : cluster_bed_matrix * list Z * list float :=
  Eval vm_compute in unwrap (no_cbm, [], []) (k_means ex_mem 10 ex_cbm ex_t).

(** The first two iterations on the sample matrix. *)
Definition ex_s0 : kstate :=
  Eval vm_compute in unwrap no_kstate (k_means_init ex_mem ex_cbm).

Definition ex_s1 : kstate :=
  Eval vm_compute in unwrap no_kstate (iteration ex_mem ex_cbm ex_s0).

(** The same run with the other sort. *)
Definition ex_cbm_late : cluster_bed_matrix :=
  Eval vm_compute in unwrap no_cbm (init_cbm_from_pbm sort_late ex_mem ex_pbm 2).

Definition ex_final_late : cluster_bed_matrix :=
  Eval vm_compute in unwrap no_cbm (do_kmeans sort_late ex_mem 10 ex_cbm_late ex_t).

(** Rows whose squared distances overflow: one far row that seeds
    cluster 0; the row [0] that seeds cluster 1, with three rows at
    [1.5 * 2^511] on one side and one at [-1.5 * 2^511] on the other. *)
Definition ov_mem : rowstore :=
  [[0x1p+700]; [0x1.8p+511]; [0x1.8p+511]; [0]; [0x1.8p+511]; [-0x1.8p+511]]%float.

Definition ov_cbm : cluster_bed_matrix :=
  Eval vm_compute in
    unwrap no_cbm (init_cbm_from_pbm sort_early ov_mem (fresh_pbm 6 1) 2).

Definition ov_s0 : kstate :=
  Eval vm_compute in unwrap no_kstate (k_means_init ov_mem ov_cbm).

Definition ov_s1 : kstate :=
  Eval vm_compute in unwrap no_kstate (iteration ov_mem ov_cbm ov_s0).

Definition ov_s2 : kstate :=
  Eval vm_compute in unwrap no_kstate (iteration ov_mem ov_cbm ov_s1).

(** One cluster, and two rows too far from its seed to measure. *)
Definition big_mem : rowstore := [[0]; [0x1p+600]; [0x1p+600]]%float.

Definition big_cbm : cluster_bed_matrix :=
  Eval vm_compute in
    unwrap no_cbm (init_cbm_from_pbm sort_early big_mem (fresh_pbm 3 1) 1).

(** The whole run of [k_means] on them. *)
Definition big_km : cluster_bed_matrix * list Z * list float :=
  Eval vm_compute in unwrap (no_cbm, [], []) (k_means big_mem 10 big_cbm ex_t).

(** One cluster, and one row too far from its seed to measure. *)
Definition cap_mem : rowstore := [[0]; [0x1p+600]]%float.

Definition cap_cbm : cluster_bed_matrix :=
  Eval vm_compute in
    unwrap no_cbm (init_cbm_from_pbm sort_early cap_mem (fresh_pbm 2 1) 1).

Definition cap_s0 : kstate :=
  Eval vm_compute in unwrap no_kstate (k_means_init cap_mem cap_cbm).

Definition cap_s1 : kstate :=
  Eval vm_compute in unwrap no_kstate (iteration cap_mem cap_cbm cap_s0).

(** Two equal rows and two clusters: both seeds are the same point. *)
Definition two_mem : rowstore := [[5]; [5]]%float.

Definition two_cbm : cluster_bed_matrix :=
  Eval vm_compute in
    unwrap no_cbm (init_cbm_from_pbm sort_early two_mem (fresh_pbm 2 1) 2).

Definition two_s0 : kstate :=
  Eval vm_compute in unwrap no_kstate (k_means_init two_mem two_cbm).

Definition two_s1 : kstate :=
  Eval vm_compute in unwrap no_kstate (iteration two_mem two_cbm two_s0).

(** A heap with one clustering state at address 1, its matrix at 2, its
    counters at 3 and its centroids at 4. *)
Definition ex_heap : heap :=
  <[1%nat := Cbm_block 2%nat 3%nat 4%nat]> (<[2%nat := Pbm_block]>
    (<[3%nat := Array_block]> (<[4%nat := Array_block]> ∅))).

(** ** Clusters and their means *)

(** The active rows that [labels] puts in cluster [i], in row order. *)
Definition members (c : cluster_bed_matrix) (labels : list Z) (i : nat)
  : list nat :=
  filter (fun h => labels !! h = Some (Z.of_nat i)) (upto (num_na c) (n c)).

(** The [m] values of row [h] of the matrix. *)
Definition matrix_row (mem : rowstore) (c : cluster_bed_matrix) (h : nat)
  : list float :=
  match matrix (pbm c) !! h with
  | Some p => take (Z.to_nat (m c)) (row_of mem p)
  | None => []
  end.

(** The sum of vectors, coordinate by coordinate, added one after the
    other onto [start]. *)
Definition vector_sum (start : list float) (rows : list (list float))
  : list float :=
  fold_left (zip_with PrimFloat.add) rows start.

(** What the update step makes of the sum [x] of a coordinate in a
    cluster of [sz] rows. *)
Definition mean_of (sz : Z) (x : float) : float :=
  if sz =? 0 then x else (x / double_of_int sz)%float.

(** ** What [free_cbm] releases *)

(** The addresses [free_cbm] releases for a state at [handle] with the
    fields [p], [sz] and [ct]: the state, and the fields that are not
    null. *)
Definition released (handle p sz ct a : addr) : Prop :=
  a = handle \/ (a <> NULL /\ (a = p \/ a = sz \/ a = ct)).

#[global] Instance released_dec (handle p sz ct a : addr) :
  Decision (released handle p sz ct a).
Proof. unfold released. apply _. Defined.

(** A field that [free_cbm] can pass to [freeMem]: null, or a live block
    apart from the blocks in [others]. *)
Definition freeable (h : heap) (others : list addr) (p : addr) : Prop :=
  p = NULL \/ ((p ∉ others) /\ is_Some (h !! p)).

(** ** A sample assembly *)

(** A [twoBitClose] that releases the file at [aa->tbf] and clears the
    field. *)
Definition ex_twoBitClose (h : anno_heap) (aa : addr) : result anno_heap :=
  match h !! aa with
  | Some (Anno_block nm tb) =>
      let! h' := anno_freeMem h tb in
      Ok (<[aa := Anno_block nm NULL]> h')
  | _ => Fault
  end.

(** An assembly at address 1, its name at 2 and its open file at 3. *)
Definition ex_anno_heap : anno_heap :=
  <[1%nat := Anno_block 2%nat 3%nat]>
    (<[2%nat := Other_block]> (<[3%nat := Other_block]> ∅)).

(** ** More clusters than rows *)

(** Two rows and five clusters. *)
Definition many_mem : rowstore := [[1]; [9]]%float.

Definition many_cbm : cluster_bed_matrix :=
  Eval vm_compute in
    unwrap no_cbm (init_cbm_from_pbm sort_early many_mem (fresh_pbm 2 1) 5).

Definition many_s0 : kstate :=
  Eval vm_compute in unwrap no_kstate (k_means_init many_mem many_cbm).

Definition many_s1 : kstate :=
  Eval vm_compute in unwrap no_kstate (iteration many_mem many_cbm many_s0).

(** ** A state with labels out of order *)




(** * Properties *)

(** ** The outcome monad and the loops *)

Lemma bind_Ok {A B : Type} (c : result A) (f : A -> result B) (b : B) :
  bind c f = Ok b -> exists a, c = Ok a /\ f a = Ok b.
Proof. destruct c; simpl; intros H; try discriminate; eauto. Qed.

Lemma get_Ok {A : Type} (l : list A) (i : nat) (a : A) :
  get l i = Ok a <-> l !! i = Some a.
Proof.
  unfold get. destruct (l !! i); split; intros H; try discriminate; congruence.
Qed.

Lemma put_Ok {A : Type} (l l' : list A) (i : nat) (a : A) :
  put l i a = Ok l' <-> (i < length l)%nat /\ l' = <[i := a]> l.
Proof.
  unfold put. case_bool_decide; split; intros H'; try discriminate.
  - split; [assumption | congruence].
  - destruct H' as [_ ->]. reflexivity.
  - destruct H' as [? _]. lia.
Qed.

Lemma zget_Ok {A : Type} (l : list A) (i : Z) (a : A) :
  zget l i = Ok a <-> 0 <= i /\ l !! Z.to_nat i = Some a.
Proof.
  unfold zget. destruct (Z.ltb_spec i 0); rewrite ?get_Ok; split;
    intros H'; try discriminate; try tauto; try lia.
Qed.

Lemma zput_Ok {A : Type} (l l' : list A) (i : Z) (a : A) :
  zput l i a = Ok l' <->
  0 <= i /\ (Z.to_nat i < length l)%nat /\ l' = <[Z.to_nat i := a]> l.
Proof.
  unfold zput. destruct (Z.ltb_spec i 0); rewrite ?put_Ok; split;
    intros H'; try discriminate; try tauto; try lia.
Qed.

Lemma AllocArray_Ok {A : Type} (z : A) (count : Z) (l : list A) :
  AllocArray z count = Ok l <-> 0 <= count /\ l = replicate (Z.to_nat count) z.
Proof.
  unfold AllocArray. destruct (Z.ltb_spec count 0); split; intros H';
    try discriminate; try (destruct H'; lia).
  - split; [lia | congruence].
  - destruct H' as [_ ->]. reflexivity.
Qed.

(** Inversion of a successful sequence: [c] gave [x], by [E], and the
    rest of the run, still [H], went on from [x]. *)
Tactic Notation "bind_inv" hyp(H) "as"
    simple_intropattern(x) simple_intropattern(E) :=
  apply bind_Ok in H; destruct H as [x [E H]].

(** Loop invariants: [P pre s] holds when the counters [pre] have been
    served, in that order, and left the state [s]. *)
Lemma for_each_ind {S : Type} (P : list nat -> S -> Prop)
    (body : nat -> S -> result S) (idx : list nat) (s0 : S) :
  P [] s0 ->
  (forall pre i suf s s',
      idx = pre ++ i :: suf -> P pre s -> body i s = Ok s' -> P (pre ++ [i]) s') ->
  forall s', for_each idx body s0 = Ok s' -> P idx s'.
Proof.
  intros H0 Hstep.
  assert (G : forall suf pre s s', idx = pre ++ suf -> P pre s ->
            for_each suf body s = Ok s' -> P idx s').
  { induction suf as [|i suf IH]; intros pre s s' Hidx HP Hrun; simpl in Hrun.
    - injection Hrun as <-. rewrite Hidx, app_nil_r. exact HP.
    - bind_inv Hrun as s1 Hb.
      apply (IH (pre ++ [i]) s1 s'); [ | | exact Hrun].
      + rewrite <- app_assoc. exact Hidx.
      + eapply Hstep; eauto. }
  intros s'. apply (G idx [] s0 s'); auto.
Qed.

(** A state invariant that does not depend on the counter. *)
Lemma for_each_inv {S : Type} (P : S -> Prop)
    (body : nat -> S -> result S) (idx : list nat) (s0 s' : S) :
  P s0 ->
  (forall i s s1, i ∈ idx -> P s -> body i s = Ok s1 -> P s1) ->
  for_each idx body s0 = Ok s' -> P s'.
Proof.
  intros H0 Hstep Hrun.
  apply (for_each_ind (fun _ s => P s) body idx s0); auto.
  intros pre i suf s s1 Hidx HP Hb. apply (Hstep i s s1); auto.
  rewrite Hidx. apply elem_of_app. right. left.
Qed.

(** A loop whose body succeeds under an invariant succeeds. *)
Lemma for_each_total {S : Type} (P : list nat -> S -> Prop)
    (body : nat -> S -> result S) (idx : list nat) (s0 : S) :
  P [] s0 ->
  (forall pre i suf s,
      idx = pre ++ i :: suf -> P pre s ->
      exists s', body i s = Ok s' /\ P (pre ++ [i]) s') ->
  exists s', for_each idx body s0 = Ok s' /\ P idx s'.
Proof.
  intros H0 Hstep.
  assert (G : forall suf pre s, idx = pre ++ suf -> P pre s ->
            exists s', for_each suf body s = Ok s' /\ P idx s').
  { induction suf as [|i suf IH]; intros pre s Hidx HP; simpl.
    - exists s. rewrite Hidx, app_nil_r. auto.
    - destruct (Hstep pre i suf s Hidx HP) as (s1 & Hb & HP1).
      rewrite Hb. simpl. apply (IH (pre ++ [i]) s1); auto.
      rewrite <- app_assoc. exact Hidx. }
  apply (G idx [] s0); auto.
Qed.

Lemma upto_0 (hi : Z) : upto 0 hi = seq 0 (Z.to_nat hi).
Proof. unfold upto. rewrite Z.sub_0_r. reflexivity. Qed.

Lemma seq_split_at (lo len : nat) (pre suf : list nat) (i : nat) :
  seq lo len = pre ++ i :: suf ->
  pre = seq lo (length pre) /\ i = (lo + length pre)%nat /\
  (length pre < len)%nat /\ suf = seq (S i) (len - S (length pre)).
Proof.
  revert lo len. induction pre as [|x pre IH]; intros lo len H.
  - destruct len as [|len]; simpl in H; [discriminate|].
    injection H as <- <-. simpl. repeat split; try lia.
    + f_equal. lia.
  - destruct len as [|len]; simpl in H; [discriminate|].
    injection H as <- H. apply IH in H. destruct H as (H1 & H2 & H3 & H4).
    simpl. repeat split; try lia.
    + f_equal. exact H1.
    + rewrite H4. reflexivity.
Qed.

(** ** Sorting *)

Lemma insert_by_perm (before : Z -> bool) cmp x l :
  insert_by before cmp x l ≡ₚ x :: l.
Proof.
  induction l as [|y l IH]; simpl; [reflexivity|].
  destruct (before (cmp x y)); [reflexivity|].
  rewrite IH. apply Permutation_swap.
Qed.

Lemma sort_by_perm (before : Z -> bool) cmp l : sort_by before cmp l ≡ₚ l.
Proof.
  induction l as [|x l IH]; simpl; [reflexivity|].
  unfold sort_by in *. simpl. rewrite insert_by_perm, IH. reflexivity.
Qed.

Lemma insert_by_sorted (before : Z -> bool) cmp (key : perBaseWig -> Z) x l :
  (forall c, before c = true -> c <= 0) ->
  (forall c, before c = false -> 0 <= c) ->
  (forall y, y ∈ l -> Z.sgn (cmp x y) = Z.sgn (key x - key y)) ->
  StronglySorted (fun a b => key a <= key b) l ->
  StronglySorted (fun a b => key a <= key b) (insert_by before cmp x l).
Proof.
  intros Hb1 Hb2 Hc Hs. induction Hs as [|y l Hs IH Hall]; simpl.
  - repeat constructor.
  - assert (Hy : Z.sgn (cmp x y) = Z.sgn (key x - key y)) by (apply Hc; left).
    destruct (before (cmp x y)) eqn:E.
    + apply Hb1 in E. assert (key x <= key y) by lia.
      constructor; [constructor; assumption|].
      constructor; [assumption|].
      eapply Forall_impl; [exact Hall|]. simpl. intros; lia.
    + apply Hb2 in E. assert (key y <= key x) by lia.
      constructor.
      * apply IH. intros z Hz. apply Hc. right. exact Hz.
      * rewrite insert_by_perm. constructor; assumption.
Qed.

Lemma sort_by_spec (before : Z -> bool) :
  (forall c, before c = true -> c <= 0) ->
  (forall c, before c = false -> 0 <= c) ->
  qsort_spec (sort_by before).
Proof.
  intros Hb1 Hb2 cmp l. split; [apply sort_by_perm|].
  intros key Hk. induction l as [|x l IH]; [constructor|].
  unfold sort_by in *. simpl.
  apply insert_by_sorted; auto.
  - intros y Hy. apply Hk; [left|right].
    fold (sort_by before cmp l) in Hy. rewrite sort_by_perm in Hy. exact Hy.
  - apply IH. intros a b Ha Hb. apply Hk; right; assumption.
Qed.

Lemma sort_early_spec : qsort_spec sort_early.
Proof. apply sort_by_spec; intros c H; lia. Qed.

Lemma sort_late_spec : qsort_spec sort_late.
Proof. apply sort_by_spec; intros c H; lia. Qed.

Lemma int_wrap_id (z : Z) : INT_MIN <= z <= INT_MAX -> int_wrap z = z.
Proof.
  unfold int_wrap, INT_MIN, INT_MAX. intros H.
  rewrite Z.mod_small; lia.
Qed.

(** Labels that lie within [-1, INT_MAX) compare without overflow. *)
Lemma label_cmp_by_key (l : list perBaseWig) :
  (forall w, w ∈ l -> -1 <= label w < INT_MAX) ->
  cmp_by_key perBaseWigJustLabelCmp label l /\
  cmp_by_key perBaseWigLabelCmp label l.
Proof.
  intros H. split; intros a b Ha Hb; apply H in Ha; apply H in Hb;
    unfold perBaseWigJustLabelCmp, perBaseWigLabelCmp;
    rewrite int_wrap_id; unfold INT_MIN, INT_MAX in *; lia.
Qed.

(** In an array sorted by label whose labels are [-1] or more, the rows
    labelled [-1] are exactly the first ones. *)
Lemma sorted_minus_one_first (l : list perBaseWig) :
  StronglySorted (fun a b => label a <= label b) l ->
  (forall w, w ∈ l -> -1 <= label w) ->
  forall (i : nat) w, l !! i = Some w ->
    (label w = -1 <->
     (i < length (filter (fun w => label w = (-1)%Z) l))%nat).
Proof.
  intros Hs. induction Hs as [|x l Hs IH Hall]; intros Hge i w Hi.
  - discriminate.
  - assert (Hx : -1 <= label x) by (apply Hge; left).
    assert (Hge' : forall w, w ∈ l -> -1 <= label w) by (intros; apply Hge; right; auto).
    rewrite filter_cons. destruct (decide (label x = -1)) as [E|E].
    + destruct i as [|i]; simpl in *.
      * injection Hi as <-. split; [lia | auto].
      * rewrite (IH Hge' i w Hi). lia.
    + assert (Hnone : filter (fun w => label w = -1) l = []).
      { clear -Hall E Hx. induction Hall as [|y l Hy _ IHl]; [reflexivity|].
        rewrite filter_cons_False by lia. exact IHl. }
      rewrite Hnone. simpl. destruct i as [|i]; simpl in *.
      * injection Hi as <-. split; [contradiction | lia].
      * split; [|lia]. intros Hw. exfalso.
        rewrite Forall_forall in Hall.
        assert (w ∈ l) by (eapply list_elem_of_lookup_2; eauto).
        specialize (Hall w H). lia.
Qed.

(** ** The undefined-row filter and the construction *)

Lemma cell_Ok (mem : rowstore) (mat : list ptr) (i j : nat) (x : float) :
  cell mem mat i j = Ok x <->
  exists p r, mat !! i = Some p /\ mem !! p = Some r /\ r !! j = Some x.
Proof.
  unfold cell. split.
  - intros H. bind_inv H as p Hp. bind_inv H as r Hr.
    apply get_Ok in Hp, Hr, H. eauto.
  - intros (p & r & H1 & H2 & H3).
    apply get_Ok in H1, H2, H3. rewrite H1. simpl. rewrite H2. simpl. exact H3.
Qed.

Lemma row_has_nan_seq (mem : rowstore) (mat : list ptr) (i : nat) p r :
  mat !! i = Some p -> mem !! p = Some r ->
  forall len lo, (lo + len <= length r)%nat ->
  row_has_nan mem mat i (seq lo len) = Ok (existsb isnan (take len (drop lo r))).
Proof.
  intros Hp Hr. induction len as [|len IH]; intros lo Hlen; simpl.
  - reflexivity.
  - destruct (lookup_lt_is_Some_2 r lo) as [x Hx]; [lia|].
    assert (Hc : cell mem mat i lo = Ok x) by (apply cell_Ok; eauto).
    rewrite Hc. simpl. rewrite (drop_S _ _ _ Hx). simpl.
    destruct (isnan x); [reflexivity|]. rewrite IH by lia. reflexivity.
Qed.

Lemma insert_map_prefix {A : Type} (f : A -> A) (l : list A) (i : nat) (x : A) :
  l !! i = Some x ->
  <[i := f x]> (map f (take i l) ++ drop i l) = map f (take (S i) l) ++ drop (S i) l.
Proof.
  intros Hx. assert (i < length l)%nat by (eapply lookup_lt_Some; eauto).
  rewrite (take_S_r _ _ _ Hx), (drop_S _ _ _ Hx), map_app. simpl.
  rewrite <- app_assoc. simpl.
  rewrite insert_app_r_alt; rewrite length_map, length_take; [|lia].
  replace (i - i `min` length l)%nat with 0%nat by lia. reflexivity.
Qed.

Lemma lookup_map_prefix {A : Type} (f : A -> A) (l : list A) (i : nat) :
  (map f (take i l) ++ drop i l) !! i = l !! i.
Proof.
  destruct (decide (i < length l)%nat).
  - rewrite lookup_app_r; rewrite length_map, length_take; [|lia].
    rewrite lookup_drop. f_equal. lia.
  - rewrite take_ge, drop_ge, app_nil_r by lia.
    rewrite !(lookup_ge_None_2) by (rewrite ?length_map; lia). reflexivity.
Qed.

Lemma sync_matrix_eq (arr : list perBaseWig) (mat : list ptr) :
  length mat = length arr ->
  sync_matrix (Z.of_nat (length arr)) arr mat = Ok (map data arr).
Proof.
  intros Hlen. unfold sync_matrix. rewrite upto_0, Nat2Z.id.
  destruct (for_each_total
    (fun pre mt => mt = map data (take (length pre) arr) ++ drop (length pre) mat)
    (sync_step arr) (seq 0 (length arr)) mat) as (mt & Hrun & HP).
  - simpl. rewrite drop_0. reflexivity.
  - intros pre i suf mt Hidx ->. apply seq_split_at in Hidx.
    destruct Hidx as (_ & Hi & Hlt & _). simpl in Hi. subst i.
    destruct (lookup_lt_is_Some_2 arr (length pre)) as [w Hw]; [lia|].
    unfold sync_step. apply get_Ok in Hw as Hg. rewrite Hg. simpl.
    eexists. split.
    + apply put_Ok. split; [|reflexivity].
      rewrite length_app, length_map, length_take, length_drop. lia.
    + rewrite length_app. simpl. rewrite Nat.add_1_r.
      rewrite (take_S_r _ _ _ Hw), map_app. simpl.
      destruct (lookup_lt_is_Some_2 mat (length pre)) as [q Hq]; [lia|].
      rewrite (drop_S _ _ _ Hq), <- app_assoc. simpl.
      rewrite insert_app_r_alt; rewrite length_map, length_take; [|lia].
      replace (length pre - length pre `min` length arr)%nat with 0%nat by lia.
      reflexivity.
  - rewrite Hrun. f_equal. rewrite HP, length_seq.
    rewrite take_ge, drop_ge, app_nil_r by lia. reflexivity.
Qed.

Lemma mark_data (mem : rowstore) (nc : Z) (w : perBaseWig) :
  data (mark mem nc w) = data w.
Proof. unfold mark. destruct (nan_row mem nc (data w)); reflexivity. Qed.

Lemma mark_label (mem : rowstore) (nc : Z) (w : perBaseWig) :
  0 <= label w ->
  (label (mark mem nc w) = -1 <-> nan_row mem nc (data w) = true) /\
  (label (mark mem nc w) = -1 \/ label (mark mem nc w) = label w).
Proof.
  unfold mark. destruct (nan_row mem nc (data w)); simpl; intros; split;
    try split; intros; try lia; try discriminate; auto.
Qed.

Lemma mark_loop_eq (mem : rowstore) (p : perBaseMatrix) :
  wf_pbm mem p ->
  for_each (upto 0 (nrow p)) (mark_na mem p) (array p, 0) =
  Ok (map (mark mem (ncol p)) (array p),
      Z.of_nat (length (filter (fun w => nan_row mem (ncol p) (data w) = true)
                               (array p)))).
Proof.
  intros [Hn _ Hnc Hsync Hrows _]. rewrite upto_0, Hn, Nat2Z.id.
  set (arr0 := array p) in *. set (nanw := fun w => nan_row mem (ncol p) (data w) = true).
  destruct (for_each_total
    (fun pre (st : list perBaseWig * Z) =>
       fst st = map (mark mem (ncol p)) (take (length pre) arr0) ++ drop (length pre) arr0 /\
       snd st = Z.of_nat (length (filter nanw (take (length pre) arr0))))
    (mark_na mem p) (seq 0 (length arr0)) (arr0, 0)) as (st & Hrun & HP1 & HP2).
  - simpl. rewrite drop_0. auto.
  - intros pre i suf [arr na] Hidx [Ha Hb]. simpl in Ha, Hb. subst arr na.
    apply seq_split_at in Hidx. destruct Hidx as (_ & Hi & Hlt & _).
    simpl in Hi. subst i.
    destruct (lookup_lt_is_Some_2 arr0 (length pre)) as [w Hw]; [lia|].
    destruct (Hrows w) as (r & Hr & Hrl); [eapply list_elem_of_lookup_2; eauto|].
    unfold mark_na.
    rewrite upto_0, (row_has_nan_seq mem _ _ (data w) r); [ | | exact Hr | lia].
    2:{ rewrite Hsync, list_lookup_fmap, Hw. reflexivity. }
    rewrite drop_0. simpl.
    assert (Hnan : existsb isnan (take (Z.to_nat (ncol p)) r) = nan_row mem (ncol p) (data w)).
    { unfold nan_row, row_of. rewrite Hr. reflexivity. }
    rewrite Hnan. rewrite length_app. simpl. rewrite Nat.add_1_r.
    destruct (nan_row mem (ncol p) (data w)) eqn:En;
      rewrite (take_S_r _ _ _ Hw), filter_app, length_app, filter_cons, filter_nil.
    + unfold store_label. unfold get. rewrite lookup_map_prefix, Hw. simpl.
      eexists. split.
      * unfold put. rewrite bool_decide_true.
        2:{ rewrite length_app, length_map, length_take, length_drop. lia. }
        simpl. reflexivity.
      * simpl. split.
        -- rewrite <- (take_S_r _ _ _ Hw).
           rewrite <- (insert_map_prefix (mark mem (ncol p)) arr0 _ w Hw).
           unfold mark. rewrite En. reflexivity.
        -- rewrite decide_True by exact En. simpl. lia.
    + eexists. split; [reflexivity|]. simpl. split.
      * rewrite <- (take_S_r _ _ _ Hw).
        rewrite <- (insert_map_prefix (mark mem (ncol p)) arr0 _ w Hw).
        unfold mark. rewrite En.
        rewrite list_insert_id; [reflexivity|]. rewrite lookup_map_prefix. exact Hw.
      * rewrite decide_False by (unfold nanw; rewrite En; discriminate). simpl. lia.
  - rewrite Hrun. destruct st as [arr na]. simpl in *. subst. f_equal.
    rewrite length_seq, take_ge, drop_ge, app_nil_r by lia. reflexivity.
Qed.

Lemma count_marked (mem : rowstore) (nc : Z) (l : list perBaseWig) :
  (forall w, w ∈ l -> 0 <= label w) ->
  length (filter (fun w => label w = -1) (map (mark mem nc) l)) =
  length (filter (fun w => nan_row mem nc (data w) = true) l).
Proof.
  induction l as [|x l IH]; intros Hl; [reflexivity|].
  change (map (mark mem nc) (x :: l)) with (mark mem nc x :: map (mark mem nc) l).
  rewrite !filter_cons.
  destruct (mark_label mem nc x) as [Hiff _]; [apply Hl; left|].
  specialize (IH (fun w Hw => Hl w (list_elem_of_further _ _ _ Hw))).
  destruct (decide (label (mark mem nc x) = -1)) as [E|E];
    destruct (decide (nan_row mem nc (data x) = true)) as [E'|E'];
    simpl; rewrite ?IH; try reflexivity; tauto.
Qed.

Section Construction.

Variable qsort :
  (perBaseWig -> perBaseWig -> Z) -> list perBaseWig -> list perBaseWig.
Hypothesis Hq : qsort_spec qsort.
Variable mem : rowstore.

Lemma qsort_length cmp l : length (qsort cmp l) = length l.
Proof. apply Permutation_length, Hq. Qed.

Lemma qsort_array_eq cmp (arr : list perBaseWig) :
  qsort_array qsort cmp (Z.of_nat (length arr)) arr = Ok (qsort cmp arr).
Proof.
  unfold qsort_array. rewrite Nat2Z.id, bool_decide_true by lia.
  rewrite take_ge, drop_ge, app_nil_r by lia. reflexivity.
Qed.

Lemma clear_na_rows_eq (p : perBaseMatrix) :
  wf_pbm mem p ->
  clear_na_rows qsort mem p =
  Ok (mkPerBaseMatrix (nrow p) (ncol p)
        (qsort perBaseWigJustLabelCmp (map (mark mem (ncol p)) (array p)))
        (map data (qsort perBaseWigJustLabelCmp (map (mark mem (ncol p)) (array p)))),
      Z.of_nat (length (filter (fun w => nan_row mem (ncol p) (data w) = true)
                               (array p)))).
Proof.
  intros Hwf. unfold clear_na_rows. rewrite mark_loop_eq by assumption. simpl.
  destruct Hwf as [Hn _ _ Hsync _ _].
  assert (Hn' : nrow p = Z.of_nat (length (map (mark mem (ncol p)) (array p))))
    by (rewrite length_map; exact Hn).
  rewrite Hn' at 1. rewrite qsort_array_eq. simpl.
  assert (Hn'' : nrow p = Z.of_nat (length
            (qsort perBaseWigJustLabelCmp (map (mark mem (ncol p)) (array p)))))
    by (rewrite qsort_length; exact Hn').
  rewrite Hn'' at 1. rewrite sync_matrix_eq.
  - simpl. reflexivity.
  - rewrite qsort_length, Hsync, !length_map. reflexivity.
Qed.

(** Construction succeeds on every well-formed matrix, whatever [kk] is,
    and leaves the excluded rows in front. *)
Lemma init_cbm_wf (p : perBaseMatrix) (kk : Z) :
  wf_pbm mem p ->
  exists c, init_cbm_from_pbm qsort mem p kk = Ok c /\ wf_cbm mem c /\
            k c = kk /\ m c = ncol p /\ n c = nrow p /\
            centroids c = [] /\ cluster_sizes c = [] /\
            array (pbm c) ≡ₚ map (mark mem (ncol p)) (array p) /\
            num_na c = Z.of_nat (length (filter
               (fun w => nan_row mem (ncol p) (data w) = true) (array p))).
Proof.
  intros Hwf. unfold init_cbm_from_pbm. rewrite clear_na_rows_eq by assumption.
  simpl. eexists. split; [reflexivity|].
  set (arr0 := array p). set (arr1 := qsort _ _).
  assert (Hperm : arr1 ≡ₚ map (mark mem (ncol p)) arr0) by apply Hq.
  destruct Hwf as [Hn Hint Hnc Hsync Hrows Hfresh]. fold arr0 in Hn, Hrows, Hfresh.
  assert (Hsrc : forall w, w ∈ arr1 -> exists w0, w0 ∈ arr0 /\ w = mark mem (ncol p) w0).
  { intros w Hw. rewrite Hperm in Hw. apply list_elem_of_fmap in Hw.
    destruct Hw as (w0 & -> & Hw0). eauto. }
  assert (Hlab : forall w, w ∈ map (mark mem (ncol p)) arr0 -> -1 <= label w < INT_MAX).
  { intros w Hw. apply list_elem_of_fmap in Hw. destruct Hw as (w0 & -> & Hw0).
    specialize (Hfresh w0 Hw0).
    destruct (mark_label mem (ncol p) w0) as [_ [E|E]]; lia. }
  assert (Hsorted : StronglySorted (fun a b => label a <= label b) arr1).
  { apply Hq. apply label_cmp_by_key. exact Hlab. }
  assert (Hcount : length (filter (fun w => label w = -1) arr1) =
                   length (filter (fun w => nan_row mem (ncol p) (data w) = true) arr0)).
  { rewrite Hperm. apply count_marked. intros w Hw. apply Hfresh in Hw. lia. }
  assert (Hfirst : forall (i : nat) w, arr1 !! i = Some w ->
            (label w = -1 <->
             (i < length (filter (fun w => nan_row mem (ncol p) (data w) = true) arr0))%nat)).
  { intros i w Hi. rewrite <- Hcount. apply sorted_minus_one_first; auto.
    intros w' Hw'. rewrite Hperm in Hw'. apply Hlab in Hw'. lia. }
  assert (Hnanlab : forall w, w ∈ arr1 ->
            (label w = -1 <-> nan_row mem (ncol p) (data w) = true) /\
            -1 <= label w < INT_MAX).
  { intros w Hw. destruct (Hsrc w Hw) as (w0 & Hw0 & ->).
    rewrite mark_data. specialize (Hfresh w0 Hw0).
    destruct (mark_label mem (ncol p) w0) as [Hiff [E|E]]; [lia| |]; split; auto; lia. }
  split; [|repeat split; simpl; auto].
  constructor; simpl; auto.
  - unfold arr1. rewrite qsort_length, length_map. exact Hn.
  - split; [lia|]. rewrite Hn. apply inj_le. apply length_filter.
  - intros w Hw. destruct (Hsrc w Hw) as (w0 & Hw0 & ->). rewrite mark_data.
    apply Hrows. exact Hw0.
  - intros i w Hi Hlt.
    assert (E : label w = -1) by (apply (Hfirst i w Hi); lia).
    split; [exact E|]. apply Hnanlab; [eapply list_elem_of_lookup_2; eauto|exact E].
  - intros i w Hi Hge.
    assert (Hw : w ∈ arr1) by (eapply list_elem_of_lookup_2; eauto).
    destruct (Hnanlab w Hw) as [Hiff Hr].
    assert (E : label w <> -1) by (intros E; apply (Hfirst i w Hi) in E; lia).
    split; [lia|].
    destruct (nan_row mem (ncol p) (data w)); [|reflexivity].
    exfalso. apply E, Hiff. reflexivity.
Qed.

End Construction.

(** ** The order of the doubles *)

Lemma SFcompare_rank (x y : spec_float) :
  SFcompare x y =
  match sf_rank x, sf_rank y with
  | Some a, Some b => Some (rank_cmp a b)
  | _, _ => None
  end.
Proof.
  destruct x as [sx|sx| |sx mx ex], y as [sy|sy| |sy my ey]; simpl;
    try reflexivity;
    try (destruct sx; reflexivity); try (destruct sy; reflexivity);
    try (destruct sx, sy; reflexivity).
  destruct sx, sy; simpl; try reflexivity.
  rewrite Z.compare_opp. rewrite (Z.compare_antisym ey ex).
  destruct (ey ?= ex); simpl; reflexivity.
Qed.

Lemma rank_cmp_Lt_trans (a b c : Z * Z * Z) :
  rank_cmp a b = Lt -> rank_cmp b c = Lt -> rank_cmp a c = Lt.
Proof.
  destruct a as [[a1 a2] a3], b as [[b1 b2] b3], c as [[c1 c2] c3]. simpl.
  destruct (Z.compare_spec a1 b1), (Z.compare_spec b1 c1); try discriminate;
    destruct (Z.compare_spec a1 c1); try lia; try reflexivity;
    destruct (Z.compare_spec a2 b2), (Z.compare_spec b2 c2); try discriminate;
    destruct (Z.compare_spec a2 c2); try lia; try reflexivity;
    rewrite !Z.compare_lt_iff; lia.
Qed.

Lemma rank_cmp_refl (a : Z * Z * Z) : rank_cmp a a = Eq.
Proof. destruct a as [[a1 a2] a3]. simpl. rewrite !Z.compare_refl. reflexivity. Qed.

Lemma rank_cmp_Eq (a b : Z * Z * Z) : rank_cmp a b = Eq -> a = b.
Proof.
  destruct a as [[a1 a2] a3], b as [[b1 b2] b3]. simpl.
  destruct (Z.compare_spec a1 b1); try discriminate.
  destruct (Z.compare_spec a2 b2); try discriminate.
  intros H'. apply Z.compare_eq in H'. congruence.
Qed.

Lemma rank_cmp_antisym (a b : Z * Z * Z) : rank_cmp b a = CompOpp (rank_cmp a b).
Proof.
  destruct a as [[a1 a2] a3], b as [[b1 b2] b3]. simpl.
  rewrite (Z.compare_antisym a1 b1), (Z.compare_antisym a2 b2), (Z.compare_antisym a3 b3).
  destruct (a1 ?= b1); simpl; try reflexivity.
  destruct (a2 ?= b2); simpl; reflexivity.
Qed.

(** [x < y] on doubles, through the ranks. *)
Lemma ltb_rank (x y : float) :
  (x <? y)%float = true <->
  exists a b, rank_of x = Some a /\ rank_of y = Some b /\ rank_cmp a b = Lt.
Proof.
  rewrite ltb_spec. unfold SFltb, rank_of. rewrite SFcompare_rank.
  destruct (sf_rank (Prim2SF x)) as [a|], (sf_rank (Prim2SF y)) as [b|]; split;
    try discriminate; try (intros (? & ? & ? & ? & ?); discriminate).
  - destruct (rank_cmp a b) eqn:E; try discriminate. eauto.
  - intros (a' & b' & Ha & Hb & Hc). injection Ha as <-. injection Hb as <-.
    rewrite Hc. reflexivity.
Qed.

Lemma leb_rank (x y : float) :
  (x <=? y)%float = true <->
  exists a b, rank_of x = Some a /\ rank_of y = Some b /\ rank_cmp a b <> Gt.
Proof.
  rewrite leb_spec. unfold SFleb, rank_of. rewrite SFcompare_rank.
  destruct (sf_rank (Prim2SF x)) as [a|], (sf_rank (Prim2SF y)) as [b|]; split;
    try discriminate; try (intros (? & ? & ? & ? & ?); discriminate).
  - destruct (rank_cmp a b) eqn:E; try discriminate; intros _;
      exists a, b; rewrite E; repeat split; discriminate.
  - intros (a' & b' & Ha & Hb & Hc). injection Ha as <-. injection Hb as <-.
    destruct (rank_cmp a b); try reflexivity. contradiction.
Qed.

Lemma isnan_rank (x : float) : isnan x = true <-> rank_of x = None.
Proof.
  unfold isnan, is_nan, rank_of. rewrite FloatAxioms.eqb_spec. unfold SFeqb.
  rewrite SFcompare_rank.
  destruct (sf_rank (Prim2SF x)) as [a|]; simpl.
  - rewrite rank_cmp_refl. simpl. split; discriminate.
  - split; reflexivity.
Qed.

Lemma ltb_irrefl (x : float) : (x <? x)%float = false.
Proof.
  destruct (x <? x)%float eqn:E; [|reflexivity].
  apply ltb_rank in E. destruct E as (a & b & Ha & Hb & Hc).
  rewrite Ha in Hb. injection Hb as <-. rewrite rank_cmp_refl in Hc. discriminate.
Qed.

Lemma ltb_trans (x y z : float) :
  (x <? y)%float = true -> (y <? z)%float = true -> (x <? z)%float = true.
Proof.
  rewrite !ltb_rank. intros (a & b & Ha & Hb & Hab) (b' & c & Hb' & Hc & Hbc).
  rewrite Hb in Hb'. injection Hb' as <-.
  exists a, c. repeat split; auto. eapply rank_cmp_Lt_trans; eauto.
Qed.

Lemma leb_ltb_trans (x y z : float) :
  (x <=? y)%float = true -> (y <? z)%float = true -> (x <? z)%float = true.
Proof.
  rewrite leb_rank, !ltb_rank. intros (a & b & Ha & Hb & Hab) (b' & c & Hb' & Hc & Hbc).
  rewrite Hb in Hb'. injection Hb' as <-.
  exists a, c. repeat split; auto.
  destruct (rank_cmp a b) eqn:E; try contradiction.
  - apply rank_cmp_Eq in E. subst. exact Hbc.
  - eapply rank_cmp_Lt_trans; eauto.
Qed.

(** On numbers, [not (x < y)] is [y <= x]; with a NaN on either side both
    comparisons are false. *)
Lemma ltb_false_leb (x y : float) :
  isnan x = false -> isnan y = false ->
  ((x <? y)%float = false <-> (y <=? x)%float = true).
Proof.
  intros Hx Hy.
  destruct (rank_of x) as [a|] eqn:Ea; [|apply isnan_rank in Ea; congruence].
  destruct (rank_of y) as [b|] eqn:Eb; [|apply isnan_rank in Eb; congruence].
  rewrite leb_rank. split.
  - intros Hlt. exists b, a. repeat split; auto.
    rewrite rank_cmp_antisym. intros Hgt.
    destruct (rank_cmp a b) eqn:E; try discriminate.
    assert ((x <? y)%float = true) by (apply ltb_rank; eauto). congruence.
  - intros (b' & a' & Hb' & Ha' & Hc). rewrite Eb in Hb'. rewrite Ea in Ha'.
    injection Hb' as <-. injection Ha' as <-.
    destruct (x <? y)%float eqn:E; [|reflexivity].
    apply ltb_rank in E. destruct E as (a' & b' & Ha' & Hb' & Hlt).
    rewrite Ea in Ha'. rewrite Eb in Hb'. injection Ha' as <-. injection Hb' as <-.
    rewrite rank_cmp_antisym, Hlt in Hc. contradiction.
Qed.

Lemma ltb_nan_l (x y : float) : isnan x = true -> (x <? y)%float = false.
Proof.
  intros Hx. apply isnan_rank in Hx. destruct (x <? y)%float eqn:E; [|reflexivity].
  apply ltb_rank in E. destruct E as (a & b & Ha & _). congruence.
Qed.

Lemma ltb_nan_r (x y : float) : isnan y = true -> (x <? y)%float = false.
Proof.
  intros Hy. apply isnan_rank in Hy. destruct (x <? y)%float eqn:E; [|reflexivity].
  apply ltb_rank in E. destruct E as (a & b & _ & Hb & _). congruence.
Qed.

(** ** The scan for the closest centroid *)

Lemma capped_min_snoc (ds : list float) (d : float) :
  capped_min (ds ++ [d]) =
  if (d <? capped_min ds)%float then d else capped_min ds.
Proof. unfold capped_min. rewrite fold_left_app. reflexivity. Qed.

Lemma closest_spec (mem : rowstore) (c : cluster_bed_matrix)
    (cs : list (list float)) (h : nat) (ls ls' : list Z) (md : float) :
  closest mem c cs h ls = Ok (ls', md) ->
  exists ds, distances mem c cs h ds /\ md = capped_min ds /\
    ((out_of_reach ds /\ ls' = ls) \/
     (exists i, nearest ds i /\ ds !! i = Some md /\ (h < length ls)%nat /\
                ls' = <[h := Z.of_nat i]> ls)).
Proof.
  unfold closest, distances. rewrite upto_0. intros Hrun.
  pose (P := fun (pre : list nat) (st : list Z * float) =>
    exists ds, Forall2 (fun i d => distance mem c cs h i = Ok d) pre ds /\
      snd st = capped_min ds /\
      (forall d, d ∈ ds -> (d <? snd st)%float = false) /\
      ((snd st = DBL_MAX /\ fst st = ls) \/
       (exists i d, ds !! i = Some d /\ d = snd st /\ (d <? DBL_MAX)%float = true /\
          (forall (j : nat) d', (j < i)%nat -> ds !! j = Some d' -> (d' <=? d)%float = false) /\
          (h < length ls)%nat /\ fst st = <[h := Z.of_nat i]> ls))).
  assert (HP : P (seq 0 (Z.to_nat (k c))) (ls', md)).
  { apply (for_each_ind P (closest_step mem c cs h) _ (ls, DBL_MAX)); [ | | exact Hrun].
    - exists []. split; [constructor|]. split; [reflexivity|].
      split; [intros d Hd; inversion Hd|]. left. split; reflexivity.
    - intros pre i suf [l0 m0] [l1 m1] Hidx (ds & Hds & Hmin & Hlow & Hcase) Hb.
      simpl in Hmin, Hlow, Hcase. apply seq_split_at in Hidx.
      destruct Hidx as (_ & Hi & _ & _). simpl in Hi.
      assert (Hlen : length ds = i) by (rewrite <- (Forall2_length _ _ _ Hds); auto).
      unfold closest_step in Hb. bind_inv Hb as d Hd.
      simpl in Hb. exists (ds ++ [d]). split.
      { apply Forall2_app; [exact Hds|]. constructor; [exact Hd | constructor]. }
      rewrite capped_min_snoc, <- Hmin.
      destruct (d <? m0)%float eqn:Elt.
      + bind_inv Hb as l2 Hput.
        apply put_Ok in Hput. destruct Hput as [Hlt ->].
        injection Hb as <- <-. simpl. split; [reflexivity|]. split.
        * intros d' Hd'. apply elem_of_app in Hd'. destruct Hd' as [Hd'|Hd'].
          -- destruct (d' <? d)%float eqn:Ed; [|reflexivity].
             specialize (Hlow d' Hd').
             rewrite (ltb_trans d' d m0 Ed Elt) in Hlow. discriminate.
          -- apply list_elem_of_singleton in Hd'. subst d'. apply ltb_irrefl.
        * right. exists i, d. repeat split.
          -- rewrite lookup_app_r by lia. rewrite Hlen, Nat.sub_diag. reflexivity.
          -- destruct Hcase as [[-> _]|(i0 & d0 & _ & -> & Hd0 & _)]; [exact Elt|].
             eapply ltb_trans; eauto.
          -- intros j d' Hj Hd'. rewrite lookup_app_l in Hd' by lia.
             destruct (d' <=? d)%float eqn:Ed; [|reflexivity].
             assert (Hin : d' ∈ ds) by (eapply list_elem_of_lookup_2; eauto).
             specialize (Hlow d' Hin).
             rewrite (leb_ltb_trans d' d m0 Ed Elt) in Hlow. discriminate.
          -- destruct Hcase as [[_ ->]|(i0 & d0 & _ & _ & _ & _ & Hh & ->)]; auto.
          -- destruct Hcase as [[_ ->]|(i0 & d0 & _ & _ & _ & _ & Hh & ->)]; auto.
             rewrite list_insert_insert_eq. reflexivity.
      + injection Hb as <- <-. simpl. split; [reflexivity|]. split.
        * intros d' Hd'. apply elem_of_app in Hd'. destruct Hd' as [Hd'|Hd']; auto.
          apply list_elem_of_singleton in Hd'. subst d'. exact Elt.
        * destruct Hcase as [Hc|(i0 & d0 & H1 & H2 & H3 & H4 & H5)]; [left; exact Hc|].
          right. exists i0, d0. repeat split; try tauto.
          -- apply lookup_app_l_Some. exact H1.
          -- intros j d' Hj Hd'. apply (H4 j d' Hj).
             assert (i0 < length ds)%nat by (eapply lookup_lt_Some; eauto).
             rewrite lookup_app_l in Hd' by lia. exact Hd'. }
  destruct HP as (ds & Hds & Hmin & Hlow & Hcase). simpl in *.
  exists ds. repeat split; auto.
  destruct Hcase as [[E ->]|(i & d & H1 & -> & H3 & H4 & H5 & ->)].
  - left. split; [|reflexivity]. intros d Hd. rewrite <- E. auto.
  - right. exists i. repeat split; auto.
    exists md. repeat split; auto.
    intros j d' Hd'. apply Hlow. eapply list_elem_of_lookup_2; eauto.
Qed.

(** ** Shapes *)

Lemma rect_lookup (kk mm : nat) (a : list (list float)) (i : nat) r :
  rect kk mm a -> a !! i = Some r -> length r = mm /\ (i < kk)%nat.
Proof.
  intros [Hl Hf] Hi. split.
  - rewrite Forall_forall in Hf. apply Hf. eapply list_elem_of_lookup_2; eauto.
  - rewrite <- Hl. eapply lookup_lt_Some; eauto.
Qed.

Lemma rect_insert (kk mm : nat) (a : list (list float)) (i : nat) r :
  rect kk mm a -> length r = mm -> rect kk mm (<[i := r]> a).
Proof.
  intros [Hl Hf] Hr. split.
  - rewrite length_insert. exact Hl.
  - apply Forall_insert; assumption.
Qed.

Lemma rect_replicate (kk mm : nat) (x : float) :
  rect kk mm (replicate kk (replicate mm x)).
Proof.
  split; [apply length_replicate|].
  apply Forall_replicate. apply length_replicate.
Qed.

Lemma sum_sizes_insert (l : list Z) (i : nat) (z z' : Z) :
  l !! i = Some z -> sum_sizes (<[i := z']> l) = sum_sizes l - z + z'.
Proof.
  revert i. induction l as [|x l IH]; intros [|i] Hi; simpl in *; try discriminate.
  - injection Hi as ->. lia.
  - rewrite (IH i Hi). lia.
Qed.

Lemma sum_sizes_replicate (kk : nat) : sum_sizes (replicate kk 0) = 0.
Proof. induction kk; simpl; lia. Qed.

Lemma insert_replicate_prefix {A : Type} (x : A) (l : list A) (i : nat) :
  (i < length l)%nat ->
  <[i := x]> (replicate i x ++ drop i l) = replicate (S i) x ++ drop (S i) l.
Proof.
  intros Hi. destruct (lookup_lt_is_Some_2 l i Hi) as [y Hy].
  rewrite (drop_S _ _ _ Hy).
  rewrite insert_app_r_alt; rewrite length_replicate; [|lia].
  rewrite Nat.sub_diag, replicate_S_end, <- app_assoc. reflexivity.
Qed.

(** *** The inner loops over the columns *)

Lemma accum_loop (mem : rowstore) (mat : list ptr) (h : nat) (l : Z)
    (js : list nat) (kk mm : nat) (a a' : list (list float)) :
  rect kk mm a ->
  for_each js (accum_cell mem mat h l) a = Ok a' ->
  rect kk mm a' /\ forall i, i <> Z.to_nat l -> a' !! i = a !! i.
Proof.
  intros Hr Hrun.
  apply (for_each_inv
    (fun x => rect kk mm x /\ forall i, i <> Z.to_nat l -> x !! i = a !! i)
    (accum_cell mem mat h l) js a a'); auto.
  intros j x x1 _ [Hrx Hsame] Hb. unfold accum_cell in Hb.
  bind_inv Hb as v _.
  bind_inv Hb as r Hr1.
  bind_inv Hb as y _.
  bind_inv Hb as r' Hr2.
  apply zget_Ok in Hr1. destruct Hr1 as [_ Hr1].
  apply put_Ok in Hr2. destruct Hr2 as [_ ->].
  apply zput_Ok in Hb. destruct Hb as (_ & _ & ->).
  split.
  - apply rect_insert; [exact Hrx|]. rewrite length_insert.
    eapply rect_lookup; eauto.
  - intros i Hi. rewrite list_lookup_insert_ne by auto. auto.
Qed.

Lemma clear_loop (i : nat) (mm : nat) (a : list (list float)) (kk : nat) r :
  rect kk mm a -> a !! i = Some r ->
  for_each (seq 0 mm) (clear_cell i) a = Ok (<[i := replicate mm 0%float]> a).
Proof.
  intros Hr Hi. destruct (rect_lookup _ _ _ _ _ Hr Hi) as [Hlen Hik].
  destruct (for_each_total
    (fun pre x => x = <[i := replicate (length pre) 0%float ++ drop (length pre) r]> a)
    (clear_cell i) (seq 0 mm) a) as (x & Hrun & HP).
  - simpl. rewrite drop_0, list_insert_id; auto.
  - intros pre j suf x Hidx ->. apply seq_split_at in Hidx.
    destruct Hidx as (_ & Hj & Hlt & _). simpl in Hj. subst j.
    unfold clear_cell. unfold get.
    rewrite list_lookup_insert_eq by (destruct Hr; lia). simpl.
    unfold put. rewrite !bool_decide_true.
    2:{ rewrite length_insert. destruct Hr; lia. }
    2:{ rewrite length_app, length_replicate, length_drop. lia. }
    simpl. eexists. split; [reflexivity|].
    rewrite list_insert_insert_eq. f_equal.
    rewrite length_app. simpl length. rewrite Nat.add_1_r.
    apply insert_replicate_prefix. lia.
  - rewrite Hrun, HP, length_seq. do 2 f_equal.
    rewrite drop_ge, app_nil_r by lia. reflexivity.
Qed.

Lemma clear_steps (c : cluster_bed_matrix) (sizes : list Z) (a : list (list float)) :
  length sizes = Z.to_nat (k c) ->
  rect (Z.to_nat (k c)) (Z.to_nat (m c)) a ->
  for_each (upto 0 (k c)) (clear_step c) (sizes, a) =
  Ok (replicate (Z.to_nat (k c)) 0,
      replicate (Z.to_nat (k c)) (replicate (Z.to_nat (m c)) 0%float)).
Proof.
  intros Hs Hr. rewrite upto_0.
  set (kk := Z.to_nat (k c)) in *. set (mm := Z.to_nat (m c)) in *.
  destruct (for_each_total
    (fun pre (st : list Z * list (list float)) =>
       fst st = replicate (length pre) 0 ++ drop (length pre) sizes /\
       snd st = replicate (length pre) (replicate mm 0%float) ++ drop (length pre) a)
    (clear_step c) (seq 0 kk) (sizes, a)) as (st & Hrun & HP1 & HP2).
  - simpl. rewrite !drop_0. auto.
  - intros pre i suf [sz x] Hidx [Ha Hb]. simpl in Ha, Hb. subst sz x.
    apply seq_split_at in Hidx. destruct Hidx as (_ & Hi & Hlt & _).
    simpl in Hi. subst i. unfold clear_step. simpl.
    unfold put. rewrite bool_decide_true.
    2:{ rewrite length_app, length_replicate, length_drop. lia. }
    simpl. rewrite upto_0. fold mm.
    destruct (lookup_lt_is_Some_2 a (length pre)) as [r Hr']; [destruct Hr; lia|].
    rewrite (clear_loop (length pre) mm _ kk r).
    + simpl. eexists. split; [reflexivity|]. simpl.
      rewrite length_app. simpl length. rewrite Nat.add_1_r.
      rewrite !insert_replicate_prefix by (destruct Hr; lia). auto.
    + destruct Hr as [Hl Hf]. split.
      * rewrite length_app, length_replicate, length_drop. lia.
      * apply Forall_app. split.
        -- apply Forall_replicate. apply length_replicate.
        -- apply Forall_drop. exact Hf.
    + rewrite lookup_app_r; rewrite length_replicate; [|lia].
      rewrite Nat.sub_diag, lookup_drop, Nat.add_0_r. exact Hr'.
  - rewrite Hrun. destruct st as [sz x]. simpl in *. subst.
    rewrite length_seq. destruct Hr as [Hl _].
    rewrite !drop_ge, !app_nil_r by lia. reflexivity.
Qed.

Lemma insert_take_drop {A : Type} (r l : list A) (j : nat) (y : A) :
  r !! j = Some y -> (j < length l)%nat ->
  <[j := y]> (take j r ++ drop j l) = take (S j) r ++ drop (S j) l.
Proof.
  intros Hy Hj. assert (j < length r)%nat by (eapply lookup_lt_Some; eauto).
  destruct (lookup_lt_is_Some_2 l j Hj) as [z Hz].
  rewrite (take_S_r _ _ _ Hy), (drop_S _ _ _ Hz), <- app_assoc.
  rewrite insert_app_r_alt; rewrite length_take; [|lia].
  replace (j - j `min` length r)%nat with 0%nat by lia. reflexivity.
Qed.

Lemma update_cells (sizes : list Z) (c1 : list (list float)) (i : nat)
    (kk mm : nat) (cs cs' : list (list float)) ci :
  rect kk mm cs -> cs !! i = Some ci ->
  for_each (seq 0 mm) (update_cell sizes c1 i) cs = Ok cs' ->
  rect kk mm cs' /\
  (forall i', i' <> i -> cs' !! i' = cs !! i') /\
  (forall r, sizes !! i = Some 0 -> c1 !! i = Some r -> length r = mm ->
             cs' !! i = Some r).
Proof.
  intros Hr Hci Hrun.
  destruct (rect_lookup _ _ _ _ _ Hr Hci) as [Hcil Hik].
  pose (P := fun (pre : list nat) (x : list (list float)) =>
    rect kk mm x /\ (forall i', i' <> i -> x !! i' = cs !! i') /\
    exists cx, x !! i = Some cx /\ length cx = mm /\
      (forall r, sizes !! i = Some 0 -> c1 !! i = Some r -> length r = mm ->
                 cx = take (length pre) r ++ drop (length pre) ci)).
  assert (HP : P (seq 0 mm) cs').
  { apply (for_each_ind P (update_cell sizes c1 i) _ cs); [ | | exact Hrun].
    - split; [exact Hr|]. split; [auto|]. exists ci. repeat split; auto.
    - intros pre j suf x x' Hidx (Hrx & Hsame & cx & Hcx & Hcxl & Hprop) Hb.
      apply seq_split_at in Hidx. destruct Hidx as (_ & Hj & Hlt & _).
      simpl in Hj. subst j. unfold update_cell in Hb.
      bind_inv Hb as sz Hsz. apply get_Ok in Hsz.
      bind_inv Hb as r Hr1. apply get_Ok in Hr1.
      bind_inv Hb as y Hy. apply get_Ok in Hy.
      bind_inv Hb as cx' Hcx'. apply get_Ok in Hcx'.
      bind_inv Hb as cy Hcy.
      apply put_Ok in Hcy. destruct Hcy as [Hjl ->].
      apply put_Ok in Hb. destruct Hb as [Hil ->].
      rewrite Hcx in Hcx'. injection Hcx' as <-.
      split; [|split].
      + apply rect_insert; [exact Hrx|]. rewrite length_insert. exact Hcxl.
      + intros i' Hi'. rewrite list_lookup_insert_ne by auto. auto.
      + eexists. split; [apply list_lookup_insert_eq; exact Hil|].
        split; [rewrite length_insert; exact Hcxl|].
        intros r0 Hs0 Hr0 Hl0. rewrite Hs0 in Hsz. injection Hsz as <-.
        rewrite Hr0 in Hr1. injection Hr1 as <-. simpl.
        rewrite (Hprop r0 Hs0 Hr0 Hl0).
        rewrite length_app. simpl length. rewrite Nat.add_1_r.
        apply insert_take_drop; [exact Hy | lia]. }
  destruct HP as (Hrx & Hsame & cx & Hcx & Hcxl & Hprop).
  split; [exact Hrx|]. split; [exact Hsame|].
  intros r Hs0 Hr0 Hl0. rewrite Hcx. f_equal.
  rewrite (Hprop r Hs0 Hr0 Hl0), length_seq.
  rewrite take_ge, drop_ge, app_nil_r by lia. reflexivity.
Qed.

Lemma update_steps (c : cluster_bed_matrix) (sizes : list Z)
    (c1 cs cs' : list (list float)) :
  rect (Z.to_nat (k c)) (Z.to_nat (m c)) cs ->
  rect (Z.to_nat (k c)) (Z.to_nat (m c)) c1 ->
  for_each (upto 0 (k c)) (update_step c sizes c1) cs = Ok cs' ->
  rect (Z.to_nat (k c)) (Z.to_nat (m c)) cs' /\
  (forall i r, sizes !! i = Some 0 -> c1 !! i = Some r -> cs' !! i = Some r).
Proof.
  intros Hr Hr1 Hrun. rewrite upto_0 in Hrun.
  set (kk := Z.to_nat (k c)) in *. set (mm := Z.to_nat (m c)) in *.
  pose (P := fun (pre : list nat) (x : list (list float)) =>
    rect kk mm x /\
    forall i r, i ∈ pre -> sizes !! i = Some 0 -> c1 !! i = Some r -> x !! i = Some r).
  assert (HP : P (seq 0 kk) cs').
  { apply (for_each_ind P (update_step c sizes c1) _ cs); [ | | exact Hrun].
    - split; [exact Hr|]. intros i r Hi. inversion Hi.
    - intros pre i suf x x' Hidx [Hrx Hdone] Hb.
      apply seq_split_at in Hidx. destruct Hidx as (_ & Hi & Hlt & _).
      simpl in Hi. subst i. unfold update_step in Hb. rewrite upto_0 in Hb. fold mm in Hb.
      destruct (lookup_lt_is_Some_2 x (length pre)) as [cx Hcx]; [destruct Hrx; lia|].
      destruct (update_cells _ _ _ kk mm _ _ cx Hrx Hcx Hb) as (Hrx' & Hsame & Hnew).
      split; [exact Hrx'|]. intros i r Hi Hs0 Hr0.
      apply elem_of_app in Hi. destruct Hi as [Hi|Hi].
      + destruct (decide (i = length pre)) as [->|Hne].
        * apply Hnew; auto. exact (proj1 (rect_lookup _ _ _ _ _ Hr1 Hr0)).
        * rewrite Hsame by auto. apply Hdone; auto.
      + apply list_elem_of_singleton in Hi. subst i.
        apply Hnew; auto. exact (proj1 (rect_lookup _ _ _ _ _ Hr1 Hr0)). }
  destruct HP as [Hrx Hdone]. split; [exact Hrx|].
  intros i r Hs0 Hr0. apply Hdone; auto.
  apply elem_of_seq. split; [lia|]. simpl.
  destruct (rect_lookup _ _ _ _ _ Hr1 Hr0). lia.
Qed.

(** *** One active row *)

Lemma assign_row_spec (mem : rowstore) (c : cluster_bed_matrix) (h : nat)
    (s s' : kstate) :
  kshape c s ->
  assign_row mem c h s = Ok s' ->
  kshape c s' /\ ks_centroids s' = ks_centroids s /\
  (forall h', h' <> h -> ks_labels s' !! h' = ks_labels s !! h') /\
  (exists l z, ks_labels s' !! h = Some l /\ 0 <= l < k c /\
       assigned mem c (ks_centroids s) h (ks_labels s !! h) l /\
       ks_sizes s !! Z.to_nat l = Some z /\
       ks_sizes s' = <[Z.to_nat l := z + 1]> (ks_sizes s) /\
       (forall i, i <> Z.to_nat l -> ks_c1 s' !! i = ks_c1 s !! i)) /\
  (exists md, row_min mem c (ks_centroids s) h md /\
              ks_error s' = (ks_error s + md)%float).
Proof.
  intros [Hl Hs Hc Hc1] Hrun. unfold assign_row in Hrun.
  bind_inv Hrun as [ls md] Hclo.
  bind_inv Hrun as l Hlab. apply get_Ok in Hlab.
  bind_inv Hrun as a' Hacc.
  bind_inv Hrun as z Hz.
  apply zget_Ok in Hz. destruct Hz as [Hl0 Hz].
  bind_inv Hrun as sz' Hput.
  apply zput_Ok in Hput. destruct Hput as (_ & Hlt & ->).
  injection Hrun as <-. simpl.
  destruct (accum_loop _ _ _ _ _ _ _ _ _ Hc1 Hacc) as [Hc1' Hsame].
  destruct (closest_spec _ _ _ _ _ _ _ Hclo) as (ds & Hds & Hmd & Hcase).
  assert (Hls : length ls = length (ks_labels s)).
  { destruct Hcase as [[_ ->]|(i & _ & _ & _ & ->)]; [reflexivity|].
    apply length_insert. }
  split; [|split; [reflexivity|split; [|split]]].
  - constructor; simpl; auto; try lia. rewrite length_insert. exact Hs.
  - intros h' Hh'. destruct Hcase as [[_ ->]|(i & _ & _ & _ & ->)]; [reflexivity|].
    apply list_lookup_insert_ne. auto.
  - exists l, z. split; [exact Hlab|]. split; [lia|]. split; [|auto].
    exists ds. split; [exact Hds|].
    destruct Hcase as [[Hout ->]|(i & Hnear & _ & Hh & ->)].
    + right. auto.
    + left. exists i. split; [exact Hnear|].
      rewrite list_lookup_insert_eq in Hlab by exact Hh. congruence.
  - exists md. split; [|reflexivity]. exists ds. auto.
Qed.

Lemma not_in_seq_prefix (lo a : nat) : (lo + a)%nat ∉ seq lo a.
Proof. rewrite elem_of_seq. lia. Qed.

(** *** The loop over the active rows *)

Lemma rows_loop (mem : rowstore) (c : cluster_bed_matrix) (lo len : nat)
    (s1 s2 : kstate) :
  kshape c s1 ->
  for_each (seq lo len) (assign_row mem c) s1 = Ok s2 ->
  kshape c s2 /\ ks_centroids s2 = ks_centroids s1 /\
  (forall h, ~ (lo <= h < lo + len)%nat -> ks_labels s2 !! h = ks_labels s1 !! h) /\
  (forall h, (lo <= h < lo + len)%nat ->
     exists l, ks_labels s2 !! h = Some l /\ 0 <= l < k c /\
               assigned mem c (ks_centroids s1) h (ks_labels s1 !! h) l) /\
  (exists mins, Forall2 (row_min mem c (ks_centroids s1)) (seq lo len) mins /\
                ks_error s2 = fold_left PrimFloat.add mins (ks_error s1)) /\
  sum_sizes (ks_sizes s2) = sum_sizes (ks_sizes s1) + Z.of_nat len /\
  (forall i z, ks_sizes s2 !! i = Some z ->
     exists z1, ks_sizes s1 !! i = Some z1 /\ z1 <= z /\
                (z = z1 -> ks_c1 s2 !! i = ks_c1 s1 !! i)).
Proof.
  intros Hsh Hrun.
  pose (P := fun (pre : list nat) (s : kstate) =>
    kshape c s /\ ks_centroids s = ks_centroids s1 /\
    (forall h, h ∉ pre -> ks_labels s !! h = ks_labels s1 !! h) /\
    (forall h, h ∈ pre ->
       exists l, ks_labels s !! h = Some l /\ 0 <= l < k c /\
                 assigned mem c (ks_centroids s1) h (ks_labels s1 !! h) l) /\
    (exists mins, Forall2 (row_min mem c (ks_centroids s1)) pre mins /\
                  ks_error s = fold_left PrimFloat.add mins (ks_error s1)) /\
    sum_sizes (ks_sizes s) = sum_sizes (ks_sizes s1) + Z.of_nat (length pre) /\
    (forall i z, ks_sizes s !! i = Some z ->
       exists z1, ks_sizes s1 !! i = Some z1 /\ z1 <= z /\
                  (z = z1 -> ks_c1 s !! i = ks_c1 s1 !! i))).
  assert (HP : P (seq lo len) s2).
  { apply (for_each_ind P (assign_row mem c) _ s1); [ | | exact Hrun].
    - split; [exact Hsh|]. split; [reflexivity|]. split; [auto|].
      split; [intros h Hh; inversion Hh|].
      split; [exists []; split; [constructor|reflexivity]|].
      split; [simpl; lia|]. intros i z Hz. exists z. split; [exact Hz|]. split; [lia|auto].
    - intros pre h suf s s' Hidx (Hk & Hcs & Hout & Hin & (mins & Hmins & Herr) & Hsum & Hmono) Hb.
      apply seq_split_at in Hidx. destruct Hidx as (Hpre & Hh & _ & _).
      assert (Hnotin : h ∉ pre) by (rewrite Hpre, Hh; apply not_in_seq_prefix).
      destruct (assign_row_spec _ _ _ _ _ Hk Hb)
        as (Hk' & Hcs' & Hother & (l & z & Hl & Hrange & Hass & Hz & Hsz & Hc1) & (md & Hmd & Herr')).
      split; [exact Hk'|]. split; [congruence|]. split; [|split; [|split; [|split]]].
      + intros h' Hh'. rewrite not_elem_of_app in Hh'. destruct Hh' as [Hh1 Hh2].
        rewrite Hother; [auto|]. intros ->. apply Hh2. left.
      + intros h' Hh'. apply elem_of_app in Hh'. destruct Hh' as [Hh'|Hh'].
        * assert (h' <> h) by (intros ->; contradiction).
          rewrite Hother by auto. auto.
        * apply list_elem_of_singleton in Hh'. subst h'.
          exists l. split; [exact Hl|]. split; [exact Hrange|].
          rewrite <- Hcs, <- (Hout h Hnotin). exact Hass.
      + exists (mins ++ [md]). split.
        * apply Forall2_app; [exact Hmins|]. constructor; [|constructor].
          rewrite <- Hcs. exact Hmd.
        * rewrite fold_left_app. simpl. rewrite <- Herr. exact Herr'.
      + rewrite Hsz, (sum_sizes_insert _ _ z) by exact Hz.
        rewrite length_app. simpl length. lia.
      + intros i z' Hz'. rewrite Hsz in Hz'.
        destruct (decide (i = Z.to_nat l)) as [->|Hne].
        * rewrite list_lookup_insert_eq in Hz' by (eapply lookup_lt_Some; eauto).
          injection Hz' as <-. destruct (Hmono _ _ Hz) as (z1 & Hz1 & Hle & _).
          exists z1. split; [exact Hz1|]. split; lia.
        * rewrite list_lookup_insert_ne in Hz' by auto.
          destruct (Hmono _ _ Hz') as (z1 & Hz1 & Hle & Heq).
          exists z1. split; [exact Hz1|]. split; [exact Hle|].
          intros E. rewrite Hc1 by auto. auto. }
  destruct HP as (Hk & Hcs & Hout & Hin & Hmins & Hsum & Hmono).
  split; [exact Hk|]. split; [exact Hcs|]. split; [|split; [|split; [|split]]]; auto.
  - intros h Hh. apply Hout. rewrite elem_of_seq. lia.
  - intros h Hh. apply Hin. rewrite elem_of_seq. lia.
  - rewrite Hsum, length_seq. reflexivity.
Qed.

(** ** Seeding *)

Lemma copy_cells_shape (mem : rowstore) (mat : list ptr) (h : Z) (i : nat)
    (js : list nat) (kk mm : nat) (cs cs' : list (list float)) :
  rect kk mm cs ->
  for_each js (copy_cell mem mat h i) cs = Ok cs' -> rect kk mm cs'.
Proof.
  intros Hr Hrun.
  apply (for_each_inv (rect kk mm) (copy_cell mem mat h i) js cs cs'); auto.
  intros j x x1 _ Hrx Hb. unfold copy_cell in Hb.
  destruct (h <? 0); [discriminate|].
  bind_inv Hb as v _.
  bind_inv Hb as ci Hci. apply get_Ok in Hci.
  bind_inv Hb as ci' Hci'.
  apply put_Ok in Hci'. destruct Hci' as [_ ->].
  apply put_Ok in Hb. destruct Hb as [_ ->].
  apply rect_insert; [exact Hrx|]. rewrite length_insert.
  eapply rect_lookup; eauto.
Qed.

Lemma seed_shape (mem : rowstore) (c : cluster_bed_matrix)
    (cs cs' : list (list float)) :
  rect (Z.to_nat (k c)) (Z.to_nat (m c)) cs ->
  seed mem c cs = Ok cs' -> rect (Z.to_nat (k c)) (Z.to_nat (m c)) cs'.
Proof.
  intros Hr Hrun. unfold seed in Hrun.
  apply bind_Ok in Hrun. destruct Hrun as ([h x] & Hrun & Hret).
  injection Hret as <-.
  apply (for_each_inv (fun st => rect (Z.to_nat (k c)) (Z.to_nat (m c)) (snd st))
           (seed_step mem c) _ (num_na c, cs) (h, x)) in Hrun; auto.
  intros i [h0 x0] [h1 x1] _ Hrx Hb. unfold seed_step in Hb. simpl in *.
  bind_inv Hb as y Hy. injection Hb as _ <-.
  eapply copy_cells_shape; eauto.
Qed.

Lemma alloc_rows_eq (kk mm : Z) :
  0 <= kk -> 0 <= mm ->
  alloc_rows kk mm = Ok (replicate (Z.to_nat kk) (replicate (Z.to_nat mm) 0%float)).
Proof.
  intros Hk Hm. unfold alloc_rows, AllocArray.
  destruct (Z.ltb_spec kk 0); [lia|]. simpl. rewrite upto_0.
  set (row := replicate (Z.to_nat mm) 0%float).
  set (outer := replicate (Z.to_nat kk) ([] : list float)).
  destruct (for_each_total
    (fun pre a => a = replicate (length pre) row ++ drop (length pre) outer)
    (alloc_row mm) (seq 0 (Z.to_nat kk)) outer) as (a & Hrun & HP).
  - simpl. rewrite drop_0. reflexivity.
  - intros pre i suf a Hidx ->. apply seq_split_at in Hidx.
    destruct Hidx as (_ & Hi & Hlt & _). simpl in Hi. subst i.
    unfold alloc_row, AllocArray. destruct (Z.ltb_spec mm 0); [lia|]. simpl.
    unfold put. rewrite bool_decide_true.
    2:{ unfold outer. rewrite length_app, length_replicate, length_drop, length_replicate. lia. }
    eexists. split; [reflexivity|].
    rewrite length_app. simpl length. rewrite Nat.add_1_r.
    apply insert_replicate_prefix. unfold outer. rewrite length_replicate. lia.
  - rewrite Hrun, HP, length_seq. unfold outer.
    rewrite drop_ge, app_nil_r by (rewrite length_replicate; lia). reflexivity.
Qed.

Lemma alloc_rows_Ok (kk mm : Z) (a : list (list float)) :
  alloc_rows kk mm = Ok a ->
  0 <= kk /\
  a = replicate (Z.to_nat kk) (replicate (Z.to_nat mm) 0%float).
Proof.
  intros H. assert (Hk : 0 <= kk).
  { unfold alloc_rows in H. apply bind_Ok in H. destruct H as (o & Ho & _).
    apply AllocArray_Ok in Ho. tauto. }
  split; [exact Hk|].
  destruct (Z.eq_dec kk 0) as [->|Hne].
  - vm_compute in H. injection H as <-. reflexivity.
  - destruct (Z.ltb_spec mm 0) as [Hneg|Hpos].
    + exfalso. unfold alloc_rows, AllocArray in H.
      destruct (Z.ltb_spec kk 0); [lia|]. simpl in H.
      rewrite upto_0 in H.
      destruct (Z.to_nat kk) as [|kn] eqn:Ek; [lia|]. simpl in H.
      unfold alloc_row at 1, AllocArray in H.
      destruct (Z.ltb_spec mm 0); [|lia]. simpl in H. discriminate.
    + rewrite alloc_rows_eq in H by lia. congruence.
Qed.

Lemma k_means_init_spec (mem : rowstore) (c : cluster_bed_matrix) (s : kstate) :
  k_means_init mem c = Ok s ->
  kshape c s /\ ks_error s = DBL_MAX /\
  ks_labels s = replicate (Z.to_nat (n c)) 0 /\ 0 <= k c /\ 0 <= n c.
Proof.
  unfold k_means_init. intros H.
  bind_inv H as ls Hls. apply AllocArray_Ok in Hls.
  bind_inv H as sz Hsz. apply AllocArray_Ok in Hsz.
  bind_inv H as a0 Ha0. apply alloc_rows_Ok in Ha0.
  bind_inv H as a1 Ha1. apply alloc_rows_Ok in Ha1.
  bind_inv H as cs Hcs. injection H as <-.
  destruct Hls as [? ->], Hsz as [? ->], Ha0 as (? & ->), Ha1 as (? & ->).
  simpl. repeat split; auto; simpl.
  - apply length_replicate.
  - apply length_replicate.
  - apply (seed_shape _ _ _ _ (rect_replicate _ _ _) Hcs).
  - apply (seed_shape _ _ _ _ (rect_replicate _ _ _) Hcs).
  - apply length_replicate.
  - apply Forall_replicate, length_replicate.
Qed.

(** ** One iteration *)

Lemma iteration_spec (mem : rowstore) (c : cluster_bed_matrix) (s s' : kstate) :
  kshape c s ->
  iteration mem c s = Ok s' ->
  kshape c s' /\
  (forall h, h ∉ upto (num_na c) (n c) -> ks_labels s' !! h = ks_labels s !! h) /\
  (forall h, h ∈ upto (num_na c) (n c) ->
     exists l, ks_labels s' !! h = Some l /\ 0 <= l < k c /\
               assigned mem c (ks_centroids s) h (ks_labels s !! h) l) /\
  (exists mins, Forall2 (row_min mem c (ks_centroids s)) (upto (num_na c) (n c)) mins /\
                ks_error s' = fold_left PrimFloat.add mins 0%float) /\
  sum_sizes (ks_sizes s') = Z.of_nat (length (upto (num_na c) (n c))) /\
  (forall i, ks_sizes s' !! i = Some 0 ->
             ks_centroids s' !! i = Some (replicate (Z.to_nat (m c)) 0%float)).
Proof.
  intros [Hl Hs Hc Hc1] Hrun. unfold iteration in Hrun.
  rewrite clear_steps in Hrun by assumption. simpl in Hrun.
  bind_inv Hrun as s1 Hrows.
  bind_inv Hrun as cs Hupd.
  injection Hrun as <-. simpl.
  unfold upto in Hrows |- *.
  apply rows_loop in Hrows.
  2:{ constructor; simpl; auto using rect_replicate, length_replicate. }
  simpl in Hrows.
  destruct Hrows as ([Hl1 Hs1 Hcs1 Hc11] & Hcs & Hout & Hin & Hmins & Hsum & Hmono).
  destruct (update_steps _ _ _ _ _ Hcs1 Hc11 Hupd) as [Hrcs Hempty].
  split; [constructor; simpl; auto|].
  split; [intros h Hh; apply Hout; rewrite elem_of_seq in Hh; lia|].
  split; [intros h Hh; apply Hin; rewrite elem_of_seq in Hh; lia|].
  split; [exact Hmins|].
  split; [rewrite Hsum, sum_sizes_replicate, length_seq; lia|].
  intros i Hi. destruct (Hmono i 0 Hi) as (z1 & Hz1 & Hle & Hsame).
  apply lookup_replicate in Hz1. destruct Hz1 as [-> Hik].
  apply Hempty; [exact Hi|]. rewrite Hsame by reflexivity.
  apply lookup_replicate. auto.
Qed.

Lemma loop_head_shape (mem : rowstore) (c : cluster_bed_matrix) (s : kstate) :
  loop_head mem c s -> kshape c s.
Proof.
  induction 1 as [s Hinit|s s' _ IH Hit].
  - apply k_means_init_spec in Hinit. tauto.
  - apply (iteration_spec _ _ _ _ IH Hit).
Qed.

(** ** The do-while loop *)

Lemma run_trace_cons (t prev e : float) (rest : list float) :
  (t <? fabs (e - prev))%float = true -> run_trace t e rest ->
  run_trace t prev (e :: rest).
Proof. intros H1 H2. destruct rest; [contradiction|]. split; assumption. Qed.

Lemma main_loop_spec (mem : rowstore) (c : cluster_bed_matrix) (t : float)
    (fuel : nat) :
  forall s tr s' tr',
    main_loop mem fuel c t s tr = Ok (s', tr') ->
    exists sp new,
      (loop_head mem c s -> loop_head mem c sp) /\
      iteration mem c sp = Ok s' /\
      tr' = new ++ tr /\ hd_error new = Some (ks_error s') /\
      run_trace t (ks_error s) (rev new).
Proof.
  induction fuel as [|fuel IH]; intros s tr s' tr' Hrun; simpl in Hrun; [discriminate|].
  bind_inv Hrun as s1 Hit.
  destruct (t <? fabs (ks_error s1 - ks_error s))%float eqn:Et.
  - destruct (IH _ _ _ _ Hrun) as (sp & new & Hlh & Hlast & Htr & Hhd & Hrt).
    exists sp, (new ++ [ks_error s1]). split; [|split; [|split; [|split]]].
    + intros Hs. apply Hlh. eapply loop_head_next; eauto.
    + exact Hlast.
    + rewrite <- app_assoc. exact Htr.
    + destruct new; [contradiction|]. exact Hhd.
    + rewrite rev_app_distr. simpl. apply run_trace_cons; assumption.
  - injection Hrun as <- <-. exists s, [ks_error s1].
    split; [auto|]. split; [exact Hit|].
    split; [reflexivity|]. split; [reflexivity|]. simpl. exact Et.
Qed.

Lemma k_means_spec (mem : rowstore) (fuel : nat) (c c' : cluster_bed_matrix)
    (t : float) (labels : list Z) (trace : list float) :
  k_means mem fuel c t = Ok (c', labels, trace) ->
  exists sp s',
    loop_head mem c sp /\ iteration mem c sp = Ok s' /\
    c' = mkCbm (pbm c) (m c) (n c) (k c) (num_na c) (ks_centroids s') (ks_sizes s') /\
    labels = ks_labels s' /\
    hd_error trace = Some (ks_error s') /\
    run_trace t DBL_MAX (rev trace).
Proof.
  unfold k_means. intros H.
  bind_inv H as s0 Hinit.
  bind_inv H as [s tr] Hloop.
  injection H as <- <- <-.
  destruct (main_loop_spec _ _ _ _ _ _ _ _ Hloop) as (sp & new & Hlh & Hit & Htr & Hhd & Hrt).
  exists sp, s. rewrite app_nil_r in Htr. subst tr.
  destruct (k_means_init_spec _ _ _ Hinit) as (_ & He & _).
  rewrite He in Hrt.
  repeat split; auto. apply Hlh. apply loop_head_init. exact Hinit.
Qed.

(** The labels [k_means] returns for the active rows lie in [[0, k)]. *)
Lemma k_means_labels (mem : rowstore) (fuel : nat) (c c' : cluster_bed_matrix)
    (t : float) (labels : list Z) (trace : list float) :
  k_means mem fuel c t = Ok (c', labels, trace) ->
  forall h, h ∈ upto (num_na c) (n c) ->
            exists l, labels !! h = Some l /\ 0 <= l < k c.
Proof.
  intros H h Hh.
  destruct (k_means_spec _ _ _ _ _ _ _ H) as (sp & s' & Hlh & Hit & _ & -> & _).
  destruct (iteration_spec _ _ _ _ (loop_head_shape _ _ _ Hlh) Hit) as (_ & _ & Hin & _).
  destruct (Hin h Hh) as (l & Hl & Hr & _). eauto.
Qed.

(** ** Finalization *)

Lemma relabel_loop (labels : list Z) (lo len : nat) (arr arr' : list perBaseWig) :
  for_each (seq lo len) (relabel_step labels) arr = Ok arr' ->
  length arr' = length arr /\
  (forall i, ~ (lo <= i < lo + len)%nat -> arr' !! i = arr !! i) /\
  (forall i, (lo <= i < lo + len)%nat ->
     exists w l, arr !! i = Some w /\ labels !! i = Some l /\
                 arr' !! i = Some (set_label l w)).
Proof.
  intros Hrun.
  pose (P := fun (pre : list nat) (x : list perBaseWig) =>
    length x = length arr /\
    (forall i, i ∉ pre -> x !! i = arr !! i) /\
    (forall i, i ∈ pre -> exists w l, arr !! i = Some w /\ labels !! i = Some l /\
                                      x !! i = Some (set_label l w))).
  assert (HP : P (seq lo len) arr').
  { apply (for_each_ind P (relabel_step labels) _ arr); [ | | exact Hrun].
    - split; [reflexivity|]. split; [auto|]. intros i Hi. inversion Hi.
    - intros pre i suf x x' Hidx (Hlen & Hout & Hin) Hb.
      apply seq_split_at in Hidx. destruct Hidx as (Hpre & Hi & _ & _).
      assert (Hnotin : i ∉ pre) by (rewrite Hpre, Hi; apply not_in_seq_prefix).
      unfold relabel_step, store_label in Hb.
      bind_inv Hb as l Hl. apply get_Ok in Hl.
      bind_inv Hb as w Hw. apply get_Ok in Hw.
      apply put_Ok in Hb. destruct Hb as [Hlt ->].
      split; [rewrite length_insert; exact Hlen|]. split.
      + intros j Hj. rewrite not_elem_of_app in Hj. destruct Hj as [Hj1 Hj2].
        rewrite list_lookup_insert_ne; [auto|]. intros ->. apply Hj2. left.
      + intros j Hj. apply elem_of_app in Hj. destruct Hj as [Hj|Hj].
        * rewrite list_lookup_insert_ne by (intros ->; contradiction). auto.
        * apply list_elem_of_singleton in Hj. subst j.
          exists w, l. rewrite <- (Hout i Hnotin).
          rewrite list_lookup_insert_eq by exact Hlt. auto. }
  destruct HP as (Hlen & Hout & Hin). split; [exact Hlen|]. split.
  - intros i Hi. apply Hout. rewrite elem_of_seq. lia.
  - intros i Hi. apply Hin. rewrite elem_of_seq. lia.
Qed.

Section Finalization.

Variable qsort :
  (perBaseWig -> perBaseWig -> Z) -> list perBaseWig -> list perBaseWig.
Hypothesis Hq : qsort_spec qsort.
Variable mem : rowstore.

(** What [do_kmeans] leaves: the descriptors [arr2], relabelled in place,
    then sorted, and the row pointers rebuilt from them. *)
Lemma do_kmeans_spec (fuel : nat) (c c' : cluster_bed_matrix) (t : float) :
  wf_cbm mem c ->
  do_kmeans qsort mem fuel c t = Ok c' ->
  exists arr2,
    array (pbm c') = qsort perBaseWigLabelCmp arr2 /\
    matrix (pbm c') = map data (array (pbm c')) /\
    nrow (pbm c') = nrow (pbm c) /\ ncol (pbm c') = ncol (pbm c) /\
    m c' = m c /\ n c' = n c /\ k c' = k c /\ num_na c' = num_na c /\
    length arr2 = length (array (pbm c)) /\
    forall (i : nat) w2, arr2 !! i = Some w2 ->
      exists w, array (pbm c) !! i = Some w /\ data w2 = data w /\
        (Z.of_nat i < num_na c -> w2 = w) /\
        (num_na c <= Z.of_nat i -> 0 <= label w2 < k c).
Proof.
  intros Hwf Hrun. unfold do_kmeans in Hrun.
  bind_inv Hrun as [[c1 labels] trace] Hkm.
  bind_inv Hrun as arr2 Hrel.
  bind_inv Hrun as arr3 Hsort.
  bind_inv Hrun as mat3 Hsync.
  injection Hrun as <-. simpl.
  assert (Hlabels := k_means_labels _ _ _ _ _ _ _ Hkm).
  destruct (k_means_spec _ _ _ _ _ _ _ Hkm) as (sp & s' & _ & _ & -> & _).
  simpl in *. destruct Hwf as [Hn Hm Hlen Hint Hmp Hna Hsy Hrows Hex Hac].
  unfold upto in Hrel. apply relabel_loop in Hrel.
  destruct Hrel as (Hlen2 & Hout & Hin).
  assert (Hnr : nrow (pbm c) = Z.of_nat (length arr2)) by (rewrite Hlen2; lia).
  rewrite Hnr in Hsort. rewrite qsort_array_eq in Hsort. injection Hsort as <-.
  assert (Hnr3 : nrow (pbm c) = Z.of_nat (length (qsort perBaseWigLabelCmp arr2))).
  { rewrite (qsort_length qsort Hq). exact Hnr. }
  rewrite Hnr3 in Hsync. rewrite sync_matrix_eq in Hsync.
  2:{ rewrite (qsort_length qsort Hq), Hlen2, Hsy, length_map. reflexivity. }
  injection Hsync as <-.
  exists arr2. repeat split; auto.
  intros i w2 Hi.
  destruct (decide (Z.to_nat (num_na c) <= i)%nat) as [Hge|Hlt].
  - destruct (Hin i) as (w & l & Hw & Hl & Hw2).
    { apply lookup_lt_Some in Hi. lia. }
    rewrite Hi in Hw2. injection Hw2 as ->.
    exists w. split; [exact Hw|]. split; [reflexivity|]. split; [lia|].
    intros _. simpl. destruct (Hlabels i) as (l' & Hl' & Hr).
    { unfold upto. rewrite elem_of_seq. apply lookup_lt_Some in Hi. lia. }
    congruence.
  - rewrite Hout in Hi by lia. exists w2.
    split; [exact Hi|]. split; [reflexivity|]. split; [auto|lia].
Qed.

End Finalization.

(** ** The labelled array before and after the final sort *)

Lemma filter_all {A : Type} (P : A -> Prop) `{forall x, Decision (P x)} (l : list A) :
  Forall P l -> filter P l = l.
Proof.
  induction 1 as [|x l Hx _ IH]; [reflexivity|].
  rewrite filter_cons_True by assumption. f_equal. exact IH.
Qed.

Lemma filter_none {A : Type} (P : A -> Prop) `{forall x, Decision (P x)} (l : list A) :
  Forall (fun x => ~ P x) l -> filter P l = [].
Proof.
  induction 1 as [|x l Hx _ IH]; [reflexivity|].
  rewrite filter_cons_False by assumption. exact IH.
Qed.


Section Finalized.

Variable qsort :
  (perBaseWig -> perBaseWig -> Z) -> list perBaseWig -> list perBaseWig.
Hypothesis Hq : qsort_spec qsort.
Variable mem : rowstore.

(** The descriptors as [do_kmeans] hands them to [qsort]. *)
Lemma relabelled_rows (c : cluster_bed_matrix) (arr2 : list perBaseWig) :
  wf_cbm mem c ->
  k c <= INT_MAX ->
  length arr2 = length (array (pbm c)) ->
  (forall (i : nat) w2, arr2 !! i = Some w2 ->
     exists w, array (pbm c) !! i = Some w /\ data w2 = data w /\
       (Z.of_nat i < num_na c -> w2 = w) /\
       (num_na c <= Z.of_nat i -> 0 <= label w2 < k c)) ->
  (forall (i : nat) w2, arr2 !! i = Some w2 ->
     (Z.of_nat i < num_na c ->
        label w2 = -1 /\ nan_row mem (m c) (data w2) = true) /\
     (num_na c <= Z.of_nat i ->
        0 <= label w2 < k c /\ nan_row mem (m c) (data w2) = false)) /\
  length (filter (fun w => label w = -1) arr2) = Z.to_nat (num_na c).
Proof.
  intros Hwf Hk Hlen Hrows.
  assert (Hidx : forall (i : nat) w2, arr2 !! i = Some w2 ->
     (Z.of_nat i < num_na c ->
        label w2 = -1 /\ nan_row mem (m c) (data w2) = true) /\
     (num_na c <= Z.of_nat i ->
        0 <= label w2 < k c /\ nan_row mem (m c) (data w2) = false)).
  { intros i w2 Hi. destruct (Hrows i w2 Hi) as (w & Hw & Hd & Hlo & Hhi). split.
    - intros Hlt. rewrite (Hlo Hlt). apply (wc_excluded _ _ Hwf i w Hw Hlt).
    - intros Hge. split; [auto|]. rewrite Hd. apply (wc_active _ _ Hwf i w Hw Hge). }
  split; [exact Hidx|].
  destruct (wc_na _ _ Hwf) as [Hna0 Hnan]. pose proof (wc_len _ _ Hwf) as Hn.
  rewrite <- (take_drop (Z.to_nat (num_na c)) arr2) at 1.
  rewrite filter_app, length_app, filter_all, filter_none.
  - simpl. rewrite length_take. lia.
  - apply Forall_lookup_2. intros i w Hi. rewrite lookup_drop in Hi.
    destruct (Hidx _ _ Hi) as [_ Hhi]. destruct Hhi as [Hr _]; lia.
  - apply Forall_lookup_2. intros i w Hi. apply lookup_take_Some in Hi.
    destruct Hi as [Hi Hlt]. destruct (Hidx _ _ Hi) as [Hlo _].
    destruct Hlo as [Hl _]; [lia | exact Hl].
Qed.

(** The same descriptors once sorted. *)
Lemma sorted_rows (c : cluster_bed_matrix) (arr2 : list perBaseWig) :
  wf_cbm mem c ->
  k c <= INT_MAX ->
  length arr2 = length (array (pbm c)) ->
  (forall (i : nat) w2, arr2 !! i = Some w2 ->
     exists w, array (pbm c) !! i = Some w /\ data w2 = data w /\
       (Z.of_nat i < num_na c -> w2 = w) /\
       (num_na c <= Z.of_nat i -> 0 <= label w2 < k c)) ->
  StronglySorted (fun a b => label a <= label b) (qsort perBaseWigLabelCmp arr2) /\
  (forall (i : nat) w, qsort perBaseWigLabelCmp arr2 !! i = Some w ->
     (Z.of_nat i < num_na c ->
        label w = -1 /\ nan_row mem (m c) (data w) = true) /\
     (num_na c <= Z.of_nat i ->
        0 <= label w < k c /\ nan_row mem (m c) (data w) = false)).
Proof.
  intros Hwf Hk Hlen Hrows.
  destruct (relabelled_rows c arr2 Hwf Hk Hlen Hrows) as [Hidx Hcount].
  set (arr3 := qsort perBaseWigLabelCmp arr2).
  assert (Hperm : arr3 ≡ₚ arr2) by apply Hq.
  assert (Hel : forall w, w ∈ arr2 ->
            (label w = -1 /\ nan_row mem (m c) (data w) = true) \/
            (0 <= label w < k c /\ nan_row mem (m c) (data w) = false)).
  { intros w Hw. apply list_elem_of_lookup_1 in Hw. destruct Hw as [i Hi].
    destruct (Hidx i w Hi) as [Hlo Hhi].
    destruct (Z.lt_ge_cases (Z.of_nat i) (num_na c)) as [Hlt|Hge]; auto. }
  assert (Hsorted : StronglySorted (fun a b => label a <= label b) arr3).
  { apply Hq. apply label_cmp_by_key. intros w Hw.
    destruct (Hel w Hw) as [[-> _]|[Hr _]]; unfold INT_MAX in *; lia. }
  split; [exact Hsorted|]. intros i w Hi.
  assert (Hw : w ∈ arr2).
  { rewrite <- Hperm. eapply list_elem_of_lookup_2; eauto. }
  assert (Hfirst : label w = -1 <-> (i < Z.to_nat (num_na c))%nat).
  { rewrite <- Hcount, <- Hperm. apply sorted_minus_one_first; auto.
    intros w' Hw'. rewrite Hperm in Hw'.
    destruct (Hel w' Hw') as [[-> _]|[Hr _]]; lia. }
  destruct (wc_na _ _ Hwf) as [Hna0 _].
  split; intros Hcmp.
  - destruct (Hel w Hw) as [Ha|[Hr _]]; [exact Ha|].
    assert (label w = -1) by (apply Hfirst; lia). lia.
  - destruct (Hel w Hw) as [[Hl _]|Hb]; [|exact Hb].
    apply Hfirst in Hl. lia.
Qed.

End Finalized.

(** ** Seeding is total on well-formed states *)

Lemma rev_seq_split_at (mm : nat) (pre suf : list nat) (j : nat) :
  rev (seq 0 mm) = pre ++ j :: suf -> (j + length pre + 1 = mm)%nat.
Proof.
  intros H. apply (f_equal (@rev nat)) in H.
  rewrite rev_involutive, rev_app_distr in H. simpl in H.
  rewrite <- app_assoc in H. simpl in H.
  apply seq_split_at in H. destruct H as (_ & Hj & Hlt & Hsuf).
  apply (f_equal (@length nat)) in Hsuf.
  rewrite length_rev, length_seq in Hsuf. simpl in Hj. lia.
Qed.

Lemma insert_take_drop_down {A : Type} (l r : list A) (j : nat) (y : A) :
  r !! j = Some y -> (j < length l)%nat ->
  <[j := y]> (take (S j) l ++ drop (S j) r) = take j l ++ drop j r.
Proof.
  intros Hy Hj. destruct (lookup_lt_is_Some_2 l j Hj) as [z Hz].
  rewrite (take_S_r _ _ _ Hz), (drop_S _ _ _ Hy), <- app_assoc.
  rewrite insert_app_r_alt; rewrite length_take; [|lia].
  replace (j - j `min` length l)%nat with 0%nat by lia. reflexivity.
Qed.

Lemma copy_cells_total (mem : rowstore) (mat : list ptr) (h : Z) (i : nat)
    (kk mm : nat) (cs : list (list float)) p r :
  0 <= h -> mat !! Z.to_nat h = Some p -> mem !! p = Some r -> length r = mm ->
  rect kk mm cs -> (i < kk)%nat ->
  for_each (rev (seq 0 mm)) (copy_cell mem mat h i) cs = Ok (<[i := r]> cs).
Proof.
  intros Hh Hp Hr Hlen Hrect Hi.
  destruct (lookup_lt_is_Some_2 cs i) as [ci Hci]; [destruct Hrect; lia|].
  destruct (rect_lookup _ _ _ _ _ Hrect Hci) as [Hcil _].
  destruct (for_each_total
    (fun pre x => x = <[i := take (mm - length pre) ci ++ drop (mm - length pre) r]> cs)
    (copy_cell mem mat h i) (rev (seq 0 mm)) cs) as (x & Hrun & HP).
  - simpl. rewrite Nat.sub_0_r, take_ge, drop_ge, app_nil_r by lia.
    rewrite list_insert_id; auto.
  - intros pre j suf x Hidx ->. apply rev_seq_split_at in Hidx.
    destruct (lookup_lt_is_Some_2 r j) as [y Hy]; [lia|].
    unfold copy_cell. destruct (Z.ltb_spec h 0); [lia|].
    assert (Hc : cell mem mat (Z.to_nat h) j = Ok y) by (apply cell_Ok; eauto).
    rewrite Hc. simpl. unfold get.
    rewrite list_lookup_insert_eq by (destruct Hrect; lia). simpl.
    unfold put. rewrite !bool_decide_true.
    2:{ rewrite length_insert. destruct Hrect; lia. }
    2:{ rewrite length_app, length_take, length_drop. lia. }
    simpl. eexists. split; [reflexivity|].
    rewrite list_insert_insert_eq. f_equal.
    rewrite length_app. simpl length.
    replace (mm - length pre)%nat with (S j) by lia.
    replace (mm - (length pre + 1))%nat with j by lia.
    apply insert_take_drop_down; [exact Hy | lia].
  - rewrite Hrun, HP. do 2 f_equal.
    rewrite length_rev, length_seq, Nat.sub_diag. simpl. apply drop_0.
Qed.

Lemma seed_index_range (c : cluster_bed_matrix) (i : nat) :
  0 <= num_na c -> num_na c < n c -> 0 < k c -> Z.of_nat i < k c ->
  num_na c <= seed_index c i < n c /\
  Z.quot (n c - num_na c) (k c) = (n c - num_na c) / k c.
Proof.
  intros Hna Hact Hk Hi. unfold seed_index.
  rewrite Z.quot_div_nonneg by lia.
  pose proof (Z.mul_div_le (n c - num_na c) (k c) Hk).
  pose proof (Z.div_pos (n c - num_na c) (k c)).
  split; [|reflexivity]. nia.
Qed.

Lemma seed_total (mem : rowstore) (c : cluster_bed_matrix) (cs0 : list (list float)) :
  wf_cbm mem c -> 0 < k c -> num_na c < n c ->
  rect (Z.to_nat (k c)) (Z.to_nat (m c)) cs0 ->
  seed mem c cs0 = Ok (map (seed_row mem c) (seq 0 (Z.to_nat (k c)))).
Proof.
  intros Hwf Hk Hact Hrect. unfold seed. rewrite upto_0.
  set (kk := Z.to_nat (k c)) in *. set (mm := Z.to_nat (m c)) in *.
  destruct (wc_na _ _ Hwf) as [Hna0 _].
  destruct (for_each_total
    (fun pre (st : Z * list (list float)) =>
       fst st = seed_index c (length pre) /\
       snd st = map (seed_row mem c) (seq 0 (length pre)) ++ drop (length pre) cs0)
    (seed_step mem c) (seq 0 kk) (num_na c, cs0)) as (st & Hrun & HP1 & HP2).
  - simpl. rewrite drop_0. unfold seed_index. split; [lia|reflexivity].
  - intros pre i suf [h x] Hidx [Hh Hx]. simpl in Hh, Hx. subst h x.
    apply seq_split_at in Hidx. destruct Hidx as (_ & Hi & Hlt & _).
    simpl in Hi. subst i.
    destruct (seed_index_range c (length pre)) as [Hrange Hquot]; try lia.
    pose proof (wc_len _ _ Hwf) as Hlen.
    destruct (lookup_lt_is_Some_2 (array (pbm c)) (Z.to_nat (seed_index c (length pre))))
      as [w Hw]; [lia|].
    destruct (wc_rows _ _ Hwf w) as (r & Hr & Hrl);
      [eapply list_elem_of_lookup_2; eauto|].
    assert (Hp : matrix (pbm c) !! Z.to_nat (seed_index c (length pre)) = Some (data w)).
    { rewrite (wc_sync _ _ Hwf), list_lookup_fmap, Hw. reflexivity. }
    unfold seed_step. simpl. unfold downfrom. fold mm.
    rewrite (copy_cells_total mem _ _ _ kk mm _ (data w) r); try lia; auto.
    + simpl. eexists. split; [reflexivity|]. simpl. split.
      * rewrite Hquot, length_app. simpl length. unfold seed_index. lia.
      * rewrite length_app. simpl length. rewrite Nat.add_1_r.
        rewrite seq_S, map_app. simpl.
        destruct (lookup_lt_is_Some_2 cs0 (length pre)) as [z Hz];
          [destruct Hrect; lia|].
        rewrite (drop_S _ _ _ Hz), <- app_assoc. simpl.
        rewrite insert_app_r_alt; rewrite length_map, length_seq; [|lia].
        rewrite Nat.sub_diag. simpl. do 2 f_equal.
        unfold seed_row. rewrite Hp. unfold row_of. rewrite Hr. reflexivity.
    + destruct Hrect as [Hl Hf]. split.
      * rewrite length_app, length_map, length_seq, length_drop. lia.
      * apply Forall_app. split; [|apply Forall_drop; exact Hf].
        apply Forall_forall. intros x Hx. apply list_elem_of_fmap in Hx.
        destruct Hx as (i' & -> & Hi'). apply elem_of_seq in Hi'.
        destruct (seed_index_range c i') as [Hrange' _]; try lia.
        unfold seed_row.
        destruct (lookup_lt_is_Some_2 (array (pbm c)) (Z.to_nat (seed_index c i')))
          as [w' Hw']; [lia|].
        rewrite (wc_sync _ _ Hwf), list_lookup_fmap, Hw'. simpl.
        destruct (wc_rows _ _ Hwf w') as (r' & Hr' & Hrl');
          [eapply list_elem_of_lookup_2; eauto|].
        unfold row_of. rewrite Hr'. simpl. lia.
  - rewrite Hrun. destruct st as [h x]. simpl in *. subst. simpl.
    rewrite length_seq. destruct Hrect as [Hl _].
    rewrite drop_ge, app_nil_r by lia. reflexivity.
Qed.

(** ** Sample inputs are well formed *)

Lemma check_pbm_sound (mem : rowstore) (p : perBaseMatrix) :
  check_pbm mem p = true -> wf_pbm mem p.
Proof.
  unfold check_pbm. rewrite !andb_true_iff.
  intros [[[[[H1 H2] H3] H4] H5] H6].
  apply Z.eqb_eq in H1. apply Z.leb_le in H2, H3. apply bool_decide_eq_true in H4.
  rewrite forallb_forall in H5, H6.
  constructor; auto.
  - intros w Hw. apply list_elem_of_In in Hw. specialize (H5 w Hw).
    destruct (mem !! data w) as [r|]; [|discriminate].
    exists r. split; [reflexivity|]. apply Z.eqb_eq. exact H5.
  - intros w Hw. apply list_elem_of_In in Hw. specialize (H6 w Hw).
    apply andb_true_iff in H6. destruct H6 as [Ha Hb].
    apply Z.leb_le in Ha. apply Z.ltb_lt in Hb. lia.
Qed.

Lemma ex_pbm_wf : wf_pbm ex_mem ex_pbm.
Proof. apply check_pbm_sound. vm_compute. reflexivity. Qed.

Lemma ex_cbm_init : init_cbm_from_pbm sort_early ex_mem ex_pbm 2 = Ok ex_cbm.
Proof. vm_compute. reflexivity. Qed.

Lemma ex_cbm_wf : wf_cbm ex_mem ex_cbm.
Proof.
  destruct (init_cbm_wf sort_early sort_early_spec ex_mem ex_pbm 2 ex_pbm_wf)
    as (c & Hc & Hwf & _).
  rewrite ex_cbm_init in Hc. injection Hc as <-. exact Hwf.
Qed.

(** ** The loop test *)

Lemma isnan_fabs (x : float) : isnan (fabs x) = isnan x.
Proof.
  assert (H : rank_of (fabs x) = None <-> rank_of x = None).
  { unfold rank_of, fabs. rewrite abs_spec.
    destruct (Prim2SF x) as [s|s| |s mx ex]; simpl; split; intros H; auto;
      discriminate. }
  destruct (isnan x) eqn:Ex.
  - apply isnan_rank. apply H. apply isnan_rank. exact Ex.
  - destruct (isnan (fabs x)) eqn:Ea; [|reflexivity].
    apply isnan_rank, H, isnan_rank in Ea. congruence.
Qed.

(** The test [fabs(d) > t] fails when [fabs(d) <= t], and also when [d] or
    [t] is not a number. *)
Lemma loop_test_fails (t d : float) :
  (t <? fabs d)%float = false <->
  (fabs d <=? t)%float = true \/ isnan t = true \/ isnan d = true.
Proof.
  destruct (isnan t) eqn:Et.
  { split; [auto|]. intros _. apply ltb_nan_l. exact Et. }
  destruct (isnan d) eqn:Ed.
  { split; [auto|]. intros _. apply ltb_nan_r. rewrite isnan_fabs. exact Ed. }
  rewrite (ltb_false_leb t (fabs d) Et) by (rewrite isnan_fabs; exact Ed).
  split; [auto|]. intros [H|[H|H]]; [exact H|discriminate|discriminate].
Qed.


(** * The claims *)

(** C1. After [do_kmeans] has completed on a state built by
    [init_cbm_from_pbm], the rows are those of the input; the rows that
    hold a NaN are those at the indices below [num_na], and each is
    labelled [-1]; every other row, at an index in [[num_na, n)], has a
    label in [[0, k)]. *)
Theorem do_kmeans_labels
    (qsort : (perBaseWig -> perBaseWig -> Z) -> list perBaseWig -> list perBaseWig)
    (mem : rowstore) (p : perBaseMatrix) (kk : Z) (fuel : nat) (t : float)
    (c c' : cluster_bed_matrix) :
  qsort_spec qsort ->
  wf_pbm mem p ->
  kk <= INT_MAX ->
  init_cbm_from_pbm qsort mem p kk = Ok c ->
  do_kmeans qsort mem fuel c t = Ok c' ->
  map data (array (pbm c')) ≡ₚ map data (array p) /\
  forall (i : nat) w, array (pbm c') !! i = Some w ->
    (Z.of_nat i < num_na c' <-> nan_row mem (ncol p) (data w) = true) /\
    (nan_row mem (ncol p) (data w) = true -> label w = -1) /\
    (nan_row mem (ncol p) (data w) = false -> 0 <= label w < kk).
Proof.
  intros Hq Hp Hkk Hinit Hrun.
  destruct (init_cbm_wf qsort Hq mem p kk Hp)
    as (c0 & Hc0 & Hwf & Hk & Hm & Hn & _ & _ & Hperm & _).
  rewrite Hinit in Hc0. injection Hc0 as <-.
  destruct (do_kmeans_spec qsort Hq mem fuel c c' t Hwf Hrun)
    as (arr2 & Harr & Hmat & _ & _ & _ & _ & _ & Hna & Hlen & Hrows).
  assert (Hk' : k c <= INT_MAX) by (rewrite Hk; exact Hkk).
  destruct (sorted_rows qsort Hq mem c arr2 Hwf Hk' Hlen Hrows) as [_ Hidx].
  split.
  - rewrite Harr. transitivity (map data arr2).
    { apply Permutation_map. apply Hq. }
    replace (map data arr2) with (map data (array (pbm c))).
    { rewrite Hperm. rewrite map_map.
      apply Permutation_refl'. apply map_ext. intros w. apply mark_data. }
    apply list_eq. intros i. rewrite !list_lookup_fmap.
    destruct (arr2 !! i) as [w2|] eqn:E2.
    + destruct (Hrows i w2 E2) as (w & Hw & Hd & _).
      rewrite Hw. simpl. rewrite Hd. reflexivity.
    + apply lookup_ge_None in E2. rewrite Hlen in E2.
      apply lookup_ge_None in E2. rewrite E2. reflexivity.
  - intros i w Hi. rewrite Harr in Hi. rewrite Hna, <- Hm, <- Hk.
    destruct (Hidx i w Hi) as [Hlo Hhi].
    destruct (Z.lt_ge_cases (Z.of_nat i) (num_na c)) as [Hlt|Hge].
    + destruct (Hlo Hlt) as [Hl Hnan]. rewrite Hnan.
      split; [tauto|]. split; [auto|discriminate].
    + destruct (Hhi Hge) as [Hl Hnan]. rewrite Hnan.
      split; [split; [lia|discriminate]|]. split; [discriminate|auto].
Qed.

Lemma do_kmeans_labels_witness :
  map data (array (pbm ex_final)) ≡ₚ map data (array ex_pbm) /\
  forall (i : nat) w, array (pbm ex_final) !! i = Some w ->
    (Z.of_nat i < num_na ex_final <-> nan_row ex_mem (ncol ex_pbm) (data w) = true) /\
    (nan_row ex_mem (ncol ex_pbm) (data w) = true -> label w = -1) /\
    (nan_row ex_mem (ncol ex_pbm) (data w) = false -> 0 <= label w < 2).
Proof.
  apply (do_kmeans_labels sort_early ex_mem ex_pbm 2 10 ex_t ex_cbm ex_final).
  - exact sort_early_spec.
  - exact ex_pbm_wf.
  - unfold INT_MAX. lia.
  - vm_compute. reflexivity.
  - vm_compute. reflexivity.
Defined.



(** C3, as the code has it.  Whenever [k_means] returns, its loop body
    has run at least once (the loop is a do-while, entered with
    [DBL_MAX] as the previous error), the test
    [fabs(error - old_error) > t] held after every iteration but the
    last and failed after the last; and that test fails exactly when the
    difference is within [t], or the difference or [t] is not a
    number. *)
Theorem k_means_loop_exit (mem : rowstore) (fuel : nat) (c c' : cluster_bed_matrix)
    (t : float) (labels : list Z) (trace : list float) :
  k_means mem fuel c t = Ok (c', labels, trace) ->
  (exists e rest, trace = e :: rest) /\
  run_trace t DBL_MAX (rev trace) /\
  (forall prev e : float,
     (t <? fabs (e - prev))%float = false <->
     (fabs (e - prev) <=? t)%float = true \/ isnan t = true \/
     isnan (e - prev)%float = true).
Proof.
  intros Hrun.
  destruct (k_means_spec _ _ _ _ _ _ _ Hrun) as (sp & s' & _ & _ & _ & _ & Hhd & Hrt).
  split; [|split].
  - destruct trace as [|e rest]; [discriminate|]. eauto.
  - exact Hrt.
  - intros prev e. apply loop_test_fails.
Qed.

Lemma k_means_loop_exit_witness :
  (exists e rest, snd ex_km = e :: rest) /\
  run_trace ex_t DBL_MAX (rev (snd ex_km)) /\
  (forall prev e : float,
     (ex_t <? fabs (e - prev))%float = false <->
     (fabs (e - prev) <=? ex_t)%float = true \/ isnan ex_t = true \/
     isnan (e - prev)%float = true).
Proof.
  apply (k_means_loop_exit ex_mem 10 ex_cbm (fst (fst ex_km)) ex_t
           (snd (fst ex_km)) (snd ex_km)).
  vm_compute. reflexivity.
Defined.

(** C3 as stated fails: on three finite rows, two of them far from the
    seed, the error is infinite in the first iteration and again in the
    second; the loop then exits, with a difference that is not within
    the tolerance (it is not a number). *)
Lemma k_means_exit_not_within_tolerance :
  k_means big_mem 10 big_cbm ex_t =
    Ok (fst (fst big_km), snd (fst big_km), [infinity; infinity]) /\
  (ex_t <? fabs (infinity - infinity))%float = false /\
  (fabs (infinity - infinity) <=? ex_t)%float = false.
Proof. repeat split; vm_compute; reflexivity. Qed.

(** C4. On a state as [init_cbm_from_pbm] leaves it, with [0 < k],
    [0 < m] and at least one active row, the setup of [k_means]
    succeeds, and before any
    iteration runs the centroid of cluster [i], for every [i] in
    [[0, k)], holds the values of the matrix row at index
    [num_na + i * floor((n - num_na) / k)], an index within
    [[num_na, n)]. *)
Theorem k_means_seeding (mem : rowstore) (c : cluster_bed_matrix) :
  wf_cbm mem c ->
  0 < k c ->
  0 < m c ->
  num_na c < n c ->
  exists s0,
    k_means_init mem c = Ok s0 /\
    ks_centroids s0 = map (seed_row mem c) (seq 0 (Z.to_nat (k c))) /\
    forall i : nat, Z.of_nat i < k c ->
      num_na c <= seed_index c i < n c /\
      exists p r, matrix (pbm c) !! Z.to_nat (seed_index c i) = Some p /\
                  mem !! p = Some r /\ Z.of_nat (length r) = m c /\
                  ks_centroids s0 !! i = Some r.
Proof.
  intros Hwf Hk Hm Hact. destruct (wc_na _ _ Hwf) as [Hna0 _].
  pose proof (wc_len _ _ Hwf) as Hlen.
  unfold k_means_init. rewrite !alloc_rows_eq by lia. unfold AllocArray.
  destruct (Z.ltb_spec (n c) 0); [lia|]. destruct (Z.ltb_spec (k c) 0); [lia|].
  simpl.
  rewrite (seed_total mem c _ Hwf Hk Hact (rect_replicate _ _ _)). simpl.
  eexists. split; [reflexivity|]. simpl. split; [reflexivity|].
  intros i Hi. destruct (seed_index_range c i) as [Hrange _]; try lia.
  split; [exact Hrange|].
  destruct (lookup_lt_is_Some_2 (array (pbm c)) (Z.to_nat (seed_index c i)))
    as [w Hw]; [lia|].
  destruct (wc_rows _ _ Hwf w) as (r & Hr & Hrl);
    [eapply list_elem_of_lookup_2; eauto|].
  assert (Hp : matrix (pbm c) !! Z.to_nat (seed_index c i) = Some (data w)).
  { rewrite (wc_sync _ _ Hwf), list_lookup_fmap, Hw. reflexivity. }
  exists (data w), r. repeat split; auto.
  rewrite list_lookup_fmap, lookup_seq_lt by lia. simpl.
  unfold seed_row. rewrite Hp. unfold row_of. rewrite Hr. reflexivity.
Qed.

Lemma k_means_seeding_witness :
  exists s0,
    k_means_init ex_mem ex_cbm = Ok s0 /\
    ks_centroids s0 = map (seed_row ex_mem ex_cbm) (seq 0 (Z.to_nat (k ex_cbm))) /\
    forall i : nat, Z.of_nat i < k ex_cbm ->
      num_na ex_cbm <= seed_index ex_cbm i < n ex_cbm /\
      exists p r, matrix (pbm ex_cbm) !! Z.to_nat (seed_index ex_cbm i) = Some p /\
                  ex_mem !! p = Some r /\ Z.of_nat (length r) = m ex_cbm /\
                  ks_centroids s0 !! i = Some r.
Proof.
  apply (k_means_seeding ex_mem ex_cbm).
  - exact ex_cbm_wf.
  - reflexivity.
  - reflexivity.
  - reflexivity.
Defined.

(** C5, as the code has it.  In each iteration every active row whose
    distance to some centroid is below [DBL_MAX] gets the label of the
    first centroid at the least distance: no centroid is closer, and none
    with a lower index is as close.  A row with no distance below
    [DBL_MAX] keeps the label it had.  Either way the label lies in
    [[0, k)]. *)
Theorem iteration_assigns_nearest (mem : rowstore) (c : cluster_bed_matrix)
    (s s' : kstate) :
  loop_head mem c s ->
  iteration mem c s = Ok s' ->
  forall h : nat, h ∈ upto (num_na c) (n c) ->
    exists l ds,
      ks_labels s' !! h = Some l /\ 0 <= l < k c /\
      distances mem c (ks_centroids s) h ds /\
      ((exists i, nearest ds i /\ l = Z.of_nat i) \/
       (out_of_reach ds /\ ks_labels s !! h = Some l)).
Proof.
  intros Hlh Hit h Hh.
  destruct (iteration_spec _ _ _ _ (loop_head_shape _ _ _ Hlh) Hit)
    as (_ & _ & Hin & _).
  destruct (Hin h Hh) as (l & Hl & Hr & ds & Hds & Hcase).
  exists l, ds. auto.
Qed.

Lemma iteration_assigns_nearest_witness :
  exists l ds,
    ks_labels ex_s1 !! 5%nat = Some l /\ 0 <= l < k ex_cbm /\
    distances ex_mem ex_cbm (ks_centroids ex_s0) 5 ds /\
    ((exists i, nearest ds i /\ l = Z.of_nat i) \/
     (out_of_reach ds /\ ks_labels ex_s0 !! 5%nat = Some l)).
Proof.
  apply (iteration_assigns_nearest ex_mem ex_cbm ex_s0 ex_s1).
  - apply loop_head_init. vm_compute. reflexivity.
  - vm_compute. reflexivity.
  - unfold upto. apply elem_of_seq. simpl. lia.
Defined.

(** C5 as stated fails: in the second iteration on [ov_mem] the last row
    is at infinite distance from both centroids, a tie that the claim
    breaks in favour of centroid 0; the row keeps label 1, which it got
    in the first iteration. *)
Lemma iteration_keeps_stale_label :
  loop_head ov_mem ov_cbm ov_s1 /\
  iteration ov_mem ov_cbm ov_s1 = Ok ov_s2 /\
  distances ov_mem ov_cbm (ks_centroids ov_s1) 5 [infinity; infinity] /\
  ks_labels ov_s2 !! 5%nat = Some 1 /\
  first_closest [infinity; infinity] 0 /\
  ~ first_closest [infinity; infinity] 1.
Proof.
  split; [|split; [|split; [|split; [|split]]]].
  - apply (loop_head_next _ _ ov_s0).
    + apply loop_head_init. vm_compute. reflexivity.
    + vm_compute. reflexivity.
  - vm_compute. reflexivity.
  - unfold distances. repeat constructor; vm_compute; reflexivity.
  - reflexivity.
  - exists infinity. split; [reflexivity|]. split.
    + intros [|[|j]] d' Hd'; simpl in Hd'; try discriminate;
        injection Hd' as <-; reflexivity.
    + intros j d' Hj. lia.
  - intros (d & Hd & _ & Hbefore). injection Hd as <-.
    specialize (Hbefore 0%nat infinity). simpl in Hbefore.
    assert (H : (infinity <? infinity)%float = true) by (apply Hbefore; [lia|reflexivity]).
    vm_compute in H. discriminate.
Qed.

(** C6, as the code has it.  At the end of an iteration a cluster that
    received no row has its centroid overwritten with the temporary
    centroid of that iteration, which is the zero vector. *)
Theorem iteration_empty_cluster (mem : rowstore) (c : cluster_bed_matrix)
    (s s' : kstate) :
  loop_head mem c s ->
  iteration mem c s = Ok s' ->
  forall i : nat, ks_sizes s' !! i = Some 0 ->
    ks_centroids s' !! i = Some (replicate (Z.to_nat (m c)) 0%float) /\
    ks_centroids s' !! i = ks_c1 s' !! i.
Proof.
  intros Hlh Hit i Hi.
  destruct (iteration_spec _ _ _ _ (loop_head_shape _ _ _ Hlh) Hit)
    as (_ & _ & _ & _ & _ & Hzero).
  split; [apply Hzero; exact Hi|].
  rewrite (Hzero i Hi).
  unfold iteration in Hit.
  destruct (loop_head_shape _ _ _ Hlh) as [Hl Hs Hc Hc1].
  rewrite clear_steps in Hit by assumption. simpl in Hit.
  bind_inv Hit as s1 Hrows.
  bind_inv Hit as cs Hupd.
  injection Hit as <-. simpl in *.
  unfold upto in Hrows. apply rows_loop in Hrows.
  2:{ constructor; simpl; auto using rect_replicate, length_replicate. }
  simpl in Hrows. destruct Hrows as (_ & _ & _ & _ & _ & _ & Hmono).
  destruct (Hmono i 0 Hi) as (z1 & Hz1 & _ & Hsame).
  apply lookup_replicate in Hz1. destruct Hz1 as [-> Hik].
  rewrite Hsame by reflexivity. symmetry. apply lookup_replicate. auto.
Qed.

Lemma iteration_empty_cluster_witness :
  ks_centroids two_s1 !! 1%nat = Some (replicate (Z.to_nat (m two_cbm)) 0%float) /\
  ks_centroids two_s1 !! 1%nat = ks_c1 two_s1 !! 1%nat.
Proof.
  apply (iteration_empty_cluster two_mem two_cbm two_s0 two_s1).
  - apply loop_head_init. vm_compute. reflexivity.
  - vm_compute. reflexivity.
  - reflexivity.
Defined.

(** C6 as stated fails: with two equal rows and two clusters, cluster 1
    gets no row in the first iteration, and its centroid goes from [5]
    to [0]. *)
Lemma iteration_empty_cluster_changes :
  k_means_init two_mem two_cbm = Ok two_s0 /\
  iteration two_mem two_cbm two_s0 = Ok two_s1 /\
  ks_sizes two_s1 !! 1%nat = Some 0 /\
  ks_centroids two_s0 !! 1%nat = Some [5%float] /\
  ks_centroids two_s1 !! 1%nat = Some [0%float] /\
  ks_centroids two_s1 !! 1%nat <> ks_centroids two_s0 !! 1%nat.
Proof.
  repeat split; try (vm_compute; reflexivity).
  intros H.
  apply (f_equal (fun o => match o with
                           | Some [x] => (x <? 1)%float
                           | _ => false
                           end)) in H.
  vm_compute in H. discriminate.
Qed.

(** C7, as the code has it.  Construction checks nothing about [k]: on
    every well-formed matrix it succeeds, whatever [k] is, and records [k]
    as given, next to the dimensions of the matrix and the number of rows
    that hold a NaN. *)
Theorem init_cbm_accepts_any_k
    (qsort : (perBaseWig -> perBaseWig -> Z) -> list perBaseWig -> list perBaseWig)
    (mem : rowstore) (p : perBaseMatrix) (kk : Z) :
  qsort_spec qsort ->
  wf_pbm mem p ->
  exists c, init_cbm_from_pbm qsort mem p kk = Ok c /\
            k c = kk /\ n c = nrow p /\ m c = ncol p /\
            num_na c = Z.of_nat (length (filter
               (fun w => nan_row mem (ncol p) (data w) = true) (array p))).
Proof.
  intros Hq Hp.
  unfold init_cbm_from_pbm.
  rewrite (clear_na_rows_eq qsort Hq mem p Hp). simpl.
  eexists. split; [reflexivity|]. simpl. auto.
Qed.

Lemma init_cbm_accepts_any_k_witness :
  exists c, init_cbm_from_pbm sort_early ex_mem ex_pbm (-3) = Ok c /\
            k c = -3 /\ n c = nrow ex_pbm /\ m c = ncol ex_pbm /\
            num_na c = Z.of_nat (length (filter
               (fun w => nan_row ex_mem (ncol ex_pbm) (data w) = true)
               (array ex_pbm))).
Proof.
  apply (init_cbm_accepts_any_k sort_early ex_mem ex_pbm (-3)).
  - exact sort_early_spec.
  - exact ex_pbm_wf.
Defined.

(** C7 as stated fails: with [k = 0], and with [k = 100] on a matrix of
    six usable rows, construction succeeds. *)
Lemma init_cbm_accepts_bad_k :
  (exists c, init_cbm_from_pbm sort_early ex_mem ex_pbm 0 = Ok c /\
             k c = 0 /\ k c <= 0) /\
  (exists c, init_cbm_from_pbm sort_early ex_mem ex_pbm 100 = Ok c /\
             k c = 100 /\ n c - num_na c = 6 /\ k c > n c - num_na c).
Proof.
  split.
  - exists (mkCbm (pbm ex_cbm) 2 7 0 1 [] []).
    split; [vm_compute; reflexivity|]. simpl. lia.
  - exists (mkCbm (pbm ex_cbm) 2 7 100 1 [] []).
    split; [vm_compute; reflexivity|]. simpl. lia.
Qed.

(** C8, as the code has it.  [do_kmeans] writes the labels of [k_means]
    into the descriptors of the active rows, in place, and hands the
    array to [qsort]: what comes out is a rearrangement of those
    descriptors in ascending order of label, with the row pointers rebuilt
    from it.  Nothing more is promised about rows with equal labels. *)
Theorem do_kmeans_sorted_permutation
    (qsort : (perBaseWig -> perBaseWig -> Z) -> list perBaseWig -> list perBaseWig)
    (mem : rowstore) (fuel : nat) (t : float) (c c' : cluster_bed_matrix) :
  qsort_spec qsort ->
  wf_cbm mem c ->
  k c <= INT_MAX ->
  do_kmeans qsort mem fuel c t = Ok c' ->
  exists arr2,
    map data arr2 = map data (array (pbm c)) /\
    take (Z.to_nat (num_na c)) arr2 = take (Z.to_nat (num_na c)) (array (pbm c)) /\
    array (pbm c') ≡ₚ arr2 /\
    StronglySorted (fun a b => label a <= label b) (array (pbm c')) /\
    matrix (pbm c') = map data (array (pbm c')).
Proof.
  intros Hq Hwf Hk Hrun.
  destruct (do_kmeans_spec qsort Hq mem fuel c c' t Hwf Hrun)
    as (arr2 & Harr & Hmat & _ & _ & _ & _ & _ & _ & Hlen & Hrows).
  destruct (sorted_rows qsort Hq mem c arr2 Hwf Hk Hlen Hrows) as [Hsorted _].
  exists arr2. split; [|split; [|split; [|split]]].
  - apply list_eq. intros i. rewrite !list_lookup_fmap.
    destruct (arr2 !! i) as [w2|] eqn:E2.
    + destruct (Hrows i w2 E2) as (w & Hw & Hd & _).
      rewrite Hw. simpl. rewrite Hd. reflexivity.
    + apply lookup_ge_None in E2. rewrite Hlen in E2.
      apply lookup_ge_None in E2. rewrite E2. reflexivity.
  - apply list_eq. intros i.
    destruct (decide (i < Z.to_nat (num_na c))%nat) as [Hlt|Hge].
    + rewrite !lookup_take_lt by exact Hlt.
      destruct (arr2 !! i) as [w2|] eqn:E2.
      * destruct (Hrows i w2 E2) as (w & Hw & _ & Hsame & _).
        rewrite Hw, Hsame by lia. reflexivity.
      * apply lookup_ge_None in E2. rewrite Hlen in E2.
        apply lookup_ge_None in E2. rewrite E2. reflexivity.
    + rewrite !lookup_take_ge by lia. reflexivity.
  - rewrite Harr. apply Hq.
  - rewrite Harr. exact Hsorted.
  - exact Hmat.
Qed.

Lemma do_kmeans_sorted_permutation_witness :
  exists arr2,
    map data arr2 = map data (array (pbm ex_cbm)) /\
    take (Z.to_nat (num_na ex_cbm)) arr2 =
      take (Z.to_nat (num_na ex_cbm)) (array (pbm ex_cbm)) /\
    array (pbm ex_final) ≡ₚ arr2 /\
    StronglySorted (fun a b => label a <= label b) (array (pbm ex_final)) /\
    matrix (pbm ex_final) = map data (array (pbm ex_final)).
Proof.
  apply (do_kmeans_sorted_permutation sort_early ex_mem 10 ex_t ex_cbm ex_final).
  - exact sort_early_spec.
  - exact ex_cbm_wf.
  - vm_compute. discriminate.
  - vm_compute. reflexivity.
Defined.

(** C8 as stated fails: [sort_late] meets the contract of [qsort], and with
    it the rows at buffers 6 and 5, which both end in cluster 0, leave
    [do_kmeans] in the opposite order. *)
Lemma do_kmeans_not_stable :
  qsort_spec sort_late /\
  init_cbm_from_pbm sort_late ex_mem ex_pbm 2 = Ok ex_cbm_late /\
  do_kmeans sort_late ex_mem 10 ex_cbm_late ex_t = Ok ex_final_late /\
  ~ keeps_order (array (pbm ex_cbm_late)) (array (pbm ex_final_late)).
Proof.
  split; [exact sort_late_spec|].
  split; [vm_compute; reflexivity|].
  split; [vm_compute; reflexivity|].
  intros Hkeep.
  specialize (Hkeep 1%nat 2%nat 3%nat 2%nat
    (mkPerBaseWig 0 6%nat) (mkPerBaseWig 0 5%nat)
    (mkPerBaseWig 0 6%nat) (mkPerBaseWig 0 5%nat)).
  assert (3 < 2)%nat; [|lia].
  apply Hkeep; try reflexivity. lia.
Qed.

(** C9.  [free_cbm] does not guard against a null handle: called with
    [*pCbm == NULL] it reads the fields of the state through the null
    pointer. *)
Theorem free_cbm_null_faults (h : heap) : free_cbm h NULL = Fault.
Proof. reflexivity. Qed.

(** On a live state it releases the matrix, the counters, the array of
    centroids and the state itself, and leaves the caller's handle as it
    was, so that a second call reads a released block. *)
Lemma free_cbm_live_then_dangling :
  free_cbm ex_heap 1%nat = Ok (∅, 1%nat) /\
  free_cbm ∅ 1%nat = Fault.
Proof. split; vm_compute; reflexivity. Qed.

(** C10, as the code has it.  At the end of every iteration the cluster
    sizes add up to the number of active rows, [n - num_na], and the
    error is the sum, taken in row order from [0], of what each active
    row contributes: the least of [DBL_MAX] and its squared distances to
    the centroids of that iteration. *)
Theorem iteration_sizes_error (mem : rowstore) (c : cluster_bed_matrix)
    (s s' : kstate) :
  loop_head mem c s ->
  num_na c <= n c ->
  0 <= num_na c ->
  iteration mem c s = Ok s' ->
  sum_sizes (ks_sizes s') = n c - num_na c /\
  length (ks_sizes s') = Z.to_nat (k c) /\
  exists mins,
    Forall2 (row_min mem c (ks_centroids s)) (upto (num_na c) (n c)) mins /\
    ks_error s' = fold_left PrimFloat.add mins 0%float.
Proof.
  intros Hlh Hle Hna Hit.
  destruct (iteration_spec _ _ _ _ (loop_head_shape _ _ _ Hlh) Hit)
    as (Hsh & _ & _ & Hmins & Hsum & _).
  split; [|split].
  - rewrite Hsum. unfold upto. rewrite length_seq. lia.
  - apply (sh_sizes _ _ Hsh).
  - exact Hmins.
Qed.

Lemma iteration_sizes_error_witness :
  sum_sizes (ks_sizes ex_s1) = n ex_cbm - num_na ex_cbm /\
  length (ks_sizes ex_s1) = Z.to_nat (k ex_cbm) /\
  exists mins,
    Forall2 (row_min ex_mem ex_cbm (ks_centroids ex_s0))
            (upto (num_na ex_cbm) (n ex_cbm)) mins /\
    ks_error ex_s1 = fold_left PrimFloat.add mins 0%float.
Proof.
  apply (iteration_sizes_error ex_mem ex_cbm ex_s0 ex_s1).
  - apply loop_head_init. vm_compute. reflexivity.
  - vm_compute. discriminate.
  - vm_compute. discriminate.
  - vm_compute. reflexivity.
Defined.

(** C10 as stated fails: with one cluster seeded at [0] and a second row
    at [2^600], the squared distances of the two rows are [0] and
    infinity, whose sum is infinite; the error of the iteration is
    [DBL_MAX]. *)
Lemma iteration_error_capped :
  loop_head cap_mem cap_cbm cap_s0 /\
  iteration cap_mem cap_cbm cap_s0 = Ok cap_s1 /\
  distances cap_mem cap_cbm (ks_centroids cap_s0) 0 [0%float] /\
  distances cap_mem cap_cbm (ks_centroids cap_s0) 1 [infinity] /\
  ks_error cap_s1 = DBL_MAX /\
  (0 + 0 + infinity)%float = infinity /\
  (ks_error cap_s1 <? 0 + 0 + infinity)%float = true.
Proof.
  split; [|split; [|split; [|split; [|split; [|split]]]]].
  - apply loop_head_init. vm_compute. reflexivity.
  - vm_compute. reflexivity.
  - unfold distances. repeat constructor; vm_compute; reflexivity.
  - unfold distances. repeat constructor; vm_compute; reflexivity.
  - reflexivity.
  - vm_compute. reflexivity.
  - vm_compute. reflexivity.
Qed.

(** * Further properties *)

(** ** The undefined-row filter *)

(** X1. On a matrix as the loader hands it over, [clear_na_rows] succeeds
    and returns the number of rows that hold a NaN; it relabels exactly
    those rows, to [-1], moves them to the front, changes neither the
    dimensions nor any [data] pointer, and leaves the row pointers in
    step with the descriptors. *)
Theorem clear_na_rows_excludes
    (qsort : (perBaseWig -> perBaseWig -> Z) -> list perBaseWig -> list perBaseWig)
    (mem : rowstore) (p : perBaseMatrix) :
  qsort_spec qsort ->
  wf_pbm mem p ->
  exists p' na,
    clear_na_rows qsort mem p = Ok (p', na) /\
    na = Z.of_nat (length (filter
           (fun w => nan_row mem (ncol p) (data w) = true) (array p))) /\
    nrow p' = nrow p /\ ncol p' = ncol p /\
    array p' ≡ₚ map (mark mem (ncol p)) (array p) /\
    matrix p' = map data (array p') /\
    forall (i : nat) w, array p' !! i = Some w ->
      (Z.of_nat i < na <-> nan_row mem (ncol p) (data w) = true) /\
      (label w = -1 <-> nan_row mem (ncol p) (data w) = true).
Proof.
  intros Hq Hp.
  destruct (init_cbm_wf qsort Hq mem p 0 Hp)
    as (c & Hc & Hwf & _ & Hm & _ & _ & _ & Hperm & Hna).
  unfold init_cbm_from_pbm in Hc.
  rewrite (clear_na_rows_eq qsort Hq mem p Hp) in Hc |- *.
  simpl in Hc. injection Hc as <-. simpl in *.
  eexists _, _. split; [reflexivity|]. simpl.
  split; [reflexivity|]. split; [reflexivity|]. split; [reflexivity|].
  split; [exact Hperm|]. split; [reflexivity|].
  intros i w Hi.
  pose proof (wc_excluded _ _ Hwf i w Hi) as Hex.
  pose proof (wc_active _ _ Hwf i w Hi) as Hac. simpl in Hex, Hac.
  destruct (Z.lt_ge_cases (Z.of_nat i)
              (Z.of_nat (length (filter
                 (fun w => nan_row mem (ncol p) (data w) = true) (array p)))))
    as [Hlt|Hge].
  - destruct (Hex Hlt) as [Hl Hn]. rewrite Hl, Hn. tauto.
  - destruct (Hac Hge) as [Hl Hn]. rewrite Hn. split; split; try discriminate; lia.
Qed.

Lemma clear_na_rows_excludes_witness :
  exists p' na,
    clear_na_rows sort_early ex_mem ex_pbm = Ok (p', na) /\
    na = Z.of_nat (length (filter
           (fun w => nan_row ex_mem (ncol ex_pbm) (data w) = true) (array ex_pbm))) /\
    nrow p' = nrow ex_pbm /\ ncol p' = ncol ex_pbm /\
    array p' ≡ₚ map (mark ex_mem (ncol ex_pbm)) (array ex_pbm) /\
    matrix p' = map data (array p') /\
    forall (i : nat) w, array p' !! i = Some w ->
      (Z.of_nat i < na <-> nan_row ex_mem (ncol ex_pbm) (data w) = true) /\
      (label w = -1 <-> nan_row ex_mem (ncol ex_pbm) (data w) = true).
Proof.
  apply (clear_na_rows_excludes sort_early ex_mem ex_pbm).
  - exact sort_early_spec.
  - exact ex_pbm_wf.
Defined.

(** X2. On a matrix without any NaN, [clear_na_rows] reports no excluded
    row and changes no descriptor: the array it leaves holds the same
    descriptors, labels included. *)
Theorem clear_na_rows_clean
    (qsort : (perBaseWig -> perBaseWig -> Z) -> list perBaseWig -> list perBaseWig)
    (mem : rowstore) (p : perBaseMatrix) :
  qsort_spec qsort ->
  wf_pbm mem p ->
  (forall w, w ∈ array p -> nan_row mem (ncol p) (data w) = false) ->
  exists p',
    clear_na_rows qsort mem p = Ok (p', 0) /\
    array p' ≡ₚ array p /\
    StronglySorted (fun a b => label a <= label b) (array p').
Proof.
  intros Hq Hp Hclean.
  rewrite (clear_na_rows_eq qsort Hq mem p Hp).
  assert (Hmark : map (mark mem (ncol p)) (array p) = array p).
  { clear -Hclean. induction (array p) as [|x l IH]; [reflexivity|].
    simpl. f_equal.
    - unfold mark. rewrite Hclean by left. reflexivity.
    - apply IH. intros w Hw. apply Hclean. right. exact Hw. }
  assert (Hnone : filter (fun w => nan_row mem (ncol p) (data w) = true) (array p) = []).
  { apply filter_none. apply Forall_forall. intros w Hw.
    rewrite (Hclean w Hw). discriminate. }
  rewrite Hmark, Hnone. simpl.
  eexists. split; [reflexivity|]. simpl. split; [apply Hq|].
  apply Hq. apply label_cmp_by_key. intros w Hw.
  pose proof (wf_fresh _ _ Hp w Hw). lia.
Qed.

Lemma clear_na_rows_clean_witness :
  exists p',
    clear_na_rows sort_early ov_mem (fresh_pbm 6 1) = Ok (p', 0) /\
    array p' ≡ₚ array (fresh_pbm 6 1) /\
    StronglySorted (fun a b => label a <= label b) (array p').
Proof.
  apply (clear_na_rows_clean sort_early ov_mem (fresh_pbm 6 1)).
  - exact sort_early_spec.
  - apply check_pbm_sound. vm_compute. reflexivity.
  - intros w Hw. apply list_elem_of_In in Hw. simpl in Hw.
    repeat (destruct Hw as [<-|Hw]; [vm_compute; reflexivity|]). destruct Hw.
Defined.

(** ** The comparator *)

(** X3. [perBaseWigJustLabelCmp] returns the difference of the labels
    whenever that difference is an [int]; when the subtraction overflows
    the sign comes out reversed, so a descriptor with the larger label
    compares as smaller. *)
Theorem perBaseWigJustLabelCmp_overflow (a b : perBaseWig) :
  INT_MIN <= label a <= INT_MAX ->
  INT_MIN <= label b <= INT_MAX ->
  (INT_MIN <= label a - label b <= INT_MAX ->
     perBaseWigJustLabelCmp a b = label a - label b) /\
  (INT_MAX < label a - label b ->
     label b < label a /\ perBaseWigJustLabelCmp a b < 0) /\
  (label a - label b < INT_MIN ->
     label a < label b /\ 0 < perBaseWigJustLabelCmp a b).
Proof.
  intros Ha Hb. unfold perBaseWigJustLabelCmp.
  split; [apply int_wrap_id|].
  unfold int_wrap, INT_MIN, INT_MAX in *. split; intros H.
  - split; [lia|].
    replace (label a - label b - -2147483648)
      with ((label a - label b - 2147483648) + 1 * 4294967296) by lia.
    rewrite Z.mod_add by lia. rewrite Z.mod_small; lia.
  - split; [lia|].
    replace (label a - label b - -2147483648)
      with ((label a - label b + 2147483648 + 4294967296) + (-1) * 4294967296) by lia.
    rewrite Z.mod_add by lia. rewrite Z.mod_small; lia.
Qed.

Lemma perBaseWigJustLabelCmp_overflow_witness :
  (INT_MIN <= label (mkPerBaseWig INT_MAX 0%nat) - label (mkPerBaseWig (-1) 1%nat) <= INT_MAX ->
     perBaseWigJustLabelCmp (mkPerBaseWig INT_MAX 0%nat) (mkPerBaseWig (-1) 1%nat) =
     label (mkPerBaseWig INT_MAX 0%nat) - label (mkPerBaseWig (-1) 1%nat)) /\
  (INT_MAX < label (mkPerBaseWig INT_MAX 0%nat) - label (mkPerBaseWig (-1) 1%nat) ->
     label (mkPerBaseWig (-1) 1%nat) < label (mkPerBaseWig INT_MAX 0%nat) /\
     perBaseWigJustLabelCmp (mkPerBaseWig INT_MAX 0%nat) (mkPerBaseWig (-1) 1%nat) < 0) /\
  (label (mkPerBaseWig INT_MAX 0%nat) - label (mkPerBaseWig (-1) 1%nat) < INT_MIN ->
     label (mkPerBaseWig INT_MAX 0%nat) < label (mkPerBaseWig (-1) 1%nat) /\
     0 < perBaseWigJustLabelCmp (mkPerBaseWig INT_MAX 0%nat) (mkPerBaseWig (-1) 1%nat)).
Proof.
  apply (perBaseWigJustLabelCmp_overflow (mkPerBaseWig INT_MAX 0%nat) (mkPerBaseWig (-1) 1%nat)).
  - vm_compute. split; discriminate.
  - vm_compute. split; discriminate.
Defined.

(** ** What [k_means] needs and what it leaves alone *)

Lemma loop_head_outside (mem : rowstore) (c : cluster_bed_matrix) (s : kstate) :
  loop_head mem c s ->
  forall h : nat, h ∉ upto (num_na c) (n c) ->
    ks_labels s !! h = replicate (Z.to_nat (n c)) 0 !! h.
Proof.
  induction 1 as [s Hinit|s s' Hlh IH Hit]; intros h Hh.
  - destruct (k_means_init_spec _ _ _ Hinit) as (_ & _ & -> & _). reflexivity.
  - destruct (iteration_spec _ _ _ _ (loop_head_shape _ _ _ Hlh) Hit) as (_ & Hout & _).
    rewrite (Hout h Hh). apply IH. exact Hh.
Qed.

(** X4. [k_means] can return only with [k >= 1] when there is an active
    row: with [k <= 0] it does not get past the allocation or the first
    active row. *)
Theorem k_means_needs_positive_k (mem : rowstore) (fuel : nat)
    (c c' : cluster_bed_matrix) (t : float) (labels : list Z) (trace : list float) :
  0 <= num_na c < n c ->
  k_means mem fuel c t = Ok (c', labels, trace) ->
  1 <= k c.
Proof.
  intros Hna Hrun.
  destruct (k_means_labels _ _ _ _ _ _ _ Hrun (Z.to_nat (num_na c))) as (l & _ & Hl).
  - unfold upto. apply elem_of_seq. lia.
  - lia.
Qed.

Lemma k_means_needs_positive_k_witness : 1 <= k ex_cbm.
Proof.
  apply (k_means_needs_positive_k ex_mem 10 ex_cbm (fst (fst ex_km)) ex_t
           (snd (fst ex_km)) (snd ex_km)).
  - vm_compute. split; [discriminate|reflexivity].
  - vm_compute. reflexivity.
Defined.

(** X5. [k_means] changes nothing of the matrix or of the parameters: it
    only fills the centroids ([k] rows of [m] values) and the cluster
    sizes ([k] counters) of the state.  The array of labels it returns
    has [n] entries; those of the excluded rows, below [num_na], are
    never written and stay [0]. *)
Theorem k_means_frame (mem : rowstore) (fuel : nat)
    (c c' : cluster_bed_matrix) (t : float) (labels : list Z) (trace : list float) :
  k_means mem fuel c t = Ok (c', labels, trace) ->
  pbm c' = pbm c /\ m c' = m c /\ n c' = n c /\ k c' = k c /\
  num_na c' = num_na c /\
  length labels = Z.to_nat (n c) /\
  length (cluster_sizes c') = Z.to_nat (k c) /\
  length (centroids c') = Z.to_nat (k c) /\
  Forall (fun r => length r = Z.to_nat (m c)) (centroids c') /\
  forall h : nat, Z.of_nat h < num_na c -> Z.of_nat h < n c ->
                  labels !! h = Some 0.
Proof.
  intros Hrun.
  destruct (k_means_spec _ _ _ _ _ _ _ Hrun) as (sp & s' & Hlh & Hit & -> & -> & _).
  assert (Hlh' : loop_head mem c s') by (eapply loop_head_next; eauto).
  destruct (loop_head_shape _ _ _ Hlh') as [Hl Hs [Hc1 Hc2] _]. simpl.
  repeat split; auto.
  intros h Hh Hn. rewrite (loop_head_outside _ _ _ Hlh').
  - apply lookup_replicate. split; [reflexivity|lia].
  - unfold upto. rewrite elem_of_seq. lia.
Qed.

Lemma k_means_frame_witness :
  pbm (fst (fst ex_km)) = pbm ex_cbm /\ m (fst (fst ex_km)) = m ex_cbm /\
  n (fst (fst ex_km)) = n ex_cbm /\ k (fst (fst ex_km)) = k ex_cbm /\
  num_na (fst (fst ex_km)) = num_na ex_cbm /\
  length (snd (fst ex_km)) = Z.to_nat (n ex_cbm) /\
  length (cluster_sizes (fst (fst ex_km))) = Z.to_nat (k ex_cbm) /\
  length (centroids (fst (fst ex_km))) = Z.to_nat (k ex_cbm) /\
  Forall (fun r => length r = Z.to_nat (m ex_cbm)) (centroids (fst (fst ex_km))) /\
  forall h : nat, Z.of_nat h < num_na ex_cbm -> Z.of_nat h < n ex_cbm ->
                  snd (fst ex_km) !! h = Some 0.
Proof.
  apply (k_means_frame ex_mem 10 ex_cbm (fst (fst ex_km)) ex_t
           (snd (fst ex_km)) (snd ex_km)).
  vm_compute. reflexivity.
Defined.

(** ** Seeding at the edges *)

(** X6. When every row is excluded (or the matrix has no row) and
    [k >= 1], [m >= 1], seeding reads [matrix[num_na]], one place past
    the end of the row pointers: [k_means] does not get to its loop. *)
Theorem k_means_no_active_row (mem : rowstore) (fuel : nat)
    (c : cluster_bed_matrix) (t : float) :
  wf_cbm mem c ->
  num_na c = n c ->
  0 < k c ->
  0 < m c ->
  k_means mem fuel c t = Fault.
Proof.
  intros Hwf Hna Hk Hm. unfold k_means, k_means_init.
  destruct (wc_na _ _ Hwf) as [Hna0 _]. pose proof (wc_len _ _ Hwf) as Hlen.
  rewrite !alloc_rows_eq by lia. unfold AllocArray.
  destruct (Z.ltb_spec (n c) 0); [lia|]. destruct (Z.ltb_spec (k c) 0); [lia|].
  simpl. unfold seed. rewrite upto_0.
  destruct (Z.to_nat (k c)) as [|kn] eqn:Ek; [lia|]. simpl.
  unfold seed_step at 1. simpl. unfold downfrom.
  destruct (Z.to_nat (m c)) as [|mn] eqn:Em; [lia|].
  rewrite seq_S, rev_app_distr. simpl.
  unfold copy_cell at 1. destruct (Z.ltb_spec (num_na c) 0); [lia|].
  unfold cell, get.
  rewrite (lookup_ge_None_2 (matrix (pbm c))).
  - reflexivity.
  - rewrite (wc_sync _ _ Hwf), length_map. lia.
Qed.

Lemma k_means_no_active_row_witness :
  k_means [[PrimFloat.nan]]
    10 (mkCbm (mkPerBaseMatrix 1 1 [mkPerBaseWig (-1) 0%nat] [0%nat]) 1 1 1 1 [] [])
    ex_t = Fault.
Proof.
  apply (k_means_no_active_row [[PrimFloat.nan]]).
  - constructor; simpl; try reflexivity; try lia.
    + unfold INT_MAX. lia.
    + intros w Hw. apply list_elem_of_singleton in Hw. subst w.
      exists [PrimFloat.nan]. split; reflexivity.
    + intros [|i] w Hi Hlt; simpl in Hi; [|discriminate].
      injection Hi as <-. split; reflexivity.
    + intros [|i] w Hi Hge; simpl in Hi; [lia|discriminate].
  - reflexivity.
  - reflexivity.
  - reflexivity.
Defined.

(** X7. When [k] exceeds the number of active rows the stride of the
    seeding loop is [0]: all [k] centroids start as copies of the first
    active row. *)
Theorem k_means_seeding_stride_zero (mem : rowstore) (c : cluster_bed_matrix) :
  wf_cbm mem c ->
  0 < m c ->
  num_na c < n c ->
  n c - num_na c < k c ->
  exists s0 p r,
    k_means_init mem c = Ok s0 /\
    matrix (pbm c) !! Z.to_nat (num_na c) = Some p /\ mem !! p = Some r /\
    ks_centroids s0 = replicate (Z.to_nat (k c)) r.
Proof.
  intros Hwf Hm Hact Hk. destruct (wc_na _ _ Hwf) as [Hna0 _].
  pose proof (wc_len _ _ Hwf) as Hlen.
  assert (Hk0 : 0 < k c) by lia.
  unfold k_means_init. rewrite !alloc_rows_eq by lia. unfold AllocArray.
  destruct (Z.ltb_spec (n c) 0); [lia|]. destruct (Z.ltb_spec (k c) 0); [lia|].
  simpl.
  rewrite (seed_total mem c _ Hwf Hk0 Hact (rect_replicate _ _ _)). simpl.
  destruct (lookup_lt_is_Some_2 (array (pbm c)) (Z.to_nat (num_na c)))
    as [w Hw]; [lia|].
  destruct (wc_rows _ _ Hwf w) as (r & Hr & Hrl);
    [eapply list_elem_of_lookup_2; eauto|].
  assert (Hp : matrix (pbm c) !! Z.to_nat (num_na c) = Some (data w)).
  { rewrite (wc_sync _ _ Hwf), list_lookup_fmap, Hw. reflexivity. }
  exists (mkKstate (replicate (Z.to_nat (n c)) 0) (replicate (Z.to_nat (k c)) 0)
            (map (seed_row mem c) (seq 0 (Z.to_nat (k c))))
            (replicate (Z.to_nat (k c)) (replicate (Z.to_nat (m c)) 0%float)) DBL_MAX),
         (data w), r.
  split; [reflexivity|]. split; [exact Hp|]. split; [exact Hr|]. simpl.
  apply list_eq. intros i.
  destruct (decide (i < Z.to_nat (k c))%nat) as [Hi|Hi].
  - rewrite list_lookup_fmap, lookup_seq_lt by lia. simpl.
    rewrite (proj2 (lookup_replicate _ _ _ _)) by (split; [reflexivity|lia]).
    f_equal. unfold seed_row, seed_index.
    rewrite Z.div_small by lia. rewrite Z.mul_0_r, Z.add_0_r, Hp.
    unfold row_of. rewrite Hr. reflexivity.
  - rewrite !lookup_ge_None_2; [reflexivity| |].
    + rewrite length_replicate. lia.
    + rewrite length_map, length_seq. lia.
Qed.

Lemma k_means_seeding_stride_zero_witness :
  exists s0 p r,
    k_means_init two_mem (mkCbm (pbm two_cbm) 1 2 5 0 [] []) = Ok s0 /\
    matrix (pbm two_cbm) !! Z.to_nat 0 = Some p /\ two_mem !! p = Some r /\
    ks_centroids s0 = replicate (Z.to_nat 5) r.
Proof.
  apply (k_means_seeding_stride_zero two_mem (mkCbm (pbm two_cbm) 1 2 5 0 [] [])).
  - constructor; simpl; try reflexivity; try lia.
    + unfold INT_MAX. lia.
    + intros w Hw. apply list_elem_of_In in Hw. simpl in Hw.
      destruct Hw as [<-|[<-|[]]]; eexists; split; reflexivity.
    + intros [|[|i]] w Hi Hge; simpl in Hi; try discriminate;
        injection Hi as <-; (split; [vm_compute; split; [discriminate|reflexivity]|reflexivity]).
  - reflexivity.
  - reflexivity.
  - reflexivity.
Defined.

(** ** The tolerance at the edges *)

Lemma last_cons_default {A : Type} (l : list A) :
  forall x d, List.last (x :: l) d = List.last l x.
Proof.
  induction l as [|y l IH]; intros x d; [reflexivity|].
  change (List.last (x :: y :: l) d) with (List.last (y :: l) d).
  rewrite !IH. reflexivity.
Qed.

Lemma run_trace_last (t : float) (errs : list float) :
  forall p0 e, run_trace t p0 (errs ++ [e]) ->
    (t <? fabs (e - List.last errs p0))%float = false.
Proof.
  induction errs as [|x errs IH]; intros p0 e H.
  - exact H.
  - change ((x :: errs) ++ [e]) with (x :: (errs ++ [e])) in H.
    simpl in H. destruct (errs ++ [e]) eqn:E; [destruct errs; discriminate|].
    destruct H as [_ H]. rewrite <- E in H. specialize (IH x e H).
    rewrite last_cons_default. exact IH.
Qed.

Lemma fabs_nonneg (d : float) :
  isnan d = false -> (0 <=? fabs d)%float = true.
Proof.
  intros Hd. apply leb_rank.
  destruct (rank_of d) as [a|] eqn:Ea; [|apply isnan_rank in Ea; congruence].
  unfold rank_of, fabs in *. rewrite abs_spec.
  destruct (Prim2SF d) as [s|s| |s mx ex]; simpl in *; try discriminate.
  - exists (0, 0, 0), (0, 0, 0). repeat split; discriminate.
  - exists (0, 0, 0), (2, 0, 0). repeat split; discriminate.
  - exists (0, 0, 0), (1, ex, Z.pos mx). repeat split; discriminate.
Qed.

Lemma ltb_leb_trans (x y z : float) :
  (x <? y)%float = true -> (y <=? z)%float = true -> (x <? z)%float = true.
Proof.
  rewrite leb_rank, !ltb_rank. intros (a & b & Ha & Hb & Hab) (b' & c & Hb' & Hc & Hbc).
  rewrite Hb in Hb'. injection Hb' as <-.
  exists a, c. repeat split; auto.
  destruct (rank_cmp b c) eqn:E; try contradiction.
  - apply rank_cmp_Eq in E. subst. exact Hab.
  - eapply rank_cmp_Lt_trans; eauto.
Qed.

(** X8. A tolerance that is not a number stops the loop after the first
    iteration, whatever the data: [k_means] returns with the error of
    that one iteration. *)
Theorem k_means_nan_tolerance (mem : rowstore) (fuel : nat)
    (c c' : cluster_bed_matrix) (t : float) (labels : list Z) (trace : list float) :
  isnan t = true ->
  k_means mem fuel c t = Ok (c', labels, trace) ->
  exists e, trace = [e] /\
    exists s0 s1, k_means_init mem c = Ok s0 /\ iteration mem c s0 = Ok s1 /\
                  e = ks_error s1 /\ labels = ks_labels s1.
Proof.
  intros Ht Hrun. unfold k_means in Hrun.
  bind_inv Hrun as s0 Hinit. bind_inv Hrun as [s tr] Hloop.
  injection Hrun as <- <- <-.
  destruct fuel as [|fuel]; simpl in Hloop; [discriminate|].
  bind_inv Hloop as s1 Hit.
  rewrite (ltb_nan_l t _ Ht) in Hloop. injection Hloop as <- <-.
  exists (ks_error s1). split; [reflexivity|]. exists s0, s1. auto.
Qed.

Lemma k_means_nan_tolerance_witness :
  exists e, snd (unwrap (no_cbm, [], []) (k_means ex_mem 1 ex_cbm PrimFloat.nan)) = [e] /\
    exists s0 s1, k_means_init ex_mem ex_cbm = Ok s0 /\
                  iteration ex_mem ex_cbm s0 = Ok s1 /\
                  e = ks_error s1 /\
                  snd (fst (unwrap (no_cbm, [], [])
                              (k_means ex_mem 1 ex_cbm PrimFloat.nan))) = ks_labels s1.
Proof.
  apply (k_means_nan_tolerance ex_mem 1 ex_cbm
           (fst (fst (unwrap (no_cbm, [], []) (k_means ex_mem 1 ex_cbm PrimFloat.nan))))
           PrimFloat.nan).
  - reflexivity.
  - vm_compute. reflexivity.
Defined.

(** X9. With a tolerance below zero the loop test can fail only on a
    difference that is not a number: whenever [k_means] returns, the
    error of its last iteration minus the error before it (or
    [DBL_MAX], after a single iteration) is NaN. *)
Theorem k_means_negative_tolerance (mem : rowstore) (fuel : nat)
    (c c' : cluster_bed_matrix) (t : float) (labels : list Z) (trace : list float) :
  (t <? 0)%float = true ->
  k_means mem fuel c t = Ok (c', labels, trace) ->
  exists e rest, trace = e :: rest /\
                 isnan (e - hd DBL_MAX rest)%float = true.
Proof.
  intros Ht Hrun.
  destruct (k_means_spec _ _ _ _ _ _ _ Hrun) as (_ & _ & _ & _ & _ & _ & _ & Hrt).
  destruct trace as [|e rest]; [contradiction|]. exists e, rest.
  split; [reflexivity|]. simpl in Hrt.
  apply run_trace_last in Hrt. rename Hrt into Hlast.
  assert (Hprev : List.last (rev rest) DBL_MAX = hd DBL_MAX rest).
  { destruct rest as [|x rest]; [reflexivity|]. simpl. apply last_last. }
  rewrite Hprev in Hlast.
  destruct (isnan (e - hd DBL_MAX rest)%float) eqn:Ed; [reflexivity|].
  rewrite (ltb_leb_trans t 0 _ Ht (fabs_nonneg _ Ed)) in Hlast. discriminate.
Qed.

Lemma k_means_negative_tolerance_witness :
  exists e rest, snd big_km = e :: rest /\
                 isnan (e - hd DBL_MAX rest)%float = true.
Proof.
  apply (k_means_negative_tolerance big_mem 10 big_cbm (fst (fst big_km))
           (-0x1p-20)%float (snd (fst big_km)) (snd big_km)).
  - reflexivity.
  - vm_compute. reflexivity.
Defined.

(** ** Cluster sizes and centroids after an iteration *)

Lemma filter_ext_in {A : Type} (P Q : A -> Prop)
    `{forall x, Decision (P x)} `{forall x, Decision (Q x)} (l : list A) :
  (forall x, x ∈ l -> P x <-> Q x) -> filter P l = filter Q l.
Proof.
  induction l as [|x l IH]; intros Hext; [reflexivity|].
  rewrite !filter_cons.
  assert (Hx : P x <-> Q x) by (apply Hext; left).
  rewrite IH by (intros y Hy; apply Hext; right; exact Hy).
  destruct (decide (P x)), (decide (Q x)); tauto.
Qed.

Lemma rev_seq_NoDup (mm : nat) : NoDup (rev (seq 0 mm)).
Proof.
  rewrite <- Permutation_rev. apply NoDup_seq.
Qed.

Lemma elem_of_rev_seq (mm j : nat) : j ∈ rev (seq 0 mm) <-> (j < mm)%nat.
Proof.
  rewrite list_elem_of_In, <- in_rev, <- list_elem_of_In, elem_of_seq. lia.
Qed.

Lemma NoDup_app_cons_notin {A : Type} (pre suf : list A) (x : A) :
  NoDup (pre ++ x :: suf) -> x ∉ pre.
Proof.
  intros Hnd Hin. apply NoDup_app in Hnd. destruct Hnd as (_ & Hdis & _).
  apply (Hdis x Hin). left.
Qed.

(** [c1[l][j] += matrix[h][j]] for every [j]: row [h] is added to the
    temporary centroid [l], coordinate by coordinate. *)
Lemma accum_loop_exact (mem : rowstore) (c : cluster_bed_matrix) (h : nat) (l : Z)
    (kk : nat) (a a' : list (list float)) rl :
  rect kk (Z.to_nat (m c)) a ->
  a !! Z.to_nat l = Some rl ->
  for_each (downfrom (m c)) (accum_cell mem (matrix (pbm c)) h l) a = Ok a' ->
  a' = <[Z.to_nat l := zip_with PrimFloat.add rl (matrix_row mem c h)]> a.
Proof.
  intros Hr Hrl Hrun. unfold downfrom in Hrun.
  set (mm := Z.to_nat (m c)) in *. set (L := Z.to_nat l) in *.
  destruct (rect_lookup _ _ _ _ _ Hr Hrl) as [Hrll HL].
  pose (cellsum := fun j : nat =>
    match rl !! j, matrix_row mem c h !! j with
    | Some y, Some v => Some (y + v)%float
    | _, _ => None
    end).
  pose (P := fun (pre : list nat) (x : list (list float)) =>
    exists rx, x = <[L := rx]> a /\ length rx = mm /\
      forall j : nat, rx !! j = if decide (j ∈ pre) then cellsum j else rl !! j).
  assert (HP : P (rev (seq 0 mm)) a').
  { apply (for_each_ind P (accum_cell mem (matrix (pbm c)) h l) _ a); [ | | exact Hrun].
    - exists rl. split; [rewrite list_insert_id; auto|]. split; [exact Hrll|].
      intros j. rewrite decide_False; [reflexivity|]. intros Hj. inversion Hj.
    - intros pre j suf x x' Hidx (rx & -> & Hlen & Hcells) Hb.
      assert (Hnotin : j ∉ pre).
      { apply (NoDup_app_cons_notin pre suf). rewrite <- Hidx. apply rev_seq_NoDup. }
      apply rev_seq_split_at in Hidx.
      unfold accum_cell in Hb.
      bind_inv Hb as v Hv. bind_inv Hb as r Hr1. bind_inv Hb as y Hy.
      bind_inv Hb as r' Hr2.
      apply cell_Ok in Hv. destruct Hv as (p & rw & Hp & Hrw & Hvj).
      apply zget_Ok in Hr1. destruct Hr1 as [Hl0 Hr1]. fold L in Hr1.
      rewrite list_lookup_insert_eq in Hr1 by (destruct Hr; lia).
      injection Hr1 as <-.
      apply get_Ok in Hy. apply put_Ok in Hr2. destruct Hr2 as [Hjl ->].
      apply zput_Ok in Hb. destruct Hb as (_ & _ & ->). fold L.
      exists (<[j := (y + v)%float]> rx). split; [apply list_insert_insert_eq|].
      split; [rewrite length_insert; exact Hlen|].
      intros j'. destruct (decide (j' = j)) as [->|Hne].
      + rewrite list_lookup_insert_eq by exact Hjl.
        rewrite decide_True by (apply elem_of_app; right; left).
        unfold cellsum. rewrite Hcells, decide_False in Hy by exact Hnotin.
        rewrite Hy. unfold matrix_row. rewrite Hp. unfold row_of. rewrite Hrw. simpl.
        rewrite lookup_take_lt by (fold mm; lia). rewrite Hvj. reflexivity.
      + rewrite list_lookup_insert_ne by auto. rewrite Hcells.
        destruct (decide (j' ∈ pre)) as [Hin|Hout].
        * rewrite decide_True by (apply elem_of_app; left; exact Hin). reflexivity.
        * rewrite decide_False; [reflexivity|].
          intros Hin. apply elem_of_app in Hin. destruct Hin as [Hin|Hin]; [auto|].
          apply list_elem_of_singleton in Hin. auto. }
  destruct HP as (rx & -> & Hlen & Hcells). f_equal.
  apply list_eq. intros j. rewrite Hcells, lookup_zip_with.
  destruct (decide (j < mm)%nat) as [Hj|Hj].
  - rewrite decide_True.
    2:{ rewrite elem_of_rev_seq. lia. }
    unfold cellsum. destruct (rl !! j); simpl; [|reflexivity].
    destruct (matrix_row mem c h !! j); reflexivity.
  - rewrite decide_False.
    2:{ rewrite elem_of_rev_seq. lia. }
    rewrite (lookup_ge_None_2 rl) by lia. reflexivity.
Qed.

(** One active row: the row is counted in the cluster it is given to and
    added to that cluster's temporary centroid; nothing else changes. *)
Lemma assign_row_exact (mem : rowstore) (c : cluster_bed_matrix) (h : nat)
    (s s' : kstate) :
  kshape c s ->
  assign_row mem c h s = Ok s' ->
  exists l z rl,
    ks_labels s' !! h = Some l /\ 0 <= l /\
    ks_sizes s !! Z.to_nat l = Some z /\
    ks_c1 s !! Z.to_nat l = Some rl /\
    ks_sizes s' = <[Z.to_nat l := z + 1]> (ks_sizes s) /\
    ks_c1 s' = <[Z.to_nat l := zip_with PrimFloat.add rl (matrix_row mem c h)]> (ks_c1 s).
Proof.
  intros [Hl Hs Hc Hc1] Hrun. unfold assign_row in Hrun.
  bind_inv Hrun as [ls md] Hclo.
  bind_inv Hrun as l Hlab. apply get_Ok in Hlab.
  bind_inv Hrun as a' Hacc.
  bind_inv Hrun as z Hz.
  apply zget_Ok in Hz. destruct Hz as [Hl0 Hz].
  bind_inv Hrun as sz' Hput.
  apply zput_Ok in Hput. destruct Hput as (_ & Hlt & ->).
  injection Hrun as <-. simpl.
  destruct (lookup_lt_is_Some_2 (ks_c1 s) (Z.to_nat l)) as [rl Hrl].
  { destruct Hc1 as [-> _]. rewrite <- Hs. exact Hlt. }
  exists l, z, rl. repeat (split; [assumption|]). split; [reflexivity|].
  apply (accum_loop_exact _ _ _ _ _ _ _ _ Hc1 Hrl Hacc).
Qed.

Lemma vector_sum_snoc (start : list float) (rows : list (list float)) row :
  vector_sum start (rows ++ [row]) =
  zip_with PrimFloat.add (vector_sum start rows) row.
Proof. unfold vector_sum. rewrite fold_left_app. reflexivity. Qed.

(** The loop over the active rows: afterwards every cluster's size has
    grown by the number of rows the loop gave to it, and its temporary
    centroid by their sum. *)
Lemma rows_loop_sums (mem : rowstore) (c : cluster_bed_matrix) (lo len : nat)
    (s1 s2 : kstate) :
  kshape c s1 ->
  for_each (seq lo len) (assign_row mem c) s1 = Ok s2 ->
  forall (i : nat) z1 r1,
    ks_sizes s1 !! i = Some z1 -> ks_c1 s1 !! i = Some r1 ->
    let mem_i := filter (fun h => ks_labels s2 !! h = Some (Z.of_nat i)) (seq lo len) in
    ks_sizes s2 !! i = Some (z1 + Z.of_nat (length mem_i)) /\
    ks_c1 s2 !! i = Some (vector_sum r1 (map (matrix_row mem c) mem_i)).
Proof.
  intros Hsh Hrun i z1 r1 Hz1 Hr1.
  pose (F := fun (pre : list nat) (s : kstate) =>
    filter (fun h => ks_labels s !! h = Some (Z.of_nat i)) pre).
  pose (P := fun (pre : list nat) (s : kstate) =>
    kshape c s /\
    ks_sizes s !! i = Some (z1 + Z.of_nat (length (F pre s))) /\
    ks_c1 s !! i = Some (vector_sum r1 (map (matrix_row mem c) (F pre s)))).
  assert (HP : P (seq lo len) s2).
  { apply (for_each_ind P (assign_row mem c) _ s1); [ | | exact Hrun].
    - split; [exact Hsh|]. unfold F. simpl. rewrite Z.add_0_r. auto.
    - intros pre h suf s s' Hidx (Hk & Hsz & Hc1) Hb.
      apply seq_split_at in Hidx. destruct Hidx as (Hpre & Hh & _ & _).
      assert (Hnotin : h ∉ pre) by (rewrite Hpre, Hh; apply not_in_seq_prefix).
      destruct (assign_row_spec _ _ _ _ _ Hk Hb) as (Hk' & _ & Hother & _).
      destruct (assign_row_exact _ _ _ _ _ Hk Hb)
        as (l & z & rl & Hl & Hl0 & Hz & Hrl & Hsz' & Hc1').
      assert (HF : F pre s' = F pre s).
      { unfold F. apply filter_ext_in. intros x Hx.
        rewrite Hother; [tauto|]. intros ->. contradiction. }
      split; [exact Hk'|].
      assert (Hli : (Z.to_nat l < length (ks_sizes s))%nat)
        by (eapply lookup_lt_Some; eauto).
      assert (Hlc : (Z.to_nat l < length (ks_c1 s))%nat)
        by (eapply lookup_lt_Some; eauto).
      assert (HFapp : F (pre ++ [h]) s' =
                      F pre s ++ (if decide (l = Z.of_nat i) then [h] else [])).
      { rewrite <- HF. unfold F. rewrite filter_app. f_equal.
        destruct (decide (l = Z.of_nat i)) as [->|Hne].
        - rewrite filter_cons_True by exact Hl. reflexivity.
        - rewrite filter_cons_False by (rewrite Hl; congruence). reflexivity. }
      rewrite HFapp. clear HFapp.
      destruct (decide (l = Z.of_nat i)) as [->|Hne].
      + rewrite Nat2Z.id in *.
        rewrite Hsz', Hc1', !list_lookup_insert_eq by assumption.
        rewrite Hsz in Hz. injection Hz as <-.
        rewrite Hc1 in Hrl. injection Hrl as <-.
        rewrite length_app, map_app. simpl length. simpl map.
        rewrite vector_sum_snoc. split; f_equal. lia.
      + rewrite app_nil_r.
        rewrite Hsz', Hc1', !list_lookup_insert_ne by lia. auto. }
  destruct HP as (_ & Hsz & Hc1). split; assumption.
Qed.

Lemma insert_map_take_drop {A : Type} (f : A -> A) (r l : list A) (j : nat) (y : A) :
  r !! j = Some y -> (j < length l)%nat ->
  <[j := f y]> (map f (take j r) ++ drop j l) = map f (take (S j) r) ++ drop (S j) l.
Proof.
  intros Hy Hj. assert (j < length r)%nat by (eapply lookup_lt_Some; eauto).
  destruct (lookup_lt_is_Some_2 l j Hj) as [z Hz].
  rewrite (take_S_r _ _ _ Hy), (drop_S _ _ _ Hz), map_app, <- app_assoc.
  rewrite insert_app_r_alt; rewrite length_map, length_take; [|lia].
  replace (j - j `min` length r)%nat with 0%nat by lia. reflexivity.
Qed.

(** [for (j < m) centroids[i][j] = cluster_sizes[i] ? c1[i][j] /
    cluster_sizes[i] : c1[i][j]]: centroid [i] becomes the temporary
    centroid divided by the size, or the temporary centroid itself if the
    size is zero. *)
Lemma update_cells_exact (sizes : list Z) (c1 : list (list float)) (i : nat)
    (kk mm : nat) (cs cs' : list (list float)) ci sz r :
  rect kk mm cs -> cs !! i = Some ci ->
  sizes !! i = Some sz -> c1 !! i = Some r -> length r = mm ->
  for_each (seq 0 mm) (update_cell sizes c1 i) cs = Ok cs' ->
  cs' !! i = Some (map (mean_of sz) r).
Proof.
  intros Hr Hci Hs0 Hr0 Hl0 Hrun.
  destruct (rect_lookup _ _ _ _ _ Hr Hci) as [Hcil Hik].
  pose (P := fun (pre : list nat) (x : list (list float)) =>
    length x = kk /\
    x !! i = Some (map (mean_of sz) (take (length pre) r) ++ drop (length pre) ci)).
  assert (HP : P (seq 0 mm) cs').
  { apply (for_each_ind P (update_cell sizes c1 i) _ cs); [ | | exact Hrun].
    - split; [apply Hr|]. exact Hci.
    - intros pre j suf x x' Hidx (Hlx & Hcx) Hb.
      apply seq_split_at in Hidx. destruct Hidx as (_ & Hj & Hlt & _).
      simpl in Hj. subst j. unfold update_cell in Hb.
      bind_inv Hb as sz' Hsz. apply get_Ok in Hsz.
      bind_inv Hb as r' Hr1. apply get_Ok in Hr1.
      bind_inv Hb as y Hy. apply get_Ok in Hy.
      bind_inv Hb as cx' Hcx'. apply get_Ok in Hcx'.
      bind_inv Hb as cy Hcy.
      apply put_Ok in Hcy. destruct Hcy as [Hjl ->].
      apply put_Ok in Hb. destruct Hb as [Hil ->].
      rewrite Hcx in Hcx'. injection Hcx' as <-.
      rewrite Hs0 in Hsz. injection Hsz as <-.
      rewrite Hr0 in Hr1. injection Hr1 as <-.
      split; [rewrite length_insert; exact Hlx|].
      rewrite list_lookup_insert_eq by exact Hil. f_equal.
      rewrite length_app. simpl length. rewrite Nat.add_1_r.
      apply (insert_map_take_drop (mean_of sz)); [exact Hy | lia]. }
  destruct HP as (_ & Hcx). rewrite Hcx, length_seq. f_equal.
  rewrite take_ge, drop_ge, app_nil_r by lia. reflexivity.
Qed.

Lemma update_steps_exact (c : cluster_bed_matrix) (sizes : list Z)
    (c1 cs cs' : list (list float)) :
  rect (Z.to_nat (k c)) (Z.to_nat (m c)) cs ->
  rect (Z.to_nat (k c)) (Z.to_nat (m c)) c1 ->
  for_each (upto 0 (k c)) (update_step c sizes c1) cs = Ok cs' ->
  forall i sz r, sizes !! i = Some sz -> c1 !! i = Some r ->
                 cs' !! i = Some (map (mean_of sz) r).
Proof.
  intros Hr Hr1 Hrun. rewrite upto_0 in Hrun.
  set (kk := Z.to_nat (k c)) in *. set (mm := Z.to_nat (m c)) in *.
  pose (P := fun (pre : list nat) (x : list (list float)) =>
    rect kk mm x /\
    forall i sz r, i ∈ pre -> sizes !! i = Some sz -> c1 !! i = Some r ->
                   x !! i = Some (map (mean_of sz) r)).
  assert (HP : P (seq 0 kk) cs').
  { apply (for_each_ind P (update_step c sizes c1) _ cs); [ | | exact Hrun].
    - split; [exact Hr|]. intros i sz r Hi. inversion Hi.
    - intros pre i suf x x' Hidx [Hrx Hdone] Hb.
      apply seq_split_at in Hidx. destruct Hidx as (_ & Hi & Hlt & _).
      simpl in Hi. subst i. unfold update_step in Hb. rewrite upto_0 in Hb. fold mm in Hb.
      destruct (lookup_lt_is_Some_2 x (length pre)) as [cx Hcx]; [destruct Hrx; lia|].
      destruct (update_cells _ _ _ kk mm _ _ cx Hrx Hcx Hb) as (Hrx' & Hsame & _).
      split; [exact Hrx'|]. intros i sz r Hi Hs0 Hr0.
      assert (Hnew : i = length pre -> x' !! i = Some (map (mean_of sz) r)).
      { intros ->.
        apply (update_cells_exact _ _ _ kk mm _ _ cx sz r Hrx Hcx Hs0 Hr0); [|exact Hb].
        exact (proj1 (rect_lookup _ _ _ _ _ Hr1 Hr0)). }
      apply elem_of_app in Hi. destruct Hi as [Hi|Hi].
      + destruct (decide (i = length pre)) as [Heq|Hne]; [auto|].
        rewrite Hsame by auto. apply Hdone; auto.
      + apply list_elem_of_singleton in Hi. auto. }
  destruct HP as [Hrx Hdone].
  intros i sz r Hs0 Hr0. apply Hdone; auto.
  apply elem_of_seq. split; [lia|]. simpl.
  destruct (rect_lookup _ _ _ _ _ Hr1 Hr0). lia.
Qed.

(** One iteration, in full: sizes count the members, centroids are the
    members' sums divided by the sizes. *)
Lemma iteration_clusters (mem : rowstore) (c : cluster_bed_matrix) (s s' : kstate) :
  kshape c s ->
  iteration mem c s = Ok s' ->
  forall i : nat, (i < Z.to_nat (k c))%nat ->
    let mem_i := members c (ks_labels s') i in
    let sz := Z.of_nat (length mem_i) in
    ks_sizes s' !! i = Some sz /\
    ks_centroids s' !! i =
      Some (map (mean_of sz)
              (vector_sum (replicate (Z.to_nat (m c)) 0%float)
                          (map (matrix_row mem c) mem_i))).
Proof.
  intros [Hl Hs Hc Hc1] Hrun i Hi. unfold iteration in Hrun.
  rewrite clear_steps in Hrun by assumption. simpl in Hrun.
  bind_inv Hrun as s1 Hrows.
  bind_inv Hrun as cs Hupd.
  injection Hrun as <-. simpl.
  unfold members, upto in Hrows |- *.
  assert (Hsh : kshape c (mkKstate (ks_labels s)
            (replicate (Z.to_nat (k c)) 0) (ks_centroids s)
            (replicate (Z.to_nat (k c)) (replicate (Z.to_nat (m c)) 0%float)) 0%float)).
  { constructor; simpl; auto using rect_replicate, length_replicate. }
  destruct (rows_loop _ _ _ _ _ _ Hsh Hrows) as ([Hl1 Hs1 Hcs1 Hc11] & _).
  destruct (rows_loop_sums _ _ _ _ _ _ Hsh Hrows i 0
              (replicate (Z.to_nat (m c)) 0%float)) as [Hsz Hsum].
  { simpl. apply lookup_replicate. auto. }
  { simpl. apply lookup_replicate. auto. }
  rewrite Z.add_0_l in Hsz. split; [exact Hsz|].
  apply (update_steps_exact _ _ _ _ _ Hcs1 Hc11 Hupd _ _ _ Hsz Hsum).
Qed.

(** X10. The cluster sizes [k_means] stores in the result are the numbers
    of active rows carrying each label in the labels it returns. *)
Theorem k_means_cluster_sizes (mem : rowstore) (fuel : nat)
    (c c' : cluster_bed_matrix) (t : float) (labels : list Z)
    (trace : list float) (i : nat) :
  k_means mem fuel c t = Ok (c', labels, trace) ->
  (i < Z.to_nat (k c))%nat ->
  cluster_sizes c' !! i = Some (Z.of_nat (length (members c labels i))).
Proof.
  intros Hrun Hi.
  destruct (k_means_spec _ _ _ _ _ _ _ Hrun) as (sp & s' & Hlh & Hit & -> & -> & _).
  simpl. apply (iteration_clusters _ _ _ _ (loop_head_shape _ _ _ Hlh) Hit i Hi).
Qed.

Lemma k_means_cluster_sizes_witness :
  cluster_sizes (fst (fst ex_km)) !! 0%nat =
  Some (Z.of_nat (length (members ex_cbm (snd (fst ex_km)) 0))).
Proof.
  apply (k_means_cluster_sizes ex_mem 10 ex_cbm (fst (fst ex_km)) ex_t
           (snd (fst ex_km)) (snd ex_km)).
  - vm_compute. reflexivity.
  - vm_compute. lia.
Defined.

(** X11. The centroid [k_means] stores for a cluster that has a member is
    the mean of its members: their rows added up in row order onto the
    zero vector, each coordinate then divided by the cluster size. *)
Theorem k_means_centroids_are_means (mem : rowstore) (fuel : nat)
    (c c' : cluster_bed_matrix) (t : float) (labels : list Z)
    (trace : list float) (i : nat) :
  k_means mem fuel c t = Ok (c', labels, trace) ->
  (i < Z.to_nat (k c))%nat ->
  members c labels i <> [] ->
  centroids c' !! i =
  Some (map (fun x => (x / double_of_int (Z.of_nat (length (members c labels i))))%float)
          (vector_sum (replicate (Z.to_nat (m c)) 0%float)
                      (map (matrix_row mem c) (members c labels i)))).
Proof.
  intros Hrun Hi Hne.
  destruct (k_means_spec _ _ _ _ _ _ _ Hrun) as (sp & s' & Hlh & Hit & -> & -> & _).
  simpl.
  destruct (iteration_clusters _ _ _ _ (loop_head_shape _ _ _ Hlh) Hit i Hi) as [_ Hc].
  simpl in Hc. rewrite Hc. f_equal. apply map_ext. intros x. unfold mean_of.
  destruct (Z.eqb_spec (Z.of_nat (length (members c (ks_labels s') i))) 0) as [E|E];
    [|reflexivity].
  destruct (members c (ks_labels s') i); [contradiction|simpl in E; lia].
Qed.

Lemma k_means_centroids_are_means_witness :
  centroids (fst (fst ex_km)) !! 0%nat =
  Some (map (fun x => (x / double_of_int
                             (Z.of_nat (length (members ex_cbm (snd (fst ex_km)) 0))))%float)
          (vector_sum (replicate (Z.to_nat (m ex_cbm)) 0%float)
                      (map (matrix_row ex_mem ex_cbm) (members ex_cbm (snd (fst ex_km)) 0)))).
Proof.
  apply (k_means_centroids_are_means ex_mem 10 ex_cbm (fst (fst ex_km)) ex_t
           (snd (fst ex_km)) (snd ex_km)).
  - vm_compute. reflexivity.
  - vm_compute. lia.
  - vm_compute. discriminate.
Defined.

(** ** Cluster sizes and the labels [do_kmeans] leaves *)

Lemma count_by_index {A : Type} (P : A -> Prop) (Q : nat -> Prop)
    `{forall x, Decision (P x)} `{forall j, Decision (Q j)} (l : list A) :
  (forall (j : nat) x, l !! j = Some x -> P x <-> Q j) ->
  length (filter P l) = length (filter Q (seq 0 (length l))).
Proof.
  induction l as [|x l IH] using rev_ind; intros Hpq; [reflexivity|].
  rewrite length_app. simpl length. rewrite Nat.add_1_r, seq_S, !filter_app, !length_app.
  rewrite IH.
  2:{ intros j y Hj. apply Hpq. rewrite lookup_app_l; [exact Hj|].
      eapply lookup_lt_Some; eauto. }
  f_equal. simpl.
  assert (Hx : P x <-> Q (length l)).
  { apply Hpq. apply list_lookup_middle. reflexivity. }
  rewrite !filter_cons, !filter_nil.
  destruct (decide (P x)), (decide (Q (length l))); tauto.
Qed.

(** The descriptors labelled [i] after [do_kmeans] are as many as the
    rows [k_means] counted in cluster [i]. *)
Lemma do_kmeans_counts
    (qsort : (perBaseWig -> perBaseWig -> Z) -> list perBaseWig -> list perBaseWig)
    (mem : rowstore) (fuel : nat) (t : float)
    (c c' : cluster_bed_matrix) (i : nat) :
  qsort_spec qsort ->
  wf_cbm mem c ->
  do_kmeans qsort mem fuel c t = Ok c' ->
  (i < Z.to_nat (k c))%nat ->
  cluster_sizes c' !! i =
  Some (Z.of_nat (length (filter (fun w => label w = Z.of_nat i) (array (pbm c'))))).
Proof.
  intros Hq Hwf Hrun Hi. unfold do_kmeans in Hrun.
  bind_inv Hrun as [[c1 labels] trace] Hkm.
  bind_inv Hrun as arr2 Hrel.
  bind_inv Hrun as arr3 Hsort.
  bind_inv Hrun as mat3 Hsync.
  injection Hrun as <-. simpl.
  destruct (k_means_spec _ _ _ _ _ _ _ Hkm) as (sp & s' & Hlh & Hit & -> & -> & _).
  simpl in *.
  destruct (iteration_clusters _ _ _ _ (loop_head_shape _ _ _ Hlh) Hit i Hi) as [Hsz _].
  simpl in Hsz. rewrite Hsz. do 2 f_equal.
  destruct Hwf as [Hn Hm Hlen Hint Hmp Hna Hsy Hrows Hex Hac].
  unfold upto in Hrel. apply relabel_loop in Hrel.
  destruct Hrel as (Hlen2 & Hout & Hin).
  assert (Hnr : nrow (pbm c) = Z.of_nat (length arr2)) by (rewrite Hlen2; lia).
  rewrite Hnr in Hsort. rewrite qsort_array_eq in Hsort. injection Hsort as <-.
  rewrite (Permutation_length
             (filter_Permutation _ _ _ (proj1 (Hq perBaseWigLabelCmp arr2)))).
  rewrite (count_by_index _
             (fun j => (Z.to_nat (num_na c) <= j)%nat /\
                       ks_labels s' !! j = Some (Z.of_nat i))).
  - unfold members, upto.
    assert (Hsplit : length arr2 =
              (Z.to_nat (num_na c) + Z.to_nat (n c - num_na c))%nat).
    { rewrite Hlen2. lia. }
    rewrite Hsplit.
    rewrite seq_app, filter_app, length_app. simpl.
    rewrite (filter_none _ (seq 0 (Z.to_nat (num_na c)))).
    2:{ apply Forall_forall. intros j Hj [Hge _]. apply elem_of_seq in Hj. lia. }
    simpl. f_equal. apply filter_ext_in. intros j Hj.
    apply elem_of_seq in Hj. intuition lia.
  - intros j x Hj.
    destruct (decide (Z.to_nat (num_na c) <= j)%nat) as [Hge|Hlt].
    + destruct (Hin j) as (w & l & Hw & Hl & Hw2).
      { apply lookup_lt_Some in Hj. lia. }
      rewrite Hj in Hw2. injection Hw2 as ->. simpl. rewrite Hl.
      split; [intros ->; auto|intros [_ E]; congruence].
    + rewrite Hout in Hj by lia.
      destruct (Hex j x Hj) as [Hl _]; [lia|]. rewrite Hl. split; lia.
Qed.

(** X12. After [do_kmeans], [cluster_sizes[i]] is the number of rows of
    the sorted matrix that carry the label [i]. *)
Theorem do_kmeans_sizes_count
    (qsort : (perBaseWig -> perBaseWig -> Z) -> list perBaseWig -> list perBaseWig)
    (mem : rowstore) (fuel : nat) (t : float)
    (c c' : cluster_bed_matrix) (i : nat) :
  qsort_spec qsort ->
  wf_cbm mem c ->
  do_kmeans qsort mem fuel c t = Ok c' ->
  (i < Z.to_nat (k c))%nat ->
  cluster_sizes c' !! i =
  Some (Z.of_nat (length (filter (fun w => label w = Z.of_nat i) (array (pbm c'))))).
Proof. apply do_kmeans_counts. Qed.

Lemma do_kmeans_sizes_count_witness :
  cluster_sizes ex_final !! 1%nat =
  Some (Z.of_nat (length (filter (fun w => label w = Z.of_nat 1)
                                 (array (pbm ex_final))))).
Proof.
  apply (do_kmeans_sizes_count sort_early ex_mem 10 ex_t ex_cbm ex_final 1).
  - exact sort_early_spec.
  - exact ex_cbm_wf.
  - vm_compute. reflexivity.
  - vm_compute. lia.
Defined.

Lemma sorted_prefix_count {A : Type} (key : A -> Z) (v : Z) (l : list A) :
  StronglySorted (fun a b => key a <= key b) l ->
  forall (pos : nat) w, l !! pos = Some w ->
    (key w < v <-> (pos < length (filter (fun a => (key a < v)%Z) l))%nat).
Proof.
  induction 1 as [|x l Hs IH Hall]; intros pos w Hp; [discriminate|].
  rewrite filter_cons. destruct (decide (key x < v)) as [Hx|Hx].
  - simpl length. destruct pos as [|pos]; simpl in Hp.
    + injection Hp as <-. split; [lia|auto].
    + rewrite (IH pos w Hp). lia.
  - rewrite filter_none.
    2:{ eapply Forall_impl; [exact Hall|]. simpl. intros a Ha. lia. }
    simpl. split; [|lia]. intros Hw. destruct pos as [|pos]; simpl in Hp.
    + injection Hp as <-. lia.
    + rewrite Forall_forall in Hall.
      assert (key x <= key w) by (apply Hall; eapply list_elem_of_lookup_2; eauto).
      lia.
Qed.

Lemma count_lt_succ {A : Type} (key : A -> Z) (v : Z) (l : list A) :
  length (filter (fun a => key a < v + 1) l) =
  (length (filter (fun a => (key a < v)%Z) l) +
   length (filter (fun a => key a = v) l))%nat.
Proof.
  induction l as [|x l IH]; [reflexivity|]. rewrite !filter_cons.
  destruct (decide (key x < v + 1)), (decide (key x < v)), (decide (key x = v));
    simpl; lia.
Qed.

Lemma sum_sizes_app (l1 l2 : list Z) :
  sum_sizes (l1 ++ l2) = sum_sizes l1 + sum_sizes l2.
Proof. induction l1 as [|x l1 IH]; simpl in *; lia. Qed.

(** X13. After [do_kmeans] the clusters are blocks of the sorted matrix:
    the rows labelled [i] are those at the places from
    [num_na + cluster_sizes[0] + ... + cluster_sizes[i-1]] up to, and not
    including, that place plus [cluster_sizes[i]]. *)
Theorem do_kmeans_cluster_blocks
    (qsort : (perBaseWig -> perBaseWig -> Z) -> list perBaseWig -> list perBaseWig)
    (mem : rowstore) (fuel : nat) (t : float)
    (c c' : cluster_bed_matrix) (i pos : nat) (w : perBaseWig) :
  qsort_spec qsort ->
  wf_cbm mem c ->
  k c <= INT_MAX ->
  do_kmeans qsort mem fuel c t = Ok c' ->
  (i < Z.to_nat (k c))%nat ->
  array (pbm c') !! pos = Some w ->
  (label w = Z.of_nat i <->
   num_na c' + sum_sizes (take i (cluster_sizes c')) <= Z.of_nat pos
     < num_na c' + sum_sizes (take (S i) (cluster_sizes c'))).
Proof.
  intros Hq Hwf Hk Hrun Hi Hpos.
  destruct (do_kmeans_spec qsort Hq mem fuel c c' t Hwf Hrun)
    as (arr2 & Harr & _ & _ & _ & _ & _ & _ & Hna & Hlen & Hrows).
  destruct (sorted_rows qsort Hq mem c arr2 Hwf Hk Hlen Hrows) as [Hsorted Hidx].
  rewrite <- Harr in Hsorted, Hidx. rewrite Hna.
  set (arr := array (pbm c')) in *.
  assert (Hlen' : length arr = Z.to_nat (n c)).
  { rewrite Harr, (qsort_length qsort Hq), Hlen, (wc_len _ _ Hwf).
    rewrite Nat2Z.id. reflexivity. }
  destruct (wc_na _ _ Hwf) as [Hna0 Hnan].
  assert (Hcnt : forall j : nat, (j <= Z.to_nat (k c))%nat ->
            Z.of_nat (length (filter (fun a => label a < Z.of_nat j) arr)) =
            num_na c + sum_sizes (take j (cluster_sizes c'))).
  { induction j as [|j IH]; intros Hj.
    - rewrite take_0. simpl sum_sizes.
      rewrite (count_by_index _ (fun p => (p < Z.to_nat (num_na c))%nat)).
      + rewrite Hlen'.
        replace (Z.to_nat (n c))
          with (Z.to_nat (num_na c) + Z.to_nat (n c - num_na c))%nat by lia.
        rewrite seq_app, filter_app, length_app.
        rewrite filter_all, filter_none, length_seq.
        * simpl. lia.
        * apply Forall_forall. intros p Hp. apply elem_of_seq in Hp. lia.
        * apply Forall_forall. intros p Hp. apply elem_of_seq in Hp. lia.
      + intros p x Hp. destruct (Hidx p x Hp) as [Hlo Hhi]. simpl. split.
        * intros Hx. destruct (decide (p < Z.to_nat (num_na c))%nat); [auto|].
          destruct Hhi as [Hr _]; lia.
        * intros Hx. destruct Hlo as [Hl _]; lia.
    - pose proof (do_kmeans_counts qsort mem fuel t c c' j Hq Hwf Hrun) as Hsz.
      fold arr in Hsz. specialize (Hsz ltac:(lia)).
      rewrite (take_S_r _ _ _ Hsz), sum_sizes_app. simpl sum_sizes.
      rewrite Nat2Z.inj_succ, <- Z.add_1_r, count_lt_succ, Nat2Z.inj_add, IH by lia.
      lia. }
  pose proof (sorted_prefix_count label (Z.of_nat i) arr Hsorted pos w Hpos) as Hlo.
  pose proof (sorted_prefix_count label (Z.of_nat (S i)) arr Hsorted pos w Hpos) as Hhi.
  pose proof (Hcnt i ltac:(lia)) as Hci. pose proof (Hcnt (S i) ltac:(lia)) as Hcs.
  split.
  - intros Hl. split.
    + destruct (decide (pos < length (filter (fun a => (label a < Z.of_nat i)%Z) arr))%nat)
        as [Hlt|Hge]; [apply Hlo in Hlt; lia|lia].
    + assert (pos < length (filter (fun a => (label a < Z.of_nat (S i))%Z) arr))%nat
        by (apply Hhi; lia). lia.
  - intros [H1 H2].
    assert (label w < Z.of_nat (S i)) by (apply Hhi; lia).
    destruct (decide (label w < Z.of_nat i)) as [Hlt|Hge]; [apply Hlo in Hlt; lia|lia].
Qed.

Lemma do_kmeans_cluster_blocks_witness :
  label (mkPerBaseWig 1 5%nat) = Z.of_nat 1 <->
  num_na ex_final + sum_sizes (take 1 (cluster_sizes ex_final)) <= Z.of_nat 5
    < num_na ex_final + sum_sizes (take 2 (cluster_sizes ex_final)).
Proof.
  apply (do_kmeans_cluster_blocks sort_early ex_mem 10 ex_t ex_cbm ex_final
           1 5 (mkPerBaseWig 1 5%nat)).
  - exact sort_early_spec.
  - exact ex_cbm_wf.
  - vm_compute. discriminate.
  - vm_compute. reflexivity.
  - vm_compute. lia.
  - vm_compute. reflexivity.
Defined.

(** ** Memory safety of [k_means] *)

(** Every row of a well-formed state is there, with its [m] values. *)
Lemma wf_row (mem : rowstore) (c : cluster_bed_matrix) (h : nat) :
  wf_cbm mem c -> (h < Z.to_nat (n c))%nat ->
  exists p r, matrix (pbm c) !! h = Some p /\ mem !! p = Some r /\
              length r = Z.to_nat (m c).
Proof.
  intros Hwf Hh. pose proof (wc_len _ _ Hwf) as Hlen.
  destruct (lookup_lt_is_Some_2 (array (pbm c)) h) as [w Hw]; [lia|].
  destruct (wc_rows _ _ Hwf w) as (r & Hr & Hl);
    [eapply list_elem_of_lookup_2; eauto|].
  exists (data w), r. rewrite (wc_sync _ _ Hwf), list_lookup_fmap, Hw.
  split; [reflexivity|]. split; [exact Hr|lia].
Qed.

Lemma distance_total (mem : rowstore) (c : cluster_bed_matrix)
    (cs : list (list float)) (h i : nat) p r ci :
  matrix (pbm c) !! h = Some p -> mem !! p = Some r ->
  length r = Z.to_nat (m c) ->
  cs !! i = Some ci -> length ci = Z.to_nat (m c) ->
  exists d, distance mem c cs h i = Ok d.
Proof.
  intros Hp Hr Hrl Hci Hcil. unfold distance, downfrom.
  destruct (for_each_total (fun _ _ => True)
              (dist_step mem (matrix (pbm c)) cs h i)
              (rev (seq 0 (Z.to_nat (m c)))) 0%float) as (d & Hd & _);
    [exact I| |eauto].
  intros pre j suf d Hidx _. apply rev_seq_split_at in Hidx.
  destruct (lookup_lt_is_Some_2 r j) as [x Hx]; [lia|].
  destruct (lookup_lt_is_Some_2 ci j) as [y Hy]; [lia|].
  assert (Hc : cell mem (matrix (pbm c)) h j = Ok x) by (apply cell_Ok; eauto).
  apply get_Ok in Hci, Hy.
  exists (d + pow2 (x - y))%float. split; [|exact I].
  unfold dist_step. rewrite Hc. cbn [bind]. rewrite Hci. cbn [bind].
  rewrite Hy. reflexivity.
Qed.

Lemma closest_total (mem : rowstore) (c : cluster_bed_matrix)
    (cs : list (list float)) (h : nat) (ls : list Z) p r :
  matrix (pbm c) !! h = Some p -> mem !! p = Some r ->
  length r = Z.to_nat (m c) ->
  rect (Z.to_nat (k c)) (Z.to_nat (m c)) cs ->
  (h < length ls)%nat ->
  exists st, closest mem c cs h ls = Ok st.
Proof.
  intros Hp Hr Hrl Hrect Hh. unfold closest. rewrite upto_0.
  destruct (for_each_total (fun _ (st : list Z * float) => length (fst st) = length ls)
              (closest_step mem c cs h)
              (seq 0 (Z.to_nat (k c))) (ls, DBL_MAX)) as (st & Hst & _);
    [reflexivity| |eauto].
  intros pre i suf [l0 m0] Hidx Hl0. simpl in Hl0.
  apply seq_split_at in Hidx. destruct Hidx as (_ & Hi & Hlt & _). simpl in Hi.
  destruct (lookup_lt_is_Some_2 cs i) as [ci Hci]; [destruct Hrect; lia|].
  destruct (rect_lookup _ _ _ _ _ Hrect Hci) as [Hcil _].
  destruct (distance_total mem c cs h i p r ci Hp Hr Hrl Hci Hcil) as [d Hd].
  unfold closest_step. rewrite Hd. cbn [bind snd fst].
  destruct (d <? m0)%float.
  - unfold put. rewrite bool_decide_true by lia. cbn [bind].
    eexists. split; [reflexivity|]. simpl. rewrite length_insert. exact Hl0.
  - eexists. split; [reflexivity|]. exact Hl0.
Qed.

Lemma accum_total (mem : rowstore) (c : cluster_bed_matrix) (h : nat) (l : Z)
    (a : list (list float)) p r :
  matrix (pbm c) !! h = Some p -> mem !! p = Some r ->
  length r = Z.to_nat (m c) ->
  rect (Z.to_nat (k c)) (Z.to_nat (m c)) a ->
  0 <= l < k c ->
  exists a', for_each (downfrom (m c)) (accum_cell mem (matrix (pbm c)) h l) a = Ok a'.
Proof.
  intros Hp Hr Hrl Hrect Hl. unfold downfrom.
  destruct (for_each_total (fun _ x => rect (Z.to_nat (k c)) (Z.to_nat (m c)) x)
              (accum_cell mem (matrix (pbm c)) h l)
              (rev (seq 0 (Z.to_nat (m c)))) a) as (a' & Ha' & _);
    [exact Hrect| |eauto].
  intros pre j suf x Hidx Hx. apply rev_seq_split_at in Hidx.
  destruct (lookup_lt_is_Some_2 r j) as [v Hv]; [lia|].
  assert (Hc : cell mem (matrix (pbm c)) h j = Ok v) by (apply cell_Ok; eauto).
  destruct (lookup_lt_is_Some_2 x (Z.to_nat l)) as [rx Hrx]; [destruct Hx; lia|].
  destruct (rect_lookup _ _ _ _ _ Hx Hrx) as [Hrxl Hlk].
  destruct (lookup_lt_is_Some_2 rx j) as [y Hy]; [lia|].
  assert (Hg : zget x l = Ok rx) by (apply zget_Ok; split; [lia|exact Hrx]).
  apply get_Ok in Hy.
  exists (<[Z.to_nat l := <[j := (y + v)%float]> rx]> x). split.
  - unfold accum_cell. rewrite Hc. cbn [bind]. rewrite Hg. cbn [bind].
    rewrite Hy. cbn [bind].
    rewrite (proj2 (put_Ok rx (<[j := (y + v)%float]> rx) j (y + v)%float))
      by (split; [lia|reflexivity]).
    cbn [bind]. apply zput_Ok. split; [lia|]. split; [destruct Hx; lia|reflexivity].
  - apply rect_insert; [exact Hx|]. rewrite length_insert. exact Hrxl.
Qed.

(** One active row is served without a fault when the labels on entry
    are cluster numbers. *)
Lemma assign_row_total (mem : rowstore) (c : cluster_bed_matrix) (h : nat)
    (s : kstate) :
  wf_cbm mem c -> (h < Z.to_nat (n c))%nat ->
  kshape c s ->
  (forall h' l, ks_labels s !! h' = Some l -> 0 <= l < k c) ->
  exists s', assign_row mem c h s = Ok s'.
Proof.
  intros Hwf Hh Hsh Hlab.
  destruct (wf_row mem c h Hwf Hh) as (p & r & Hp & Hr & Hrl).
  destruct Hsh as [Hl Hs Hc Hc1].
  destruct (closest_total mem c (ks_centroids s) h (ks_labels s) p r Hp Hr Hrl Hc)
    as [[ls md] Hclo]; [lia|].
  destruct (closest_spec _ _ _ _ _ _ _ Hclo) as (ds & Hds & _ & Hcase).
  assert (Hdl : length ds = Z.to_nat (k c)).
  { unfold distances in Hds. apply Forall2_length in Hds.
    rewrite upto_0, length_seq in Hds. lia. }
  assert (Hget : exists l, ls !! h = Some l /\ 0 <= l < k c).
  { destruct Hcase as [[_ ->]|(i & (d & Hi & _) & _ & Hhl & ->)].
    - destruct (lookup_lt_is_Some_2 (ks_labels s) h) as [l Hl']; [lia|].
      exists l. split; [exact Hl'|]. eapply Hlab; eauto.
    - exists (Z.of_nat i). split; [apply list_lookup_insert_eq; exact Hhl|].
      apply lookup_lt_Some in Hi. lia. }
  destruct Hget as (l & Hlh & Hrange).
  destruct (accum_total mem c h l (ks_c1 s) p r Hp Hr Hrl Hc1 Hrange) as [a' Ha'].
  destruct (lookup_lt_is_Some_2 (ks_sizes s) (Z.to_nat l)) as [z Hz]; [lia|].
  apply get_Ok in Hlh.
  assert (Hg : zget (ks_sizes s) l = Ok z) by (apply zget_Ok; split; [lia|exact Hz]).
  eexists. unfold assign_row. rewrite Hclo. cbn [bind]. rewrite Hlh. cbn [bind].
  rewrite Ha'. cbn [bind]. rewrite Hg. cbn [bind].
  rewrite (proj2 (zput_Ok (ks_sizes s) (<[Z.to_nat l := z + 1]> (ks_sizes s)) l (z + 1)));
    [reflexivity|].
  split; [lia|]. split; [lia|reflexivity].
Qed.

Lemma update_total (c : cluster_bed_matrix) (sizes : list Z)
    (c1 cs : list (list float)) :
  length sizes = Z.to_nat (k c) ->
  rect (Z.to_nat (k c)) (Z.to_nat (m c)) c1 ->
  rect (Z.to_nat (k c)) (Z.to_nat (m c)) cs ->
  exists cs', for_each (upto 0 (k c)) (update_step c sizes c1) cs = Ok cs'.
Proof.
  intros Hs Hc1 Hcs. rewrite upto_0.
  set (kk := Z.to_nat (k c)) in *. set (mm := Z.to_nat (m c)) in *.
  destruct (for_each_total (fun _ x => rect kk mm x)
              (update_step c sizes c1) (seq 0 kk) cs) as (cs' & Hrun & _);
    [exact Hcs| |eauto].
  intros pre i suf x Hidx Hx.
  apply seq_split_at in Hidx. destruct Hidx as (_ & Hi & Hlt & _). simpl in Hi.
  unfold update_step. rewrite upto_0. fold mm.
  apply (for_each_total (fun _ y => rect kk mm y)); [exact Hx|].
  intros pre' j suf' y Hidx' Hy.
  apply seq_split_at in Hidx'. destruct Hidx' as (_ & Hj & Hjlt & _). simpl in Hj.
  destruct (lookup_lt_is_Some_2 sizes i) as [sz Hsz]; [lia|].
  destruct (lookup_lt_is_Some_2 c1 i) as [r Hr]; [destruct Hc1; lia|].
  destruct (rect_lookup _ _ _ _ _ Hc1 Hr) as [Hrl _].
  destruct (lookup_lt_is_Some_2 r j) as [v Hv]; [lia|].
  destruct (lookup_lt_is_Some_2 y i) as [ci Hci]; [destruct Hy; lia|].
  destruct (rect_lookup _ _ _ _ _ Hy Hci) as [Hcil _].
  apply get_Ok in Hsz, Hr, Hv, Hci.
  eexists. split.
  - unfold update_cell. rewrite Hsz. cbn [bind]. rewrite Hr. cbn [bind].
    rewrite Hv. cbn [bind]. rewrite Hci. cbn [bind].
    unfold put at 1. rewrite bool_decide_true by lia.
    cbn [bind]. apply put_Ok. split; [destruct Hy; lia|reflexivity].
  - apply rect_insert; [exact Hy|]. rewrite length_insert. exact Hcil.
Qed.

(** An iteration runs through when the labels on entry are cluster
    numbers. *)
Lemma iteration_total (mem : rowstore) (c : cluster_bed_matrix) (s : kstate) :
  wf_cbm mem c ->
  kshape c s ->
  (forall h l, ks_labels s !! h = Some l -> 0 <= l < k c) ->
  exists s', iteration mem c s = Ok s'.
Proof.
  intros Hwf Hsh Hlab. destruct (wc_na _ _ Hwf) as [Hna0 Hnan].
  pose proof Hsh as [Hl Hs Hc Hc1]. unfold iteration.
  rewrite clear_steps by assumption. cbn [bind].
  destruct (for_each_total
    (fun _ x => kshape c x /\
                forall h l, ks_labels x !! h = Some l -> 0 <= l < k c)
    (assign_row mem c) (upto (num_na c) (n c))
    (mkKstate (ks_labels s) (replicate (Z.to_nat (k c)) 0) (ks_centroids s)
       (replicate (Z.to_nat (k c)) (replicate (Z.to_nat (m c)) 0%float)) 0%float))
    as (s1 & Hrows & Hsh1 & _).
  - split; [|exact Hlab].
    constructor; simpl; auto using rect_replicate, length_replicate.
  - intros pre h suf x Hidx [Hx Hxl]. unfold upto in Hidx.
    apply seq_split_at in Hidx. destruct Hidx as (_ & Hh & Hlt & _).
    destruct (assign_row_total mem c h x Hwf) as [x' Hx']; [lia|exact Hx|exact Hxl|].
    exists x'. split; [exact Hx'|].
    destruct (assign_row_spec _ _ _ _ _ Hx Hx')
      as (Hk' & _ & Hother & (l & z & Hlh & Hrange & _) & _).
    split; [exact Hk'|]. intros h' l' Hl'.
    destruct (decide (h' = h)) as [->|Hne].
    + rewrite Hlh in Hl'. injection Hl' as <-. exact Hrange.
    + rewrite Hother in Hl' by exact Hne. eapply Hxl; eauto.
  - rewrite Hrows. cbn [bind]. destruct Hsh1 as [_ Hs1 Hcs1 Hc11].
    destruct (update_total c (ks_sizes s1) (ks_c1 s1) (ks_centroids s1) Hs1 Hc11 Hcs1)
      as [cs Hcs].
    rewrite Hcs. cbn [bind]. eauto.
Qed.

(** At the head of the loop the labels are cluster numbers. *)
Lemma loop_head_labels (mem : rowstore) (c : cluster_bed_matrix) (s : kstate) :
  0 < k c ->
  loop_head mem c s ->
  forall h l, ks_labels s !! h = Some l -> 0 <= l < k c.
Proof.
  intros Hk. induction 1 as [s Hinit|s s' Hlh IH Hit]; intros h l Hl.
  - destruct (k_means_init_spec _ _ _ Hinit) as (_ & _ & Hls & _).
    rewrite Hls in Hl. apply lookup_replicate in Hl. lia.
  - destruct (iteration_spec _ _ _ _ (loop_head_shape _ _ _ Hlh) Hit)
      as (_ & Hout & Hin & _).
    destruct (decide (h ∈ upto (num_na c) (n c))) as [Hh|Hh].
    + destruct (Hin h Hh) as (l' & Hl' & Hr & _). congruence.
    + rewrite (Hout h Hh) in Hl. eapply IH; eauto.
Qed.

Lemma k_means_init_total (mem : rowstore) (c : cluster_bed_matrix) :
  wf_cbm mem c -> 0 < k c -> num_na c < n c ->
  exists s0, k_means_init mem c = Ok s0.
Proof.
  intros Hwf Hk Hact. destruct (wc_na _ _ Hwf) as [Hna0 _].
  pose proof (wc_m_pos _ _ Hwf) as Hm.
  unfold k_means_init. rewrite !alloc_rows_eq by lia. unfold AllocArray.
  destruct (Z.ltb_spec (n c) 0); [lia|]. destruct (Z.ltb_spec (k c) 0); [lia|].
  cbn [bind].
  rewrite (seed_total mem c _ Hwf Hk Hact (rect_replicate _ _ _)). cbn [bind].
  eauto.
Qed.

Lemma main_loop_total (mem : rowstore) (c : cluster_bed_matrix) (t : float) :
  wf_cbm mem c -> 0 < k c ->
  forall (fuel : nat) (s : kstate) (tr : list float),
    loop_head mem c s ->
    (exists res, main_loop mem fuel c t s tr = Ok res) \/
    main_loop mem fuel c t s tr = Timeout.
Proof.
  intros Hwf Hk. induction fuel as [|fuel IH]; intros s tr Hlh; [right; reflexivity|].
  destruct (iteration_total mem c s Hwf (loop_head_shape _ _ _ Hlh)
              (loop_head_labels _ _ _ Hk Hlh)) as [s' Hit].
  simpl. rewrite Hit. cbn [bind].
  destruct (t <? fabs (ks_error s' - ks_error s))%float.
  - apply IH. eapply loop_head_next; eauto.
  - left. eauto.
Qed.

(** X14. On a well-formed state with [k >= 1] and a row without NaN,
    [k_means] stays within its arrays: no read or write is out of
    bounds and no allocation is refused, however long the loop runs. *)
Theorem k_means_memory_safe (mem : rowstore) (fuel : nat)
    (c : cluster_bed_matrix) (t : float) :
  wf_cbm mem c ->
  0 < k c ->
  num_na c < n c ->
  (exists res, k_means mem fuel c t = Ok res) \/
  k_means mem fuel c t = Timeout.
Proof.
  intros Hwf Hk Hact.
  destruct (k_means_init_total mem c Hwf Hk Hact) as [s0 Hinit].
  unfold k_means. rewrite Hinit. cbn [bind].
  destruct (main_loop_total mem c t Hwf Hk fuel s0 [] (loop_head_init _ _ _ Hinit))
    as [[[s tr] Hres]|Hto]; [rewrite Hres|rewrite Hto].
  - left. cbn [bind]. eauto.
  - right. reflexivity.
Qed.

Lemma k_means_memory_safe_witness :
  (exists res, k_means ex_mem 1 ex_cbm ex_t = Ok res) \/
  k_means ex_mem 1 ex_cbm ex_t = Timeout.
Proof.
  apply (k_means_memory_safe ex_mem 1 ex_cbm ex_t).
  - exact ex_cbm_wf.
  - reflexivity.
  - reflexivity.
Defined.

(** ** Memory safety of [do_kmeans] *)

Lemma relabel_total (labels : list Z) (lo len : nat) (arr : list perBaseWig) :
  (lo + len <= length labels)%nat -> (lo + len <= length arr)%nat ->
  exists arr', for_each (seq lo len) (relabel_step labels) arr = Ok arr'.
Proof.
  intros Hl Ha.
  destruct (for_each_total (fun _ x => length x = length arr)
              (relabel_step labels) (seq lo len) arr) as (arr' & Hrun & _);
    [reflexivity| |eauto].
  intros pre i suf x Hidx Hx.
  apply seq_split_at in Hidx. destruct Hidx as (_ & Hi & Hlt & _).
  destruct (lookup_lt_is_Some_2 labels i) as [l Hli]; [lia|].
  destruct (lookup_lt_is_Some_2 x i) as [w Hw]; [lia|].
  apply get_Ok in Hli, Hw.
  eexists. split.
  - unfold relabel_step, store_label. rewrite Hli. cbn [bind]. rewrite Hw. cbn [bind].
    apply put_Ok. split; [lia|reflexivity].
  - rewrite length_insert. exact Hx.
Qed.

(** X15. On a well-formed state with [k >= 1] and a row without NaN,
    [do_kmeans] stays within its arrays: the run of [k_means], the
    relabelling of the descriptors, the sort and the rebuilding of the row
    pointers go through without a fault. *)
Theorem do_kmeans_memory_safe
    (qsort : (perBaseWig -> perBaseWig -> Z) -> list perBaseWig -> list perBaseWig)
    (mem : rowstore) (fuel : nat) (c : cluster_bed_matrix) (t : float) :
  qsort_spec qsort ->
  wf_cbm mem c ->
  0 < k c ->
  num_na c < n c ->
  (exists c', do_kmeans qsort mem fuel c t = Ok c') \/
  do_kmeans qsort mem fuel c t = Timeout.
Proof.
  intros Hq Hwf Hk Hact. unfold do_kmeans.
  destruct (k_means_init_total mem c Hwf Hk Hact) as [s0 Hinit].
  assert (Hkm : (exists res, k_means mem fuel c t = Ok res) \/
                k_means mem fuel c t = Timeout).
  { unfold k_means. rewrite Hinit. cbn [bind].
    destruct (main_loop_total mem c t Hwf Hk fuel s0 [] (loop_head_init _ _ _ Hinit))
      as [[[s tr] Hres]|Hto]; [rewrite Hres|rewrite Hto].
    - left. cbn [bind]. eauto.
    - right. reflexivity. }
  destruct Hkm as [[[[c1 labels] trace] Hkm]|Hto]; [|right; rewrite Hto; reflexivity].
  left. rewrite Hkm. cbn [bind].
  destruct (k_means_spec _ _ _ _ _ _ _ Hkm) as (sp & s' & Hlh & Hit & -> & -> & _).
  assert (Hlh' : loop_head mem c s') by (eapply loop_head_next; eauto).
  destruct (loop_head_shape _ _ _ Hlh') as [Hl _ _ _]. cbn [pbm num_na].
  destruct Hwf as [Hn Hm Hlen Hint Hmp Hna Hsy Hrows Hex Hac].
  destruct (relabel_total (ks_labels s') (Z.to_nat (num_na c))
              (Z.to_nat (nrow (pbm c) - num_na c)) (array (pbm c)))
    as [arr2 Hrel]; [lia|lia|].
  unfold upto. rewrite Hrel. cbn [bind].
  destruct (relabel_loop _ _ _ _ _ Hrel) as (Hlen2 & _).
  assert (Hnr : nrow (pbm c) = Z.of_nat (length arr2)) by (rewrite Hlen2; lia).
  rewrite Hnr, qsort_array_eq. cbn [bind].
  rewrite <- (qsort_length qsort Hq perBaseWigLabelCmp arr2), sync_matrix_eq.
  - cbn [bind]. eauto.
  - rewrite (qsort_length qsort Hq), Hlen2, Hsy, length_map. reflexivity.
Qed.

Lemma do_kmeans_memory_safe_witness :
  (exists c', do_kmeans sort_early ex_mem 1 ex_cbm ex_t = Ok c') \/
  do_kmeans sort_early ex_mem 1 ex_cbm ex_t = Timeout.
Proof.
  apply (do_kmeans_memory_safe sort_early ex_mem 1 ex_cbm ex_t).
  - exact sort_early_spec.
  - exact ex_cbm_wf.
  - reflexivity.
  - reflexivity.
Defined.

(** ** Destruction *)

Lemma freeMem_live (h : heap) (p : addr) :
  p = NULL \/ is_Some (h !! p) ->
  freeMem h p = Ok (if decide (p = NULL) then h else delete p h).
Proof.
  intros Hp. unfold freeMem, free, deref.
  destruct (decide (p = NULL)) as [Hn|Hn]; [reflexivity|].
  destruct Hp as [Hp|[b Hb]]; [contradiction|]. rewrite Hb. reflexivity.
Qed.

Lemma freeMem_lookup (h : heap) (p a : addr) :
  (if decide (p = NULL) then h else delete p h) !! a =
  if decide (p <> NULL /\ a = p) then None else h !! a.
Proof.
  destruct (decide (p = NULL)) as [Hn|Hn].
  - rewrite decide_False by tauto. reflexivity.
  - destruct (decide (a = p)) as [->|Hne].
    + rewrite decide_True by tauto. apply lookup_delete_eq.
    + rewrite decide_False by tauto. apply lookup_delete_ne. auto.
Qed.

Lemma heap_insert_ne (h : heap) (a b : addr) (x : block) :
  a <> b -> <[a := x]> h !! b = h !! b.
Proof. apply lookup_insert_ne. Qed.

Lemma heap_delete_ne (h : heap) (a b : addr) :
  a <> b -> delete a h !! b = h !! b.
Proof. apply lookup_delete_ne. Qed.

(** X16. After [free_cbm] has returned, the caller's handle still holds
    the address of the released state: [freez(&cbm)] clears the local
    copy only.  A second call on the handle reads the released block. *)
Theorem free_cbm_twice_faults (h h' : heap) (handle handle' : addr) :
  free_cbm h handle = Ok (h', handle') ->
  handle' = handle /\ handle <> NULL /\ h' !! handle = None /\
  free_cbm h' handle' = Fault.
Proof.
  intros Hrun. unfold free_cbm in Hrun.
  bind_inv Hrun as h1 H1. bind_inv Hrun as sz Hsz. bind_inv Hrun as h2 H2.
  bind_inv Hrun as ct Hct. bind_inv Hrun as h3 H3. bind_inv Hrun as h4 H4.
  injection Hrun as <- <-.
  assert (Hnn : handle <> NULL).
  { intros ->. unfold free_perBaseMatrix, deref in H1.
    rewrite decide_True in H1 by reflexivity. discriminate. }
  assert (Hgone : h4 !! handle = None).
  { unfold freeMem in H4. rewrite decide_False in H4 by exact Hnn.
    unfold free in H4. destruct (deref h3 handle); [|discriminate].
    injection H4 as <-. apply lookup_delete_eq. }
  split; [reflexivity|]. split; [exact Hnn|]. split; [exact Hgone|].
  unfold free_cbm, free_perBaseMatrix, deref.
  rewrite decide_False by exact Hnn. rewrite Hgone. reflexivity.
Qed.

Lemma free_cbm_twice_faults_witness :
  1%nat = 1%nat /\ 1%nat <> NULL /\ (∅ : heap) !! 1%nat = None /\
  free_cbm ∅ 1%nat = Fault.
Proof.
  apply (free_cbm_twice_faults ex_heap ∅ 1%nat 1%nat).
  vm_compute. reflexivity.
Defined.

(** X17. On a live state whose fields are null or live blocks of their
    own, [free_cbm] returns, and releases the state and its non-null
    fields, nothing else.  Null [cluster_sizes] and [centroids], as
    [init_cbm_from_pbm] leaves them, are no obstacle.  Every other
    block of the heap is left as it was. *)
Theorem free_cbm_releases (h : heap) (handle p sz ct : addr) :
  handle <> NULL ->
  h !! handle = Some (Cbm_block p sz ct) ->
  freeable h [handle] p ->
  freeable h [handle; p] sz ->
  freeable h [handle; p; sz] ct ->
  exists h', free_cbm h handle = Ok (h', handle) /\
    forall a, h' !! a = if decide (released handle p sz ct a) then None else h !! a.
Proof.
  intros Hnn Hh Hp Hsz Hct.
  set (f := fun (x : heap) (q : addr) => if decide (q = NULL) then x else delete q x).
  set (h1 := <[handle := Cbm_block NULL sz ct]> (f h p)).
  assert (E1 : free_perBaseMatrix h handle = Ok h1).
  { unfold free_perBaseMatrix, deref. rewrite decide_False by exact Hnn. rewrite Hh.
    rewrite freeMem_live; [reflexivity|].
    destruct Hp as [Hp|[_ Hp]]; auto. }
  assert (L1 : h1 !! handle = Some (Cbm_block NULL sz ct))
    by apply lookup_insert_eq.
  assert (O1 : forall a, a <> handle -> h1 !! a =
             if decide (p <> NULL /\ a = p) then None else h !! a).
  { intros a Ha. unfold h1. rewrite heap_insert_ne by auto. apply freeMem_lookup. }
  set (h2 := f h1 sz).
  assert (E2 : freeMem h1 sz = Ok h2).
  { apply freeMem_live. destruct Hsz as [Hs|[Hs1 Hs2]]; [auto|right].
    rewrite O1, decide_False; [exact Hs2| |].
    - intros [_ ->]. apply Hs1. right. left.
    - intros ->. apply Hs1. left. }
  assert (Hszh : sz = NULL \/ sz <> handle).
  { destruct Hsz as [Hs|[Hs1 _]]; [auto|right]. intros ->. apply Hs1. left. }
  assert (L2 : h2 !! handle = Some (Cbm_block NULL sz ct)).
  { unfold h2, f. rewrite freeMem_lookup, decide_False; [exact L1|].
    intros [Hs ->]. destruct Hszh; contradiction. }
  set (h3 := f h2 ct).
  assert (E3 : freeMem h2 ct = Ok h3).
  { apply freeMem_live. destruct Hct as [Hc|[Hc1 Hc2]]; [auto|right].
    unfold h2, f. rewrite freeMem_lookup, decide_False.
    - rewrite O1, decide_False; [exact Hc2| |].
      + intros [_ ->]. apply Hc1. right. left.
      + intros ->. apply Hc1. left.
    - intros [_ ->]. apply Hc1. right. right. left. }
  assert (Hcth : ct = NULL \/ ct <> handle).
  { destruct Hct as [Hc|[Hc1 _]]; [auto|right]. intros ->. apply Hc1. left. }
  assert (L3 : h3 !! handle = Some (Cbm_block NULL sz ct)).
  { unfold h3, f. rewrite freeMem_lookup, decide_False; [exact L2|].
    intros [Hc ->]. destruct Hcth; contradiction. }
  exists (delete handle h3). split.
  - unfold free_cbm. rewrite E1. cbn [bind].
    unfold load_cluster_sizes, deref. rewrite decide_False by exact Hnn.
    rewrite L1. cbn [bind]. rewrite E2. cbn [bind].
    unfold load_centroids, deref. rewrite decide_False by exact Hnn.
    rewrite L2. cbn [bind]. rewrite E3. cbn [bind].
    rewrite freeMem_live by (right; rewrite L3; eauto).
    rewrite decide_False by exact Hnn. reflexivity.
  - intros a. unfold released. destruct (decide (a = handle)) as [->|Ha].
    + rewrite decide_True by auto. apply lookup_delete_eq.
    + rewrite heap_delete_ne by auto.
      unfold h3, h2, f. rewrite !freeMem_lookup, O1 by exact Ha.
      destruct (decide (ct <> NULL /\ a = ct)) as [[? ->]|H3].
      { rewrite decide_True by tauto. reflexivity. }
      destruct (decide (sz <> NULL /\ a = sz)) as [[? ->]|H2].
      { rewrite decide_True by tauto. reflexivity. }
      destruct (decide (p <> NULL /\ a = p)) as [[? ->]|H1].
      { rewrite decide_True by tauto. reflexivity. }
      rewrite decide_False; [reflexivity|].
      intros [?|[? [->| [->| ->]]]]; tauto.
Qed.

Lemma free_cbm_releases_witness :
  exists h', free_cbm ex_heap 1%nat = Ok (h', 1%nat) /\
    forall a, h' !! a =
      if decide (released 1%nat 2%nat 3%nat 4%nat a) then None else ex_heap !! a.
Proof.
  apply (free_cbm_releases ex_heap 1%nat 2%nat 3%nat 4%nat).
  - discriminate.
  - reflexivity.
  - right. split; [|exists Pbm_block; reflexivity].
    intros Hin. apply list_elem_of_In in Hin. simpl in Hin. intuition discriminate.
  - right. split; [|exists Array_block; reflexivity].
    intros Hin. apply list_elem_of_In in Hin. simpl in Hin. intuition discriminate.
  - right. split; [|exists Array_block; reflexivity].
    intros Hin. apply list_elem_of_In in Hin. simpl in Hin. intuition discriminate.
Defined.

(** ** Closing an assembly *)

(** X18. Once [annoAssemblyClose] has returned, the caller's handle is
    null and the assembly it held is released, whatever [twoBitClose]
    did; a second call finds the null handle and returns at once,
    leaving the heap as it is.  On a null handle the first call does the
    same. *)
Theorem annoAssemblyClose_twice
    (twoBitClose : anno_heap -> addr -> result anno_heap)
    (h h' : anno_heap) (handle handle' : addr) :
  annoAssemblyClose twoBitClose h handle = Ok (h', handle') ->
  handle' = NULL /\
  (handle = NULL -> h' = h) /\
  (handle <> NULL -> h' !! handle = None) /\
  annoAssemblyClose twoBitClose h' handle' = Ok (h', handle').
Proof.
  unfold annoAssemblyClose at 1. intros Hrun.
  destruct (decide (handle = NULL)) as [Hn|Hn].
  - injection Hrun as <- <-. subst handle.
    split; [reflexivity|]. split; [reflexivity|]. split; [contradiction|].
    reflexivity.
  - bind_inv Hrun as nm Hnm. bind_inv Hrun as h1 H1. bind_inv Hrun as h2 H2.
    bind_inv Hrun as h3 H3. injection Hrun as <- <-.
    split; [reflexivity|]. split; [contradiction|]. split; [|reflexivity].
    intros _. unfold anno_freeMem in H3. rewrite decide_False in H3 by exact Hn.
    destruct (h2 !! handle); [|discriminate]. injection H3 as <-.
    apply lookup_delete_eq.
Qed.

Lemma annoAssemblyClose_twice_witness :
  NULL = NULL /\
  (1%nat = NULL -> (∅ : anno_heap) = ex_anno_heap) /\
  (1%nat <> NULL -> (∅ : anno_heap) !! 1%nat = None) /\
  annoAssemblyClose ex_twoBitClose ∅ NULL = Ok (∅, NULL).
Proof.
  apply (annoAssemblyClose_twice ex_twoBitClose ex_anno_heap ∅ 1%nat NULL).
  vm_compute. reflexivity.
Defined.

(** ** More clusters than rows *)

Lemma for_each_ext {S : Type} (body1 body2 : nat -> S -> result S)
    (idx : list nat) (s : S) :
  (forall i x, body1 i x = body2 i x) ->
  for_each idx body1 s = for_each idx body2 s.
Proof.
  intros Hext. revert s. induction idx as [|i idx IH]; intros s; [reflexivity|].
  simpl. rewrite Hext. destruct (body2 i s); simpl; auto.
Qed.

(** The distance to a centroid depends on the centroid's values only. *)
Lemma distance_ext (mem : rowstore) (c : cluster_bed_matrix)
    (cs : list (list float)) (h i i' : nat) :
  cs !! i = cs !! i' ->
  distance mem c cs h i = distance mem c cs h i'.
Proof.
  intros Heq. unfold distance. apply for_each_ext. intros j d.
  unfold dist_step, get. rewrite Heq. reflexivity.
Qed.

(** Among equal centroids the scan settles on centroid 0, if on any. *)
Lemma iteration_equal_centroids (mem : rowstore) (c : cluster_bed_matrix)
    (s s' : kstate) (h : nat) :
  kshape c s ->
  (forall i ci, ks_centroids s !! i = Some ci -> ks_centroids s !! 0%nat = Some ci) ->
  iteration mem c s = Ok s' ->
  h ∈ upto (num_na c) (n c) ->
  ks_labels s' !! h = Some 0 \/ ks_labels s' !! h = ks_labels s !! h.
Proof.
  intros Hsh Heq Hit Hh.
  destruct (iteration_spec _ _ _ _ Hsh Hit) as (_ & _ & Hin & _).
  destruct (Hin h Hh) as (l & Hl & Hrange & ds & Hds & Hcase).
  destruct Hcase as [(i & (d & Hi & Hlt & _ & Hfirst) & ->)|[_ Hold]];
    [|right; congruence].
  left. rewrite Hl. destruct i as [|i]; [reflexivity|]. exfalso.
  unfold distances in Hds. rewrite upto_0 in Hds.
  assert (Hk : (S i < Z.to_nat (k c))%nat).
  { apply lookup_lt_Some in Hi. rewrite <- (Forall2_length _ _ _ Hds), length_seq in Hi.
    exact Hi. }
  destruct (lookup_lt_is_Some_2 ds 0) as [d' Hd'].
  { rewrite <- (Forall2_length _ _ _ Hds), length_seq. lia. }
  assert (H0 : distance mem c (ks_centroids s) h 0 = Ok d').
  { apply (Forall2_lookup_lr _ _ _ 0%nat 0%nat d' Hds); [|exact Hd'].
    apply lookup_seq_lt. lia. }
  assert (HS : distance mem c (ks_centroids s) h (S i) = Ok d).
  { apply (Forall2_lookup_lr _ _ _ (S i) (S i) d Hds); [|exact Hi].
    apply lookup_seq_lt. lia. }
  destruct (lookup_lt_is_Some_2 (ks_centroids s) (S i)) as [ci Hci].
  { destruct Hsh as [_ _ [Hlen _] _]. lia. }
  rewrite (distance_ext mem c _ h (S i) 0) in HS
    by (rewrite Hci; symmetry; eapply Heq; eauto).
  rewrite H0 in HS. injection HS as ->.
  assert (Hnan : isnan d = false).
  { destruct (isnan d) eqn:E; [|reflexivity].
    rewrite (ltb_nan_l d DBL_MAX E) in Hlt. discriminate. }
  pose proof (proj1 (ltb_false_leb d d Hnan Hnan) (ltb_irrefl d)) as Hle.
  rewrite (Hfirst 0%nat d) in Hle; [discriminate|lia|exact Hd'].
Qed.

(** The state [k_means] starts its loop from. *)
Lemma k_means_init_eq (mem : rowstore) (c : cluster_bed_matrix) :
  wf_cbm mem c -> 0 < k c -> num_na c < n c ->
  k_means_init mem c =
  Ok (mkKstate (replicate (Z.to_nat (n c)) 0) (replicate (Z.to_nat (k c)) 0)
        (map (seed_row mem c) (seq 0 (Z.to_nat (k c))))
        (replicate (Z.to_nat (k c)) (replicate (Z.to_nat (m c)) 0%float)) DBL_MAX).
Proof.
  intros Hwf Hk Hact. destruct (wc_na _ _ Hwf) as [Hna0 _].
  pose proof (wc_m_pos _ _ Hwf) as Hm.
  unfold k_means_init. rewrite !alloc_rows_eq by lia. unfold AllocArray.
  destruct (Z.ltb_spec (n c) 0); [lia|]. destruct (Z.ltb_spec (k c) 0); [lia|].
  cbn [bind].
  rewrite (seed_total mem c _ Hwf Hk Hact (rect_replicate _ _ _)). reflexivity.
Qed.

(** X19. When [k] exceeds the number of rows without NaN, which nothing
    forbids, the first iteration puts every such row in cluster 0: the
    seeds are all the same row, and the scan keeps the first of equal
    distances.  The other clusters are empty and their centroids zero. *)
Theorem k_means_more_clusters_than_rows (mem : rowstore)
    (c : cluster_bed_matrix) (s0 s1 : kstate) :
  wf_cbm mem c ->
  num_na c < n c ->
  n c - num_na c < k c ->
  k_means_init mem c = Ok s0 ->
  iteration mem c s0 = Ok s1 ->
  ks_labels s1 = replicate (Z.to_nat (n c)) 0 /\
  ks_sizes s1 !! 0%nat = Some (n c - num_na c) /\
  forall i : nat, (0 < i < Z.to_nat (k c))%nat ->
    ks_sizes s1 !! i = Some 0 /\
    ks_centroids s1 !! i = Some (replicate (Z.to_nat (m c)) 0%float).
Proof.
  intros Hwf Hact Hk Hinit Hit. destruct (wc_na _ _ Hwf) as [Hna0 _].
  assert (Hk0 : 0 < k c) by lia.
  pose proof (k_means_init_spec _ _ _ Hinit) as (Hsh & _ & Hls & _).
  assert (Hcs : ks_centroids s0 = map (seed_row mem c) (seq 0 (Z.to_nat (k c)))).
  { rewrite (k_means_init_eq mem c Hwf Hk0 Hact) in Hinit.
    injection Hinit as <-. reflexivity. }
  assert (Heq : forall i ci, ks_centroids s0 !! i = Some ci ->
                             ks_centroids s0 !! 0%nat = Some ci).
  { intros i ci Hi. rewrite Hcs in Hi |- *.
    rewrite list_lookup_fmap in Hi |- *.
    destruct (seq 0 (Z.to_nat (k c)) !! i) as [i'|] eqn:Ei; [|discriminate].
    apply lookup_seq in Ei. destruct Ei as [-> Hlt]. simpl in Hi.
    rewrite lookup_seq_lt by lia. simpl. rewrite <- Hi. f_equal.
    unfold seed_row, seed_index. rewrite Z.div_small by lia.
    rewrite !Z.mul_0_r. reflexivity. }
  destruct (iteration_spec _ _ _ _ Hsh Hit) as (Hsh1 & Hout & _ & _ & _ & Hempty).
  assert (Hlab : forall h : nat, (h < Z.to_nat (n c))%nat -> ks_labels s1 !! h = Some 0).
  { intros h Hh.
    assert (H0 : ks_labels s0 !! h = Some 0).
    { rewrite Hls. apply lookup_replicate. split; [reflexivity|exact Hh]. }
    destruct (decide (h ∈ upto (num_na c) (n c))) as [Hin|Hnin].
    - destruct (iteration_equal_centroids mem c s0 s1 h Hsh Heq Hit Hin) as [E|E];
        congruence.
    - rewrite (Hout h Hnin). exact H0. }
  assert (Hlabels : ks_labels s1 = replicate (Z.to_nat (n c)) 0).
  { apply list_eq. intros h. destruct (decide (h < Z.to_nat (n c))%nat) as [Hh|Hh].
    - rewrite (Hlab h Hh). symmetry. apply lookup_replicate. auto.
    - rewrite !lookup_ge_None_2; [reflexivity| |].
      + rewrite length_replicate. lia.
      + rewrite (sh_labels _ _ Hsh1). lia. }
  split; [exact Hlabels|].
  assert (Hsz : forall i : nat, (i < Z.to_nat (k c))%nat ->
            ks_sizes s1 !! i = Some (Z.of_nat (length (members c (ks_labels s1) i)))).
  { intros i Hi. apply (iteration_clusters _ _ _ _ Hsh Hit i Hi). }
  split.
  - rewrite Hsz by lia. f_equal. unfold members. rewrite filter_all.
    + unfold upto. rewrite length_seq. lia.
    + apply Forall_forall. intros h Hh. apply Hlab.
      unfold upto in Hh. apply elem_of_seq in Hh. lia.
  - intros i Hi.
    assert (Hzero : ks_sizes s1 !! i = Some 0).
    { rewrite Hsz by lia. unfold members. rewrite filter_none; [reflexivity|].
      apply Forall_forall. intros h Hh. rewrite Hlab.
      - intros E. injection E as E. lia.
      - unfold upto in Hh. apply elem_of_seq in Hh. lia. }
    split; [exact Hzero|]. apply Hempty. exact Hzero.
Qed.

Lemma many_cbm_wf : wf_cbm many_mem many_cbm.
Proof.
  assert (Hp : wf_pbm many_mem (fresh_pbm 2 1))
    by (apply check_pbm_sound; vm_compute; reflexivity).
  destruct (init_cbm_wf sort_early sort_early_spec many_mem (fresh_pbm 2 1) 5 Hp)
    as (c & Hc & Hwf & _).
  assert (E : init_cbm_from_pbm sort_early many_mem (fresh_pbm 2 1) 5 = Ok many_cbm)
    by (vm_compute; reflexivity).
  rewrite E in Hc. injection Hc as <-. exact Hwf.
Qed.

Lemma k_means_more_clusters_than_rows_witness :
  ks_labels many_s1 = replicate (Z.to_nat (n many_cbm)) 0 /\
  ks_sizes many_s1 !! 0%nat = Some (n many_cbm - num_na many_cbm) /\
  forall i : nat, (0 < i < Z.to_nat (k many_cbm))%nat ->
    ks_sizes many_s1 !! i = Some 0 /\
    ks_centroids many_s1 !! i = Some (replicate (Z.to_nat (m many_cbm)) 0%float).
Proof.
  apply (k_means_more_clusters_than_rows many_mem many_cbm many_s0 many_s1).
  - exact many_cbm_wf.
  - reflexivity.
  - reflexivity.
  - vm_compute. reflexivity.
  - vm_compute. reflexivity.
Defined.

(** ** The state after [do_kmeans] *)

(** X20. [do_kmeans] leaves a well-formed state: the dimensions agree,
    every row is still there with its [m] values, the rows with a NaN hold
    the first [num_na] places with label [-1], the others carry labels
    that a later sort can compare, and the row pointers are in step with
    the descriptors.  So the state can be clustered again. *)
Theorem do_kmeans_keeps_wf
    (qsort : (perBaseWig -> perBaseWig -> Z) -> list perBaseWig -> list perBaseWig)
    (mem : rowstore) (fuel : nat) (t : float) (c c' : cluster_bed_matrix) :
  qsort_spec qsort ->
  wf_cbm mem c ->
  k c <= INT_MAX ->
  do_kmeans qsort mem fuel c t = Ok c' ->
  wf_cbm mem c'.
Proof.
  intros Hq Hwf Hk Hrun.
  destruct (do_kmeans_spec qsort Hq mem fuel c c' t Hwf Hrun)
    as (arr2 & Harr & Hmat & Hnr & Hnc & Hm & Hn & Hkk & Hna & Hlen & Hrows).
  destruct (sorted_rows qsort Hq mem c arr2 Hwf Hk Hlen Hrows) as [_ Hidx].
  rewrite <- Harr in Hidx.
  assert (Hlen' : length (array (pbm c')) = length (array (pbm c))).
  { rewrite Harr, (qsort_length qsort Hq). exact Hlen. }
  constructor.
  - rewrite Hn, Hnr. apply (wc_n _ _ Hwf).
  - rewrite Hm, Hnc. apply (wc_m _ _ Hwf).
  - rewrite Hn, Hlen'. apply (wc_len _ _ Hwf).
  - rewrite Hn. apply (wc_int _ _ Hwf).
  - rewrite Hm. apply (wc_m_pos _ _ Hwf).
  - rewrite Hn, Hna. apply (wc_na _ _ Hwf).
  - exact Hmat.
  - intros w Hw. rewrite Harr in Hw.
    assert (Hw2 : w ∈ arr2) by (rewrite <- (proj1 (Hq perBaseWigLabelCmp arr2)); exact Hw).
    apply list_elem_of_lookup_1 in Hw2. destruct Hw2 as [i Hi].
    destruct (Hrows i w Hi) as (w0 & Hw0 & Hd & _).
    rewrite Hd, Hm. apply (wc_rows _ _ Hwf).
    eapply list_elem_of_lookup_2; eauto.
  - intros i w Hi Hlt. rewrite Hm. apply (Hidx i w Hi). lia.
  - intros i w Hi Hge. rewrite Hm.
    destruct (Hidx i w Hi) as [_ Hhi]. destruct Hhi as [Hr Hnan]; [lia|].
    split; [|exact Hnan]. unfold INT_MAX in *.
    destruct (Z.eq_dec (label w) 2147483647) as [E|E]; lia.
Qed.

Lemma do_kmeans_keeps_wf_witness : wf_cbm ex_mem ex_final.
Proof.
  apply (do_kmeans_keeps_wf sort_early ex_mem 10 ex_t ex_cbm ex_final).
  - exact sort_early_spec.
  - exact ex_cbm_wf.
  - vm_compute. discriminate.
  - vm_compute. reflexivity.
Defined.
